(** * Indicator engine, risk engine and signal detector of the stock
      analytics pipeline (src/technical_indicators.py, src/trading_signals.py)

    The Python code computes on pandas Series of binary64 values.  The
    embedding keeps the special values of that arithmetic (not-a-number and
    the two infinities) and the comparison rules attached to them, which is
    what the boundary behaviour of the code depends on, and replaces the
    rounding of finite results by exact rational arithmetic: a finite value
    is a rational number kept in lowest terms.  Zero carries no sign (it
    stands for +0.0) and finite results never overflow. *)

From Stdlib Require Import String Ascii DecimalString ZArith QArith Qround Qabs List Bool Lia Lqa.
From Stdlib Require Import Permutation Sorted.
Import ListNotations.

Set Implicit Arguments.

(* ================================================================== *)
(** ** Extended values *)

Inductive fval : Type :=
| NaN : fval
| PInf : fval
| NInf : fval
| Fin (q : Q) : fval.

Definition Qsgn (q : Q) : Z := Z.sgn (Qnum q).

Definition Qltb (x y : Q) : bool :=
  match x ?= y with Lt => true | _ => false end.

(** An infinity of the given sign; the zero sign is the invalid operation
    (0 * inf, 0 / 0). *)
Definition finf_sgn (s : Z) : fval :=
  match s with
  | Z0 => NaN
  | Zpos _ => PInf
  | Zneg _ => NInf
  end.

Definition fneg (a : fval) : fval :=
  match a with
  | NaN => NaN
  | PInf => NInf
  | NInf => PInf
  | Fin x => Fin (Qred (- x))
  end.

Definition fadd (a b : fval) : fval :=
  match a, b with
  | NaN, _ | _, NaN => NaN
  | PInf, NInf | NInf, PInf => NaN
  | PInf, _ | _, PInf => PInf
  | NInf, _ | _, NInf => NInf
  | Fin x, Fin y => Fin (Qred (x + y))
  end.

Definition fsub (a b : fval) : fval :=
  match a, b with
  | NaN, _ | _, NaN => NaN
  | PInf, PInf | NInf, NInf => NaN
  | PInf, _ | _, NInf => PInf
  | NInf, _ | _, PInf => NInf
  | Fin x, Fin y => Fin (Qred (x - y))
  end.

Definition fmul (a b : fval) : fval :=
  match a, b with
  | NaN, _ | _, NaN => NaN
  | Fin x, Fin y => Fin (Qred (x * y))
  | Fin x, PInf | PInf, Fin x => finf_sgn (Qsgn x)
  | Fin x, NInf | NInf, Fin x => finf_sgn (- Qsgn x)
  | PInf, PInf | NInf, NInf => PInf
  | PInf, NInf | NInf, PInf => NInf
  end.

(** Division: a finite non-zero value over zero is an infinity of the sign
    of the numerator, 0 / 0 and inf / inf are not-a-number, and a finite
    value over an infinity is zero. *)
Definition fdiv (a b : fval) : fval :=
  match a, b with
  | NaN, _ | _, NaN => NaN
  | Fin x, Fin y =>
      if (Qnum y =? 0)%Z then finf_sgn (Qsgn x) else Fin (Qred (x / y))
  | Fin _, PInf | Fin _, NInf => Fin 0
  | PInf, Fin y => if Qltb y 0 then NInf else PInf
  | NInf, Fin y => if Qltb y 0 then PInf else NInf
  | PInf, PInf | PInf, NInf | NInf, PInf | NInf, NInf => NaN
  end.

(** Comparisons; every comparison with not-a-number is false. *)
Definition fltb (a b : fval) : bool :=
  match a, b with
  | NaN, _ | _, NaN => false
  | _, NInf => false
  | NInf, _ => true
  | PInf, _ => false
  | Fin _, PInf => true
  | Fin x, Fin y => Qltb x y
  end.

Definition fleb (a b : fval) : bool :=
  match a, b with
  | NaN, _ | _, NaN => false
  | NInf, _ => true
  | _, PInf => true
  | _, NInf => false
  | PInf, _ => false
  | Fin x, Fin y => Qle_bool x y
  end.

Definition fgtb (a b : fval) : bool := fltb b a.
Definition fgeb (a b : fval) : bool := fleb b a.

(** [pd.notna] / [pd.isna] on a scalar. *)
Definition notna (a : fval) : bool :=
  match a with NaN => false | _ => true end.

Definition isna (a : fval) : bool := negb (notna a).

Definition of_nat (n : nat) : fval := Fin (inject_Z (Z.of_nat n)).

(* ================================================================== *)
(** ** Series primitives (pandas Series as lists, index = position) *)

Fixpoint map2 (A B C : Type) (f : A -> B -> C) (l1 : list A) (l2 : list B)
  : list C :=
  match l1, l2 with
  | a :: r1, b :: r2 => f a b :: map2 f r1 r2
  | _, _ => []
  end.

Definition fsum (xs : list fval) : fval := fold_left fadd xs (Fin 0).

(** [Series.mean] on a series without missing values. *)
Definition fmean (xs : list fval) : fval := fdiv (fsum xs) (of_nat (length xs)).

(** [Series.diff()]: the first difference is missing. *)
Definition diff (xs : list fval) : list fval :=
  match xs with
  | [] => []
  | _ :: r => NaN :: map2 fsub r xs
  end.

(** The [n] values ending at position [i]. *)
Definition window (n i : nat) (xs : list fval) : list fval :=
  firstn n (skipn (S i - n) xs).

(** The window aggregations of pandas first turn the infinities of their
    input into missing values. *)
Definition inf_to_nan (a : fval) : fval :=
  match a with
  | PInf | NInf => NaN
  | _ => a
  end.

(** [Series.rolling(window=n).agg()] with the default [min_periods = n]:
    the value at position [i] is missing unless the window holds [n]
    observations none of which is missing, an infinite value counting as
    missing. *)
Definition rolling (n : nat) (agg : list fval -> fval) (xs : list fval)
  : list fval :=
  map (fun i =>
         if (S i <? n)%nat then NaN
         else let w := map inf_to_nan (window n i xs) in
              if existsb isna w then NaN else agg w)
      (seq 0 (length xs)).

Definition rolling_mean (n : nat) (xs : list fval) : list fval :=
  rolling n fmean xs.

(** [s.where(cond, 0)]: keep the value where the condition holds, else 0. *)
Definition where_or_zero (cond : fval -> bool) (xs : list fval) : list fval :=
  map (fun d => if cond d then d else Fin 0) xs.

(* ================================================================== *)
(** ** Indicator engine: [_add_indicators] *)

Module Indicators.

(** Lines 28-30: simple moving averages of the close. *)
Definition sma (n : nat) (close : list fval) : list fval :=
  rolling_mean n close.

(** Lines 33-35: 14-bar rolling means of gains and of losses. *)
Definition delta (close : list fval) : list fval := diff close.

Definition gain (close : list fval) : list fval :=
  rolling_mean 14 (where_or_zero (fun d => fgtb d (Fin 0)) (delta close)).

Definition loss (close : list fval) : list fval :=
  rolling_mean 14
    (map fneg (where_or_zero (fun d => fltb d (Fin 0)) (delta close))).

(** Line 36. *)
Definition rs (close : list fval) : list fval :=
  map2 fdiv (gain close) (loss close).

(** Line 37. *)
Definition rsi_14 (close : list fval) : list fval :=
  map (fun r => fsub (Fin 100) (fdiv (Fin 100) (fadd (Fin 1) r))) (rs close).

(** The columns the function adds that the properties below are about
    (the MACD, Bollinger and volatility columns are computed independently
    of these and are not modelled). *)
Record indicator_columns : Type := {
  col_close : list fval;
  col_sma_20 : list fval;
  col_sma_50 : list fval;
  col_sma_200 : list fval;
  col_rsi_14 : list fval
}.

Definition _add_indicators (close : list fval) : indicator_columns :=
  {| col_close := close;
     col_sma_20 := sma 20 close;
     col_sma_50 := sma 50 close;
     col_sma_200 := sma 200 close;
     col_rsi_14 := rsi_14 close |}.

End Indicators.

(* ================================================================== *)
(** ** Generic list operations used by both engines *)

(** Insertion into a list kept in order by [leb]; equal keys keep their
    arrival order. *)
Fixpoint insert_sorted (A : Type) (leb : A -> A -> bool) (x : A) (l : list A)
  : list A :=
  match l with
  | [] => [x]
  | y :: r => if leb y x then y :: insert_sorted leb x r else x :: l
  end.

Definition isort (A : Type) (leb : A -> A -> bool) (l : list A) : list A :=
  fold_left (fun acc x => insert_sorted leb x acc) l [].

(** [Series.unique()]: the distinct values in order of first appearance. *)
Fixpoint unique_from (seen : list string) (l : list string) : list string :=
  match l with
  | [] => []
  | x :: r =>
      if existsb (String.eqb x) seen then unique_from seen r
      else x :: unique_from (x :: seen) r
  end.

Definition unique (l : list string) : list string := unique_from [] l.

(** [Series.dropna()]. *)
Definition dropna (xs : list fval) : list fval := filter notna xs.

(* ================================================================== *)
(** ** Rounding and fixed-point formatting *)

Definition pow10 (d : nat) : Z := (10 ^ Z.of_nat d)%Z.

(** Nearest integer, ties to the even one. *)
Definition round_half_even (x : Q) : Z :=
  let f := Qfloor x in
  match ((x - inject_Z f) ?= (1 # 2))%Q with
  | Lt => f
  | Gt => (f + 1)%Z
  | Eq => if Z.even f then f else (f + 1)%Z
  end.

(** [round(x, d)]. *)
Definition round_nd (d : nat) (x : fval) : fval :=
  match x with
  | Fin q =>
      Fin (Qred (inject_Z (round_half_even (q * inject_Z (pow10 d)))
                 / inject_Z (pow10 d))%Q)
  | _ => x
  end.

Definition digit_char (z : Z) : ascii := ascii_of_nat (48 + Z.to_nat z).

(** The [d] low decimal digits of [n], most significant first. *)
Fixpoint digits_fixed (d : nat) (n : Z) : string :=
  match d with
  | O => EmptyString
  | S d' => digits_fixed d' (n / 10) ++ String (digit_char (n mod 10)) EmptyString
  end.

Definition string_of_natural (n : Z) : string :=
  NilZero.string_of_uint (N.to_uint (Z.to_N n)).

(** The format specification [.<d>f]: sign, integer part, and [d] digits
    after the point, the value rounded to nearest with ties to even. *)
Definition format_fixed (d : nat) (x : fval) : string :=
  match x with
  | NaN => "nan"
  | PInf => "inf"
  | NInf => "-inf"
  | Fin q =>
      let scaled := round_half_even (Qabs q * inject_Z (pow10 d))%Q in
      let sign := if Qltb q 0 then "-" else "" in
      let frac := match d with
                  | O => ""
                  | _ => "." ++ digits_fixed d (scaled mod pow10 d)
                  end in
      sign ++ string_of_natural (scaled / pow10 d) ++ frac
  end%string.

(* ================================================================== *)
(** ** Risk engine: [calculate_risk_metrics] *)

Module Risk.

(** config.py, line 48. *)
Definition RISK_FREE_RATE : fval := Fin (45 # 1000).

(** The two columns of the input frame the function reads. *)
Record row : Type := {
  ticker : string;
  daily_return : fval
}.

Record risk_metrics : Type := {
  rm_ticker : string;
  sharpe_ratio : fval;
  sortino_ratio : fval;
  max_drawdown : fval;
  var_95 : fval;
  annualized_return : fval;
  annualized_volatility : fval
}.

(** Line 66: [df[df['ticker'] == ticker]['daily_return'].dropna()]. *)
Definition stock_returns (df : list row) (t : string) : list fval :=
  dropna (map daily_return (filter (fun r => String.eqb (ticker r) t) df)).

(** [Series.cumprod()]. *)
Fixpoint cumprod_from (acc : fval) (xs : list fval) : list fval :=
  match xs with
  | [] => []
  | x :: r => let a := fmul acc x in a :: cumprod_from a r
  end.

Definition cumprod (xs : list fval) : list fval := cumprod_from (Fin 1) xs.

(** Maximum and minimum that skip missing values. *)
Definition fmax_skipna (a b : fval) : fval :=
  match a, b with
  | NaN, _ => b
  | _, NaN => a
  | _, _ => if fltb a b then b else a
  end.

Definition fmin_skipna (a b : fval) : fval :=
  match a, b with
  | NaN, _ => b
  | _, NaN => a
  | _, _ => if fltb b a then b else a
  end.

(** [Series.expanding().max()]; like the other window aggregations it
    takes an infinite value for a missing one. *)
Fixpoint expanding_max_from (cur : fval) (xs : list fval) : list fval :=
  match xs with
  | [] => []
  | x :: r => let m := fmax_skipna cur x in m :: expanding_max_from m r
  end.

Definition expanding_max (xs : list fval) : list fval :=
  expanding_max_from NaN (map inf_to_nan xs).

(** [Series.min()]. *)
Definition series_min (xs : list fval) : fval := fold_left fmin_skipna xs NaN.

Definition lerp (a b t : fval) : fval := fadd a (fmul (fsub b a) t).

(** [Series.quantile(q)] with the default linear interpolation between the
    order statistics around position [(n - 1) * q]. *)
Definition quantile (q : Q) (xs : list fval) : fval :=
  let s := isort fleb xs in
  match s with
  | [] => NaN
  | _ =>
      let n := length s in
      let h := (inject_Z (Z.of_nat (n - 1)) * q)%Q in
      let lo := Z.to_nat (Qfloor h) in
      let hi := Nat.min (lo + 1) (n - 1) in
      lerp (nth lo s NaN) (nth hi s NaN) (Fin (Qred (h - inject_Z (Qfloor h))%Q))
  end.

Section WithSqrt.

(** The square root on finite non-negative values: the one operation of the
    engine that leaves the rationals.  The engine is parametrised by it; the
    properties below ask of it at most that it is never negative. *)
Variable sqrtQ : Q -> Q.

Definition fsqrt (x : fval) : fval :=
  match x with
  | NaN | NInf => NaN
  | PInf => PInf
  | Fin q => if Qltb q 0 then NaN else Fin (Qred (sqrtQ q))
  end.

(** [Series.std()]: sample standard deviation (one degree of freedom
    removed), missing when there are fewer than two observations. *)
Definition series_var (xs : list fval) : fval :=
  let n := length xs in
  if (n <=? 1)%nat then NaN
  else
    let avg := fmean xs in
    fdiv (fsum (map (fun x => let d := fsub avg x in fmul d d) xs))
         (of_nat (n - 1)).

Definition series_std (xs : list fval) : fval := fsqrt (series_var xs).

(** Lines 73-74. *)
Definition ann_return (stock_returns : list fval) : fval :=
  fmul (fmean stock_returns) (Fin 252).

Definition ann_volatility (stock_returns : list fval) : fval :=
  fmul (series_std stock_returns) (fsqrt (Fin 252)).

(** Lines 77-78. *)
Definition excess_return (stock_returns : list fval) : fval :=
  fsub (ann_return stock_returns) RISK_FREE_RATE.

Definition sharpe (stock_returns : list fval) : fval :=
  if fgtb (ann_volatility stock_returns) (Fin 0)
  then fdiv (excess_return stock_returns) (ann_volatility stock_returns)
  else Fin 0.

(** Lines 81-84. *)
Definition calc_max_drawdown (stock_returns : list fval) : fval :=
  let cum_returns := cumprod (map (fadd (Fin 1)) stock_returns) in
  let rolling_max := expanding_max cum_returns in
  let drawdown := map2 fdiv (map2 fsub cum_returns rolling_max) rolling_max in
  series_min drawdown.

(** Line 87. *)
Definition calc_var_95 (stock_returns : list fval) : fval :=
  quantile (5 # 100) stock_returns.

(** Lines 90-92. *)
Definition downside_returns (stock_returns : list fval) : list fval :=
  filter (fun r => fltb r (Fin 0)) stock_returns.

Definition downside_std (stock_returns : list fval) : fval :=
  fmul (series_std (downside_returns stock_returns)) (fsqrt (Fin 252)).

Definition sortino (stock_returns : list fval) : fval :=
  if fgtb (downside_std stock_returns) (Fin 0)
  then fdiv (excess_return stock_returns) (downside_std stock_returns)
  else Fin 0.

(** Lines 94-102: the record appended for one ticker. *)
Definition risk_record (t : string) (stock_returns : list fval) : risk_metrics :=
  {| rm_ticker := t;
     sharpe_ratio := round_nd 4 (sharpe stock_returns);
     sortino_ratio := round_nd 4 (sortino stock_returns);
     max_drawdown := round_nd 6 (calc_max_drawdown stock_returns);
     var_95 := round_nd 6 (calc_var_95 stock_returns);
     annualized_return := round_nd 6 (ann_return stock_returns);
     annualized_volatility := round_nd 6 (ann_volatility stock_returns) |}.

(** One iteration of the loop of lines 65-102: skip the ticker
    ([continue]) or append its record to [results]. *)
Definition risk_step (df : list row) (results : list risk_metrics) (t : string)
  : list risk_metrics :=
  let sr := stock_returns df t in
  if (length sr <? 30)%nat then results
  else results ++ [risk_record t sr].

Definition calculate_risk_metrics (df : list row) : list risk_metrics :=
  fold_left (risk_step df) (unique (map ticker df)) [].

End WithSqrt.

(** A computable square root for running the engine: the least multiple of
    [10^-12 / den] that is not below the root. *)
Definition sqrt_scale : positive := 1000000000000.

Definition Qsqrt_up (q : Q) : Q :=
  Z.sqrt_up (Qnum q * Zpos (Qden q) * Zpos sqrt_scale * Zpos sqrt_scale)
  # (Qden q * sqrt_scale).

End Risk.

(* ================================================================== *)
(** ** Signal detector: [generate_signals_for_ticker] *)

Module Signals.

(** A row of the frame the detector reads: the indicator table joined with
    the close of the same (ticker, date).  Dates are day numbers. *)
Record row : Type := {
  ticker : string;
  date : Z;
  sma_20 : fval;
  sma_50 : fval;
  sma_200 : fval;
  rsi_14 : fval;
  macd : fval;
  macd_signal : fval;
  bb_upper : fval;
  bb_middle : fval;
  bb_lower : fval;
  daily_return : fval;
  volatility_30d : fval;
  close : fval
}.

Inductive signal_type : Type :=
| GOLDEN_CROSS | DEATH_CROSS
| RSI_OVERSOLD | RSI_OVERBOUGHT
| MACD_BULLISH | MACD_BEARISH
| BB_OVERSOLD | BB_OVERBOUGHT
| NEUTRAL.

Inductive signal_strength : Type :=
| STRONG | MEDIUM | WEAK | NEUTRAL_STRENGTH.

Record signal : Type := {
  sig_ticker : string;
  signal_date : Z;
  sig_type : signal_type;
  sig_strength : signal_strength;
  description : string
}.

Definition signal_type_eqb (a b : signal_type) : bool :=
  match a, b with
  | GOLDEN_CROSS, GOLDEN_CROSS | DEATH_CROSS, DEATH_CROSS
  | RSI_OVERSOLD, RSI_OVERSOLD | RSI_OVERBOUGHT, RSI_OVERBOUGHT
  | MACD_BULLISH, MACD_BULLISH | MACD_BEARISH, MACD_BEARISH
  | BB_OVERSOLD, BB_OVERSOLD | BB_OVERBOUGHT, BB_OVERBOUGHT
  | NEUTRAL, NEUTRAL => true
  | _, _ => false
  end.

(** The conditions of the eight [if] statements, in source order
    (lines 19-20, 30-31, 42, 52, 62-64, 74-76, 87, 97). *)
Definition cond_golden_cross (latest previous : row) : bool :=
  fgtb (sma_50 latest) (sma_200 latest)
  && fleb (sma_50 previous) (sma_200 previous).

Definition cond_death_cross (latest previous : row) : bool :=
  fltb (sma_50 latest) (sma_200 latest)
  && fgeb (sma_50 previous) (sma_200 previous).

Definition cond_rsi_oversold (latest : row) : bool :=
  notna (rsi_14 latest) && fltb (rsi_14 latest) (Fin 30).

Definition cond_rsi_overbought (latest : row) : bool :=
  notna (rsi_14 latest) && fgtb (rsi_14 latest) (Fin 70).

Definition cond_macd_bullish (latest previous : row) : bool :=
  notna (macd latest) && notna (macd_signal latest)
  && fgtb (macd latest) (macd_signal latest)
  && fleb (macd previous) (macd_signal previous).

Definition cond_macd_bearish (latest previous : row) : bool :=
  notna (macd latest) && notna (macd_signal latest)
  && fltb (macd latest) (macd_signal latest)
  && fgeb (macd previous) (macd_signal previous).

Definition cond_bb_oversold (latest : row) : bool :=
  notna (bb_lower latest) && fltb (close latest) (bb_lower latest).

Definition cond_bb_overbought (latest : row) : bool :=
  notna (bb_upper latest) && fgtb (close latest) (bb_upper latest).

(** [if cond: signals.append(s)]. *)
Definition append_if (cond : bool) (s : signal) (signals : list signal)
  : list signal :=
  if cond then signals ++ [s] else signals.

Local Open Scope string_scope.

(** Lines 13-116, once the last two rows are known. *)
Definition detect (t : string) (latest previous : row) : list signal :=
  let signal_date := date latest in
  let mk ty st d :=
    {| sig_ticker := t; signal_date := signal_date;
       sig_type := ty; sig_strength := st; description := d |} in
  let signals := [] in
  let signals :=
    append_if (cond_golden_cross latest previous)
      (mk GOLDEN_CROSS STRONG
         "SMA50 crossed above SMA200 - Strong bullish long-term signal")
      signals in
  let signals :=
    append_if (cond_death_cross latest previous)
      (mk DEATH_CROSS STRONG
         "SMA50 crossed below SMA200 - Strong bearish long-term signal")
      signals in
  let rsi := rsi_14 latest in
  let signals :=
    append_if (cond_rsi_oversold latest)
      (mk RSI_OVERSOLD MEDIUM
         ("RSI at " ++ format_fixed 1 rsi
          ++ " - Stock potentially oversold, consider buying"))
      signals in
  let signals :=
    append_if (cond_rsi_overbought latest)
      (mk RSI_OVERBOUGHT MEDIUM
         ("RSI at " ++ format_fixed 1 rsi
          ++ " - Stock potentially overbought, consider selling"))
      signals in
  let signals :=
    append_if (cond_macd_bullish latest previous)
      (mk MACD_BULLISH MEDIUM
         "MACD crossed above signal line - Bullish momentum building")
      signals in
  let signals :=
    append_if (cond_macd_bearish latest previous)
      (mk MACD_BEARISH MEDIUM
         "MACD crossed below signal line - Bearish momentum building")
      signals in
  let close := close latest in
  let signals :=
    append_if (cond_bb_oversold latest)
      (mk BB_OVERSOLD WEAK
         ("Price (" ++ format_fixed 2 close
          ++ ") below lower Bollinger Band - Potential bounce"))
      signals in
  let signals :=
    append_if (cond_bb_overbought latest)
      (mk BB_OVERBOUGHT WEAK
         ("Price (" ++ format_fixed 2 close
          ++ ") above upper Bollinger Band - Potential pullback"))
      signals in
  match signals with
  | [] => [mk NEUTRAL NEUTRAL_STRENGTH
             "No significant technical signals detected"]
  | _ => signals
  end.

(** Line 8: the rows of the ticker ordered by date. *)
Definition stock_rows (t : string) (indicators_df : list row) : list row :=
  isort (fun a b => (date a <=? date b)%Z)
        (filter (fun r => String.eqb (ticker r) t) indicators_df).

Definition generate_signals_for_ticker (t : string) (indicators_df : list row)
  : list signal :=
  let stock := stock_rows t indicators_df in
  if (length stock <? 2)%nat then []
  else
    match rev stock with
    | latest :: previous :: _ => detect t latest previous
    | _ => []
    end.

(** The signal types a run emits for a ticker. *)
Definition fired (t : string) (indicators_df : list row) : list signal_type :=
  map sig_type (generate_signals_for_ticker t indicators_df).

End Signals.

(* ================================================================== *)
(** ** Indicator engine: the remaining columns and the per-ticker loop *)

Module IndicatorsFull.

(** The comparison [==] of two values (false on a missing value). *)
Definition feqb (a b : fval) : bool :=
  match a, b with
  | Fin x, Fin y => Qeq_bool x y
  | PInf, PInf | NInf, NInf => true
  | _, _ => false
  end.

(** Smoothing factor of [ewm(span=...)]: 2 / (span + 1). *)
Definition alpha (span : nat) : Q := 2 / inject_Z (Z.of_nat (span + 1)).

(** One step of [ewm(adjust=False).mean()] (with the default
    [ignore_na=False] and no minimum number of periods).  The state is the
    running mean and the weight of the past: the weight decays at every
    row, and a row that is an observation enters with weight alpha, the
    two weights being normalised by their sum.  A value equal to the
    running mean leaves it untouched. *)
Definition ewm_step (a : Q) (st : fval * Q) (cur : fval) : fval * Q :=
  let (weighted, old_wt) := st in
  if notna weighted then
    let old_wt := (old_wt * (1 - a))%Q in
    if notna cur then
      let weighted :=
        if feqb weighted cur then weighted
        else fdiv (fadd (fmul (Fin old_wt) weighted) (fmul (Fin a) cur))
                  (fadd (Fin old_wt) (Fin a)) in
      (weighted, 1%Q)
    else (weighted, old_wt)
  else if notna cur then (cur, old_wt)
  else (weighted, old_wt).

Fixpoint ewm_from (a : Q) (st : fval * Q) (xs : list fval) : list fval :=
  match xs with
  | [] => []
  | cur :: r => let st' := ewm_step a st cur in fst st' :: ewm_from a st' r
  end.

(** [Series.ewm(span=span, adjust=False).mean()]: seeded by the first
    value, an infinite value of the series being taken for a missing
    one. *)
Definition ewm_mean (span : nat) (xs : list fval) : list fval :=
  match map inf_to_nan xs with
  | [] => []
  | x :: r => x :: ewm_from (alpha span) (x, 1%Q) r
  end.

(** Lines 40-43. *)
Definition ema_12 (close : list fval) : list fval := ewm_mean 12 close.
Definition ema_26 (close : list fval) : list fval := ewm_mean 26 close.

Definition macd (close : list fval) : list fval :=
  map2 fsub (ema_12 close) (ema_26 close).

Definition macd_signal (close : list fval) : list fval :=
  ewm_mean 9 (macd close).

(** [Series.pct_change()] on a series of closes: the ratio to the previous
    value minus one, missing on the first row.  (On a series with missing
    closes the library versions differ, the older ones filling the gaps
    forward first; the properties below are about finite closes.) *)
Definition pct_change (xs : list fval) : list fval :=
  match xs with
  | [] => []
  | _ :: r => NaN :: map2 (fun cur prev => fsub (fdiv cur prev) (Fin 1)) r xs
  end.

Section WithSqrt.
Variable sqrtQ : Q -> Q.

(** Lines 46-50. *)
Definition std_20 (close : list fval) : list fval :=
  rolling 20 (Risk.series_std sqrtQ) close.

Definition bb_upper (close : list fval) : list fval :=
  map2 fadd (rolling_mean 20 close)
       (map (fun s => fmul s (Fin 2)) (std_20 close)).

Definition bb_middle (close : list fval) : list fval := rolling_mean 20 close.

Definition bb_lower (close : list fval) : list fval :=
  map2 fsub (rolling_mean 20 close)
       (map (fun s => fmul s (Fin 2)) (std_20 close)).

(** Lines 53-54. *)
Definition daily_return (close : list fval) : list fval := pct_change close.

Definition volatility_30d (close : list fval) : list fval :=
  map (fun s => fmul s (Risk.fsqrt sqrtQ (Fin 252)))
      (rolling 30 (Risk.series_std sqrtQ) (daily_return close)).

(** A row of [stock_prices]. *)
Record price_row : Type := {
  p_ticker : string;
  p_date : Z;
  p_open : fval;
  p_high : fval;
  p_low : fval;
  p_close : fval;
  p_volume : Z;
  p_dividends : fval;
  p_stock_splits : fval
}.

(** A row of the frame [_add_indicators] returns: the price row and the
    eleven added columns. *)
Record indicator_row : Type := {
  price : price_row;
  i_sma_20 : fval;
  i_sma_50 : fval;
  i_sma_200 : fval;
  i_rsi_14 : fval;
  i_macd : fval;
  i_macd_signal : fval;
  i_bb_upper : fval;
  i_bb_middle : fval;
  i_bb_lower : fval;
  i_daily_return : fval;
  i_volatility_30d : fval
}.

(** Lines 22-56 on the frame of one stock. *)
Definition _add_indicators (df : list price_row) : list indicator_row :=
  let close := map p_close df in
  map (fun ir : nat * price_row =>
         let (i, r) := ir in
         {| price := r;
            i_sma_20 := nth i (Indicators.sma 20 close) NaN;
            i_sma_50 := nth i (Indicators.sma 50 close) NaN;
            i_sma_200 := nth i (Indicators.sma 200 close) NaN;
            i_rsi_14 := nth i (Indicators.rsi_14 close) NaN;
            i_macd := nth i (macd close) NaN;
            i_macd_signal := nth i (macd_signal close) NaN;
            i_bb_upper := nth i (bb_upper close) NaN;
            i_bb_middle := nth i (bb_middle close) NaN;
            i_bb_lower := nth i (bb_lower close) NaN;
            i_daily_return := nth i (daily_return close) NaN;
            i_volatility_30d := nth i (volatility_30d close) NaN |})
      (combine (seq 0 (length df)) df).

(** [sort_values(['ticker', 'date'])]: by ticker, then by date. *)
Definition ticker_date_leb (a b : price_row) : bool :=
  if String.eqb (p_ticker a) (p_ticker b) then (p_date a <=? p_date b)%Z
  else String.leb (p_ticker a) (p_ticker b).

(** Lines 6-19: one iteration appends the frame of a ticker, and the
    frames are concatenated at the end. *)
Definition indicators_step (df : list price_row)
    (results : list (list indicator_row)) (t : string)
  : list (list indicator_row) :=
  let stock_df := filter (fun r => String.eqb (p_ticker r) t) df in
  results ++ [_add_indicators stock_df].

(** The list [results] after the loop of lines 13-17. *)
Definition indicator_frames (df : list price_row)
  : list (list indicator_row) :=
  let df := isort ticker_date_leb df in
  fold_left (indicators_step df) (unique (map p_ticker df)) [].

(** Lines 6-19.  [pd.concat] raises ValueError when it is given no frame,
    which is [None] here. *)
Definition calculate_all_indicators (df : list price_row)
  : option (list indicator_row) :=
  match indicator_frames df with
  | [] => None
  | results => Some (concat results)
  end.

(** The two columns of the indicator frame that the risk engine reads
    (line 140 passes the frame to [calculate_risk_metrics]). *)
Definition risk_input (indicators_df : list indicator_row) : list Risk.row :=
  map (fun r => {| Risk.ticker := p_ticker (price r);
                   Risk.daily_return := i_daily_return r |})
      indicators_df.

End WithSqrt.

End IndicatorsFull.

(* ================================================================== *)
(** ** The pipelines and the store (database.py and the [run_*] functions) *)

Module Pipelines.
Import IndicatorsFull.

(** Exceptions that leave a function; [BackendError] stands for any
    exception of the database layer that is not an SQLAlchemyError. *)
Inductive exn : Type :=
| KeyError (key : string)
| UnboundLocalError (name : string)
| ValueError
| BackendError.

Inductive outcome (A : Type) : Type :=
| Returned (a : A)
| Raised (e : exn).

Arguments Returned {A} a.
Arguments Raised {A} e.

Inductive if_exists : Type := Replace | Append.

(** What [pd.read_sql] does with a query: it returns the rows, fails with
    an SQLAlchemyError, or fails with another exception (recent versions of
    pandas turn the error of a statement that cannot be executed into their
    own DatabaseError, which is not an SQLAlchemyError). *)
Inductive read_result (A : Type) : Type :=
| ReadOk (rows : list A)
| ReadSqlError
| ReadOtherFailure.

Arguments ReadSqlError {A}.
Arguments ReadOtherFailure {A}.

(** database.py, lines 54-63, at the type of the rows the query selects:
    an SQLAlchemyError is caught and reported as [None], any other
    exception propagates. *)
Definition query_to_df (A : Type) (read_sql : string -> read_result A)
    (sql_query : string) : outcome (option (list A)) :=
  match read_sql sql_query with
  | ReadOk df => Returned (Some df)
  | ReadSqlError => Returned None
  | ReadOtherFailure => Raised BackendError
  end.

(** trading_signals.py, lines 128-133: a row of the query
    [SELECT ti.*, sp.close FROM technical_indicators ti JOIN stock_prices
    sp ON ti.ticker = sp.ticker AND ti.date = sp.date], for an indicator
    row and the price row it was computed from. *)
Definition joined_row (r : indicator_row) : Signals.row :=
  {| Signals.ticker := p_ticker (price r);
     Signals.date := p_date (price r);
     Signals.sma_20 := i_sma_20 r;
     Signals.sma_50 := i_sma_50 r;
     Signals.sma_200 := i_sma_200 r;
     Signals.rsi_14 := i_rsi_14 r;
     Signals.macd := i_macd r;
     Signals.macd_signal := i_macd_signal r;
     Signals.bb_upper := i_bb_upper r;
     Signals.bb_middle := i_bb_middle r;
     Signals.bb_lower := i_bb_lower r;
     Signals.daily_return := i_daily_return r;
     Signals.volatility_30d := i_volatility_30d r;
     Signals.close := p_close (price r) |}.

Section WithBackend.

(** Rows of the fundamentals table; the pipeline only moves them. *)
Variable fundamentals_row : Type.

(** A row of the table technical_indicators: the columns selected at
    lines 131-133. *)
Record indicator_table_row : Type := {
  t_ticker : string;
  t_date : Z;
  t_sma_20 : fval;
  t_sma_50 : fval;
  t_sma_200 : fval;
  t_rsi_14 : fval;
  t_macd : fval;
  t_macd_signal : fval;
  t_bb_upper : fval;
  t_bb_middle : fval;
  t_bb_lower : fval;
  t_daily_return : fval;
  t_volatility_30d : fval
}.

(** [indicators_df[cols]]. *)
Definition select_cols (r : indicator_row) : indicator_table_row :=
  {| t_ticker := p_ticker (price r);
     t_date := p_date (price r);
     t_sma_20 := i_sma_20 r;
     t_sma_50 := i_sma_50 r;
     t_sma_200 := i_sma_200 r;
     t_rsi_14 := i_rsi_14 r;
     t_macd := i_macd r;
     t_macd_signal := i_macd_signal r;
     t_bb_upper := i_bb_upper r;
     t_bb_middle := i_bb_middle r;
     t_bb_lower := i_bb_lower r;
     t_daily_return := i_daily_return r;
     t_volatility_30d := i_volatility_30d r |}.

(** A DataFrame handed to [to_sql]. *)
Inductive frame : Type :=
| PriceFrame (rows : list price_row)
| FundamentalsFrame (rows : list fundamentals_row)
| IndicatorFrame (rows : list indicator_table_row)
| RiskFrame (rows : list Risk.risk_metrics)
| SignalFrame (rows : list Signals.signal).

(** One call of [df.to_sql(table_name, engine, if_exists=..)]. *)
Record write : Type := {
  w_table : string;
  w_mode : if_exists;
  w_frame : frame
}.

(** What the database layer does with a write: it succeeds, fails with an
    SQLAlchemyError, or fails with another exception. *)
Inductive backend_result : Type := SqlOk | SqlError | OtherFailure.

Variable to_sql : write -> backend_result.

(** database.py, lines 42-52.  The effect is the list of writes handed to
    the database so far; an SQLAlchemyError is caught and reported as
    [False], any other exception propagates. *)
Definition save_dataframe (df : frame) (table_name : string)
    (mode : if_exists) (log : list write) : list write * outcome bool :=
  let w := {| w_table := table_name; w_mode := mode; w_frame := df |} in
  match to_sql w with
  | SqlOk => (log ++ [w], Returned true)
  | SqlError => (log ++ [w], Returned false)
  | OtherFailure => (log ++ [w], Raised BackendError)
  end.



(** technical_indicators.py, line 118. *)
Definition prices_query : string :=
  "SELECT * FROM stock_prices ORDER BY ticker, date".

Variable read_signal_rows : string -> read_result Signals.row.
Variable read_price_rows : string -> read_result price_row.

(** trading_signals.py, lines 143-147: [all_signals.extend(signals)] for
    each ticker in order of first appearance. *)
Definition collect_signals (indicators_df : list Signals.row)
  : list Signals.signal :=
  fold_left
    (fun all_signals t =>
       all_signals ++ Signals.generate_signals_for_ticker t indicators_df)
    (unique (map Signals.ticker indicators_df)) [].


Variable sqrtQ : Q -> Q.

(** technical_indicators.py, lines 109-156.  The summary ranks the risk
    table by the column 'sharpe_ratio', which a frame built from no record
    does not have. *)
Definition run_indicators_pipeline (log : list write)
  : list write
    * outcome (option (list indicator_row) * option (list Risk.risk_metrics)) :=
  match query_to_df read_price_rows prices_query with
  | Raised e => (log, Raised e)
  | Returned None => (log, Returned (None, None))
  | Returned (Some []) => (log, Returned (None, None))
  | Returned (Some prices_df) =>
      match calculate_all_indicators sqrtQ prices_df with
      | None => (log, Raised ValueError)
      | Some indicators_df =>
          match save_dataframe (IndicatorFrame (map select_cols indicators_df))
                               "technical_indicators" Replace log with
          | (log, Raised e) => (log, Raised e)
          | (log, Returned _) =>
              let risk_df :=
                Risk.calculate_risk_metrics sqrtQ (risk_input indicators_df) in
              match save_dataframe (RiskFrame risk_df) "risk_metrics"
                                   Replace log with
              | (log, Raised e) => (log, Raised e)
              | (log, Returned _) =>
                  match risk_df with
                  | [] => (log, Raised (KeyError "sharpe_ratio"))
                  | _ => (log, Returned (Some indicators_df, Some risk_df))
                  end
              end
          end
      end
  end.

(** The two downloads of data_extractor.py: each returns a frame, or
    [None] when the provider has no data or fails. *)
Variable download_stock_prices : string -> option (list price_row).
Variable download_fundamentals : string -> option (list fundamentals_row).

(** data_extractor.py, lines 69-87: the frames that were downloaded, in
    ticker order. *)
Definition downloaded (A : Type) (download : string -> option (list A))
    (tickers : list string) : list (list A) :=
  fold_left
    (fun all t =>
       match download t with
       | Some df => all ++ [df]
       | None => all
       end)
    tickers [].

(** data_extractor.py, lines 69-104.  [prices_df] and [fundamentals_df]
    are bound only inside the two [if] statements, and both are read by
    the closing report. *)
Definition run_extraction (tickers : list string) (log : list write)
  : list write
    * outcome (list price_row * list fundamentals_row) :=
  let all_prices := downloaded download_stock_prices tickers in
  let all_fundamentals := downloaded download_fundamentals tickers in
  let after_prices :=
    match all_prices with
    | [] => (log, Returned None)
    | _ =>
        let prices_df := concat all_prices in
        match save_dataframe (PriceFrame prices_df) "stock_prices"
                             Replace log with
        | (log, Raised e) => (log, Raised e)
        | (log, Returned _) => (log, Returned (Some prices_df))
        end
    end in
  match after_prices with
  | (log, Raised e) => (log, Raised e)
  | (log, Returned prices_df) =>
      let after_fundamentals :=
        match all_fundamentals with
        | [] => (log, Returned None)
        | _ =>
            let fundamentals_df := concat all_fundamentals in
            match save_dataframe (FundamentalsFrame fundamentals_df)
                                 "stock_fundamentals" Replace log with
            | (log, Raised e) => (log, Raised e)
            | (log, Returned _) => (log, Returned (Some fundamentals_df))
            end
        end in
      match after_fundamentals with
      | (log, Raised e) => (log, Raised e)
      | (log, Returned fundamentals_df) =>
          match prices_df, fundamentals_df with
          | None, _ => (log, Raised (UnboundLocalError "prices_df"))
          | Some _, None => (log, Raised (UnboundLocalError "fundamentals_df"))
          | Some p, Some f => (log, Returned (p, f))
          end
      end
  end.

End WithBackend.

End Pipelines.

(* ================================================================== *)
(** ** Definitions used to state the properties *)

Module SignalSpec.
Import Signals.
Local Open Scope string_scope.

(** The rows the detector calls [latest] and [previous]. *)
Definition last_two (stock : list row) : option (row * row) :=
  match rev stock with
  | latest :: previous :: _ => Some (latest, previous)
  | _ => None
  end.

(** The rows of the frame that belong to the ticker. *)
Definition ticker_rows (t : string) (indicators_df : list row) : list row :=
  filter (fun r => String.eqb (ticker r) t) indicators_df.

(** The rule types whose condition holds, in table order. *)
Definition rule_types (latest previous : row) : list signal_type :=
  (if cond_golden_cross latest previous then [GOLDEN_CROSS] else [])
  ++ (if cond_death_cross latest previous then [DEATH_CROSS] else [])
  ++ (if cond_rsi_oversold latest then [RSI_OVERSOLD] else [])
  ++ (if cond_rsi_overbought latest then [RSI_OVERBOUGHT] else [])
  ++ (if cond_macd_bullish latest previous then [MACD_BULLISH] else [])
  ++ (if cond_macd_bearish latest previous then [MACD_BEARISH] else [])
  ++ (if cond_bb_oversold latest then [BB_OVERSOLD] else [])
  ++ (if cond_bb_overbought latest then [BB_OVERBOUGHT] else [])%list.

Definition no_rule_fires (latest previous : row) : bool :=
  negb (cond_golden_cross latest previous)
  && negb (cond_death_cross latest previous)
  && negb (cond_rsi_oversold latest)
  && negb (cond_rsi_overbought latest)
  && negb (cond_macd_bullish latest previous)
  && negb (cond_macd_bearish latest previous)
  && negb (cond_bb_oversold latest)
  && negb (cond_bb_overbought latest).

Definition is_neutral (ty : signal_type) : bool := signal_type_eqb ty NEUTRAL.

(** The condition attached to each signal type; NEUTRAL is not a rule. *)
Definition rule_cond (ty : signal_type) (latest previous : row) : bool :=
  match ty with
  | GOLDEN_CROSS => cond_golden_cross latest previous
  | DEATH_CROSS => cond_death_cross latest previous
  | RSI_OVERSOLD => cond_rsi_oversold latest
  | RSI_OVERBOUGHT => cond_rsi_overbought latest
  | MACD_BULLISH => cond_macd_bullish latest previous
  | MACD_BEARISH => cond_macd_bearish latest previous
  | BB_OVERSOLD => cond_bb_oversold latest
  | BB_OVERBOUGHT => cond_bb_overbought latest
  | NEUTRAL => false
  end.

(** The number of emitted signals that are not NEUTRAL. *)
Definition non_neutral_count (ts : list signal_type) : nat :=
  length (filter (fun ty => negb (is_neutral ty)) ts).

(** The description of each signal type, with the interpolated values
    rendered to [d_rsi] and [d_close] decimal places. *)
Definition template (d_rsi d_close : nat) (ty : signal_type) (latest : row)
  : string :=
  match ty with
  | GOLDEN_CROSS =>
      "SMA50 crossed above SMA200 - Strong bullish long-term signal"
  | DEATH_CROSS =>
      "SMA50 crossed below SMA200 - Strong bearish long-term signal"
  | RSI_OVERSOLD =>
      "RSI at " ++ format_fixed d_rsi (rsi_14 latest)
      ++ " - Stock potentially oversold, consider buying"
  | RSI_OVERBOUGHT =>
      "RSI at " ++ format_fixed d_rsi (rsi_14 latest)
      ++ " - Stock potentially overbought, consider selling"
  | MACD_BULLISH =>
      "MACD crossed above signal line - Bullish momentum building"
  | MACD_BEARISH =>
      "MACD crossed below signal line - Bearish momentum building"
  | BB_OVERSOLD =>
      "Price (" ++ format_fixed d_close (close latest)
      ++ ") below lower Bollinger Band - Potential bounce"
  | BB_OVERBOUGHT =>
      "Price (" ++ format_fixed d_close (close latest)
      ++ ") above upper Bollinger Band - Potential pullback"
  | NEUTRAL => "No significant technical signals detected"
  end.

(** The description as the specification words it: every interpolated
    value to one decimal place. *)
Definition spec_description : signal_type -> row -> string := template 1 1.

(** Sample rows. *)
Definition sample_row (d : Z) (s50 s200 rsi m ms up lo c : fval) : row :=
  {| ticker := "AAA"; date := d; sma_20 := NaN; sma_50 := s50;
     sma_200 := s200; rsi_14 := rsi; macd := m; macd_signal := ms;
     bb_upper := up; bb_middle := NaN; bb_lower := lo;
     daily_return := NaN; volatility_30d := NaN; close := c |}.

(** Two quiet bars: no rule condition holds on them. *)
Definition quiet_df : list row :=
  [ sample_row 1 (Fin 10) (Fin 9) (Fin 50) (Fin 1) (Fin 2) (Fin 110) (Fin 90) (Fin 100);
    sample_row 2 (Fin 10) (Fin 9) (Fin 50) (Fin 1) (Fin 2) (Fin 110) (Fin 90) (Fin 100) ].

(** The second bar closes at 100 under a lower band of 101, with an RSI of
    25.67, and its sma_50 moves above its sma_200. *)
Definition busy_df : list row :=
  [ sample_row 1 (Fin 9) (Fin 10) (Fin 50) (Fin 1) (Fin 2) (Fin 110) (Fin 90) (Fin 100);
    sample_row 2 (Fin 11) (Fin 10) (Fin (2567 # 100)) (Fin 1) (Fin 2) (Fin 110) (Fin 101) (Fin 100) ].

(** The record the detector emits for the Bollinger rule on [busy_df]. *)
Definition bb_sample_signal : signal :=
  {| sig_ticker := "AAA"; signal_date := 2;
     sig_type := BB_OVERSOLD; sig_strength := WEAK;
     description :=
       "Price (100.00) below lower Bollinger Band - Potential bounce" |}.

End SignalSpec.

(** Predicates on extended values. *)
Definition is_zero (x : fval) : bool :=
  match x with
  | Fin q => (Qnum q =? 0)%Z
  | _ => false
  end.

Definition is_finite (x : fval) : Prop :=
  match x with
  | Fin _ => True
  | _ => False
  end.

(** Missing or finite. *)
Definition not_infinite (x : fval) : Prop :=
  match x with
  | PInf | NInf => False
  | _ => True
  end.

(** Finite and non-negative, or plus infinity. *)
Definition nonneg (x : fval) : Prop :=
  match x with
  | Fin q => 0 <= q
  | PInf => True
  | _ => False
  end.

(** Not below zero: missing, or non-negative. *)
Definition not_neg (x : fval) : Prop :=
  match x with
  | NaN => True
  | _ => nonneg x
  end.

Module IndicatorSpec.
Import Indicators.

(** The value of line 37 at one position, from the two rolling means. *)
Definition rsi_of (g l : fval) : fval :=
  fsub (Fin 100) (fdiv (Fin 100) (fadd (Fin 1) (fdiv g l))).

(** C1 as the specification words it: wherever the rolling average loss is
    zero, rsi_14 is 100. *)
Definition saturates_as_specified (close : list fval) : Prop :=
  forall i, is_zero (nth i (loss close) NaN) = true ->
            nth i (col_rsi_14 (_add_indicators close)) NaN = Fin 100.

(** Fourteen bars at the same close. *)
Definition flat14 : list fval := repeat (Fin 100) 14.

(** Fifteen bars, each one above the previous. *)
Definition up15 : list fval := map (fun n => of_nat (100 + n)) (seq 0 15).

(** Thirteen bars at the same close and a fourteenth that is infinite. *)
Definition jump14 : list fval := repeat (Fin 100) 13 ++ [PInf].

(** Closes of a ticker with twenty-one bars. *)
Definition bars21 : list Q := map (fun n => inject_Z (Z.of_nat (100 + n))) (seq 0 21).

(** The same bars with the close of the sixth one missing. *)
Definition gap21 : list fval :=
  map Fin (firstn 5 bars21) ++ NaN :: map Fin (skipn 6 bars21).

(** C3 as the specification words it: the value at a row is defined
    exactly when at least [n] bars come before the row. *)
Definition sma_as_specified (n : nat) (close : list fval) : Prop :=
  forall i, (i < length close)%nat ->
            (nth i (sma n close) NaN <> NaN <-> (n <= i)%nat).

(** What holds of the column [col] of the [n]-bar average at row [i]: the
    value is finite exactly when the [n] bars ending at the row exist and
    have finite closes, and is missing otherwise. *)
Definition sma_defined_at (n : nat) (close col : list fval) (i : nat) : Prop :=
  (is_finite (nth i col NaN)
   <-> (n <= S i)%nat
       /\ forall k, (S i - n <= k)%nat -> (k <= i)%nat ->
                    is_finite (nth k close NaN))
  /\ (~ is_finite (nth i col NaN) -> nth i col NaN = NaN).

End IndicatorSpec.

Module RiskSpec.
Import Risk.

(** What one iteration of the loop contributes for a ticker. *)
Definition per_ticker (sqrtQ : Q -> Q) (df : list row) (t : string)
  : list risk_metrics :=
  let sr := stock_returns df t in
  if (length sr <? 30)%nat then [] else [risk_record sqrtQ t sr].

(** The records of the output that belong to a ticker. *)
Definition records_of (t : string) (out : list risk_metrics)
  : list risk_metrics :=
  filter (fun r => String.eqb (rm_ticker r) t) out.


(** C7 as the specification words it: a ticker of the output with some
    negative return has a 5% quantile that is at most zero. *)
Definition var95_as_specified (sqrtQ : Q -> Q) (df : list row) : Prop :=
  forall r, In r (calculate_risk_metrics sqrtQ df) ->
    let rets := stock_returns df (rm_ticker r) in
    (exists x, In x rets /\ fltb x (Fin 0) = true) ->
    fleb (calc_var_95 rets) (Fin 0) = true.

(** Number of returns that are at most zero. *)
Definition count_nonpos (qs : list Q) : nat :=
  length (filter (fun q => Qle_bool q 0) qs).

(** Position of the lower order statistic used by the 5% quantile of [n]
    observations. *)
Definition var_lo (n : nat) : nat :=
  Z.to_nat (Qfloor (inject_Z (Z.of_nat (n - 1)) * (5 # 100))).

(** A frame with one ticker: a missing first return followed by [rets]. *)
Definition frame_of (t : string) (rets : list fval) : list row :=
  map (fun r => {| ticker := t; daily_return := r |}) (NaN :: rets).

(** Thirty returns alternating +1% and +2%: none is negative. *)
Definition rising30 : list fval :=
  map Fin (flat_map (fun _ => [1 # 100; 2 # 100]) (seq 0 15)).


(** One loss of 2% followed by twenty-nine gains of 1%. *)
Definition one_loss30_q : list Q := (-2 # 100) :: repeat (1 # 100) 29.
Definition one_loss30 : list fval := map Fin one_loss30_q.

(** The pattern +1%, -2%, +3%, -1% repeated to 32 returns. *)
Definition pattern32_q : list Q :=
  flat_map (fun _ => [1 # 100; -2 # 100; 3 # 100; -1 # 100]) (seq 0 8).
Definition pattern32 : list fval := map Fin pattern32_q.

End RiskSpec.

Module SignalExtraSpec.
Import Signals.

(** The eight rule types in the order of the [if] statements. *)
Definition table_order : list signal_type :=
  [GOLDEN_CROSS; DEATH_CROSS; RSI_OVERSOLD; RSI_OVERBOUGHT;
   MACD_BULLISH; MACD_BEARISH; BB_OVERSOLD; BB_OVERBOUGHT].

(** The strength written in the record of each signal type. *)
Definition strength_of (ty : signal_type) : signal_strength :=
  match ty with
  | GOLDEN_CROSS | DEATH_CROSS => STRONG
  | RSI_OVERSOLD | RSI_OVERBOUGHT | MACD_BULLISH | MACD_BEARISH => MEDIUM
  | BB_OVERSOLD | BB_OVERBOUGHT => WEAK
  | NEUTRAL => NEUTRAL_STRENGTH
  end.

(** [busy_df] with an older bar in front of it. *)
Definition longer_busy_df : list row :=
  SignalSpec.sample_row 0 (Fin 5) (Fin 50) (Fin 90) (Fin 7) (Fin 2)
    (Fin 80) (Fin 70) (Fin 60)
  :: SignalSpec.busy_df.

End SignalExtraSpec.

Module RiskExtraSpec.

(** Finite and strictly positive. *)
Definition positive (x : fval) : Prop :=
  match x with
  | Fin q => 0 < q
  | _ => False
  end.


(** Number of returns at most [v], and number of returns below [v]. *)
Definition count_upto (v : Q) (qs : list Q) : nat :=
  length (filter (fun q => Qle_bool q v) qs).

Definition count_below (v : Q) (qs : list Q) : nat :=
  length (filter (fun q => Qltb q v) qs).

End RiskExtraSpec.

Module IndicatorsFullSpec.
Import IndicatorsFull.

(** A finite value between two bounds. *)
Definition between (lo hi : Q) (x : fval) : Prop :=
  match x with
  | Fin q => lo <= q /\ q <= hi
  | _ => False
  end.

(** Number of price rows of a ticker. *)
Definition bars_of (t : string) (df : list price_row) : nat :=
  length (filter (fun r => String.eqb (p_ticker r) t) df).

(** Prices that are finite and not zero. *)
Definition tradable (x : fval) : Prop :=
  match x with
  | Fin q => ~ q == 0
  | _ => False
  end.

Definition bar (t : string) (d : Z) (c : Q) : price_row :=
  {| p_ticker := t; p_date := d; p_open := Fin c; p_high := Fin c;
     p_low := Fin c; p_close := Fin c; p_volume := 0%Z;
     p_dividends := Fin 0; p_stock_splits := Fin 0 |}.

(** Thirty-one bars of one ticker, given latest first, closes 100 to 130. *)
Definition bars31 : list price_row :=
  map (fun n => bar "AAA" (Z.of_nat (31 - n)) (inject_Z (Z.of_nat (131 - n))))
      (seq 1 31).

(** The rows of the frames of the loop, one after the other: what
    [calculate_all_indicators] returns when it returns. *)
Definition all_rows (sqrtQ : Q -> Q) (df : list price_row)
  : list indicator_row :=
  concat (indicator_frames sqrtQ df).

(** Twenty-two closes alternating 100 and 102. *)
Definition zigzag22 : list Q :=
  flat_map (fun _ => [100; 102]) (seq 0 11).

End IndicatorsFullSpec.

Module PipelineSpec.
Import IndicatorsFull Pipelines.

Section Writes.
Variable fundamentals_row : Type.


(** The writes of the indicator and risk tables. *)
Definition indicators_write (indicators_df : list indicator_row)
  : write fundamentals_row :=
  {| w_table := "technical_indicators"; w_mode := Replace;
     w_frame := IndicatorFrame fundamentals_row
                  (map select_cols indicators_df) |}.

Definition risk_write (risk_df : list Risk.risk_metrics)
  : write fundamentals_row :=
  {| w_table := "risk_metrics"; w_mode := Replace;
     w_frame := RiskFrame fundamentals_row risk_df |}.

(** The writes of the two extracted tables. *)
Definition prices_write (prices_df : list price_row)
  : write fundamentals_row :=
  {| w_table := "stock_prices"; w_mode := Replace;
     w_frame := PriceFrame fundamentals_row prices_df |}.

Definition fundamentals_write (fundamentals_df : list fundamentals_row)
  : write fundamentals_row :=
  {| w_table := "stock_fundamentals"; w_mode := Replace;
     w_frame := FundamentalsFrame fundamentals_df |}.

End Writes.

(** The rows downloaded for a list of tickers: each ticker's frame in
    ticker order, a ticker without data contributing nothing. *)
Definition downloaded_rows (A : Type) (download : string -> option (list A))
    (tickers : list string) : list A :=
  flat_map (fun t => match download t with Some df => df | None => [] end)
           tickers.

(** A backend on which every write succeeds. *)
Definition always_ok (w : write unit) : backend_result := SqlOk.

(** A database in which every query returns the rows [df], and one on
    which reading fails with an exception that is not an
    SQLAlchemyError. *)
Definition reads (A : Type) (df : list A) (sql_query : string)
  : read_result A := ReadOk df.

Definition read_fails (A : Type) (sql_query : string) : read_result A :=
  ReadOtherFailure.

(** A provider that knows one ticker only. *)
Definition only_aaa (A : Type) (df : list A) (t : string) : option (list A) :=
  if String.eqb t "AAA" then Some df else None.

End PipelineSpec.

(* ================================================================== *)
(** ** Facts about the extended values *)

Lemma Qltb_lt (x y : Q) : Qltb x y = true <-> x < y.
Proof.
  unfold Qltb. rewrite Qlt_alt. destruct (x ?= y); split; congruence.
Qed.

Lemma Qltb_ge (x y : Q) : Qltb x y = false <-> y <= x.
Proof.
  unfold Qltb. rewrite Qle_alt, <- (Qcompare_antisym x y).
  destruct (x ?= y); simpl; split; congruence.
Qed.

Lemma Qle_bool_false (x y : Q) : Qle_bool x y = false <-> y < x.
Proof.
  split; intro H.
  - apply Qnot_le_lt. intro Hle. apply Qle_bool_iff in Hle. congruence.
  - destruct (Qle_bool x y) eqn:E; [|reflexivity].
    apply Qle_bool_iff in E. exfalso. eapply Qlt_not_le; eassumption.
Qed.

(** [a < b] and [b < a] never both hold. *)
Lemma fltb_asym (a b : fval) : fltb a b = true -> fltb b a = false.
Proof.
  destruct a, b; simpl; try congruence.
  intro H. apply Qltb_lt in H. apply Qltb_ge. apply Qlt_le_weak, H.
Qed.

(** [a < b] excludes [b <= a]. *)
Lemma fltb_not_fleb (a b : fval) : fltb a b = true -> fleb b a = false.
Proof.
  destruct a, b; simpl; try congruence.
  intro H. apply Qltb_lt in H. apply Qle_bool_false, H.
Qed.

Lemma fltb_trans (a b c : fval) :
  fltb a b = true -> fltb b c = true -> fltb a c = true.
Proof.
  destruct a, b, c; simpl; try congruence.
  rewrite !Qltb_lt. apply Qlt_trans.
Qed.

Lemma fltb_fleb_trans (a b c : fval) :
  fltb a b = true -> fleb b c = true -> fltb a c = true.
Proof.
  destruct a, b, c; simpl; try congruence.
  rewrite !Qltb_lt, Qle_bool_iff. apply Qlt_le_trans.
Qed.

(* ================================================================== *)
(** ** Facts about sorting and the last two rows *)

Section InsertionSort.
Context {A : Type} (leb : A -> A -> bool).

Lemma insert_sorted_length (x : A) (l : list A) :
  length (insert_sorted leb x l) = S (length l).
Proof.
  induction l as [|y r IH]; simpl; [reflexivity|].
  destruct (leb y x); simpl; congruence.
Qed.

Lemma isort_from_length (l acc : list A) :
  length (fold_left (fun acc x => insert_sorted leb x acc) l acc)
  = (length acc + length l)%nat.
Proof.
  revert acc. induction l as [|x r IH]; intro acc; simpl; [lia|].
  rewrite IH, insert_sorted_length. lia.
Qed.

Lemma isort_length (l : list A) : length (isort leb l) = length l.
Proof. unfold isort. rewrite isort_from_length. reflexivity. Qed.
End InsertionSort.


Section SortMap.
Context {A B : Type} (f : A -> B) (leb : A -> A -> bool) (leb' : B -> B -> bool).
Hypothesis leb_map : forall a b, leb' (f a) (f b) = leb a b.

Lemma insert_sorted_map (x : A) (l : list A) :
  insert_sorted leb' (f x) (map f l) = map f (insert_sorted leb x l).
Proof.
  induction l as [|y r IH]; simpl; [reflexivity|].
  rewrite leb_map. destruct (leb y x); simpl; [rewrite IH|]; reflexivity.
Qed.

Lemma isort_from_map (l acc : list A) :
  fold_left (fun acc x => insert_sorted leb' x acc) (map f l) (map f acc)
  = map f (fold_left (fun acc x => insert_sorted leb x acc) l acc).
Proof.
  revert acc. induction l as [|x r IH]; intro acc; simpl; [reflexivity|].
  rewrite insert_sorted_map. apply IH.
Qed.

Lemma isort_map (l : list A) : isort leb' (map f l) = map f (isort leb l).
Proof. apply (isort_from_map l []). Qed.
End SortMap.

(** *** Sorting rationals *)

Lemma insert_sorted_Forall (P : Q -> Prop) (x : Q) (l : list Q) :
  P x -> Forall P l -> Forall P (insert_sorted Qle_bool x l).
Proof.
  intros Hx H. induction H as [|y r Hy Hr IH]; simpl.
  - constructor; [exact Hx | constructor].
  - destruct (Qle_bool y x); repeat (constructor; auto).
Qed.

Lemma insert_sorted_sorted (x : Q) (l : list Q) :
  StronglySorted Qle l -> StronglySorted Qle (insert_sorted Qle_bool x l).
Proof.
  induction 1 as [|y r Hs IH Hy]; simpl.
  - constructor; constructor.
  - destruct (Qle_bool y x) eqn:E.
    + apply Qle_bool_iff in E. constructor; [exact IH|].
      apply insert_sorted_Forall; assumption.
    + apply Qle_bool_false in E. constructor.
      * constructor; assumption.
      * constructor; [apply Qlt_le_weak, E|].
        eapply Forall_impl; [|exact Hy].
        intros z Hz. eapply Qle_trans; [apply Qlt_le_weak, E | exact Hz].
Qed.

Lemma isort_from_sorted (l acc : list Q) :
  StronglySorted Qle acc ->
  StronglySorted Qle (fold_left (fun acc x => insert_sorted Qle_bool x acc) l acc).
Proof.
  revert acc. induction l as [|x r IH]; intros acc H; simpl; [exact H|].
  apply IH, insert_sorted_sorted, H.
Qed.

Lemma isort_sorted (l : list Q) : StronglySorted Qle (isort Qle_bool l).
Proof. apply isort_from_sorted. constructor. Qed.

Section SortMembers.
Context {A : Type} (leb : A -> A -> bool).

Lemma insert_sorted_in (x y : A) (l : list A) :
  In y (insert_sorted leb x l) <-> y = x \/ In y l.
Proof.
  induction l as [|z r IH]; simpl.
  - intuition congruence.
  - destruct (leb z x); simpl; rewrite ?IH; intuition congruence.
Qed.

Lemma isort_from_in (y : A) (l acc : list A) :
  In y (fold_left (fun acc x => insert_sorted leb x acc) l acc)
  <-> In y acc \/ In y l.
Proof.
  revert acc. induction l as [|x r IH]; intro acc; simpl.
  - tauto.
  - rewrite IH, insert_sorted_in. intuition congruence.
Qed.

Lemma isort_in (y : A) (l : list A) : In y (isort leb l) <-> In y l.
Proof. unfold isort. rewrite isort_from_in. simpl. tauto. Qed.

Lemma insert_sorted_perm (x : A) (l : list A) :
  Permutation (insert_sorted leb x l) (x :: l).
Proof.
  induction l as [|z r IH]; simpl; [apply Permutation_refl|].
  destruct (leb z x); [|apply Permutation_refl].
  apply perm_trans with (z :: x :: r); [|apply perm_swap].
  apply perm_skip, IH.
Qed.

Lemma isort_from_perm (l acc : list A) :
  Permutation (fold_left (fun acc x => insert_sorted leb x acc) l acc)
              (l ++ acc).
Proof.
  revert acc. induction l as [|x r IH]; intro acc; simpl;
    [apply Permutation_refl|].
  apply perm_trans with (r ++ insert_sorted leb x acc); [apply IH|].
  apply perm_trans with (r ++ x :: acc).
  - apply Permutation_app_head, insert_sorted_perm.
  - apply Permutation_sym, Permutation_middle.
Qed.

(** Sorting keeps every element with its number of occurrences. *)
Lemma isort_perm (l : list A) : Permutation (isort leb l) l.
Proof.
  unfold isort. apply perm_trans with (l ++ []); [apply isort_from_perm|].
  rewrite app_nil_r. apply Permutation_refl.
Qed.
End SortMembers.

Section SortByKey.
Context {A : Type} (key : A -> Z).

Local Abbreviation key_le := (fun a b : A => (key a <= key b)%Z).
Local Abbreviation key_leb := (fun a b : A => (key a <=? key b)%Z).

Lemma insert_key_sorted (x : A) (l : list A) :
  StronglySorted key_le l -> StronglySorted key_le (insert_sorted key_leb x l).
Proof.
  induction 1 as [|y r Hs IH Hy]; simpl.
  - constructor; constructor.
  - destruct (key y <=? key x)%Z eqn:E.
    + apply Z.leb_le in E. constructor; [exact IH|].
      apply Forall_forall. intros z Hz. apply insert_sorted_in in Hz.
      destruct Hz as [->|Hz]; [exact E|].
      rewrite Forall_forall in Hy. apply Hy, Hz.
    + apply Z.leb_gt in E. constructor.
      * constructor; assumption.
      * constructor; [lia|].
        eapply Forall_impl; [|exact Hy]. cbv beta. intros z Hz. lia.
Qed.

Lemma isort_from_key_sorted (l acc : list A) :
  StronglySorted key_le acc ->
  StronglySorted key_le
    (fold_left (fun acc x => insert_sorted key_leb x acc) l acc).
Proof.
  revert acc. induction l as [|x r IH]; intros acc H; simpl; [exact H|].
  apply IH, insert_key_sorted, H.
Qed.

Lemma isort_key_sorted (l : list A) : StronglySorted key_le (isort key_leb l).
Proof. apply isort_from_key_sorted. constructor. Qed.

(** The last element of an ascending list has the greatest key. *)
Lemma sorted_last_greatest (l : list A) (d x : A) :
  StronglySorted key_le l -> In x l -> (key x <= key (last l d))%Z.
Proof.
  induction 1 as [|a r Hs IH Ha]; intro Hx; [destruct Hx|].
  destruct r as [|b r'].
  - destruct Hx as [->|[]]. simpl. lia.
  - change (last (a :: b :: r') d) with (last (b :: r') d).
    destruct Hx as [->|Hx]; [|apply IH, Hx].
    rewrite Forall_forall in Ha. apply Ha.
    destruct (exists_last (l := b :: r')) as (l' & z & E); [discriminate|].
    rewrite E, last_last. apply in_or_app. right. left. reflexivity.
Qed.

Lemma isort_latest (l : list A) (z : A) (rest : list A) :
  rev (isort key_leb l) = z :: rest ->
  In z l /\ forall x, In x l -> (key x <= key z)%Z.
Proof.
  intro E.
  assert (El : isort key_leb l = rev rest ++ [z]).
  { rewrite <- (rev_involutive (isort key_leb l)), E. reflexivity. }
  split.
  - apply (isort_in key_leb). rewrite El. apply in_or_app. right. left. reflexivity.
  - intros x Hx. apply (isort_in key_leb) in Hx.
    pose proof (@sorted_last_greatest (isort key_leb l) z x (isort_key_sorted l) Hx) as H.
    rewrite El, last_last in H. exact H.
Qed.

Lemma sorted_app_last (front : list A) (z : A) :
  StronglySorted key_le (front ++ [z]) ->
  StronglySorted key_le front /\ forall x, In x front -> (key x <= key z)%Z.
Proof.
  induction front as [|a r IH]; intro H.
  - split; [constructor | intros x []].
  - cbn [app] in H. inversion H as [|? ? Hs Ha]; subst.
    destruct (IH Hs) as [IH1 IH2]. split.
    + constructor; [exact IH1|].
      apply Forall_forall. intros x Hx. rewrite Forall_forall in Ha.
      apply Ha, in_or_app. left. exact Hx.
    + intros x [<-|Hx]; [|apply IH2, Hx].
      rewrite Forall_forall in Ha. apply Ha, in_or_app. right. left.
      reflexivity.
Qed.

(** An ascending list of two elements or more ends with two elements
    whose keys are the greatest: no other element has a key above that of
    the last but one. *)
Lemma sorted_ends (s : list A) :
  StronglySorted key_le s -> (2 <= length s)%nat ->
  exists front p l,
    s = front ++ [p; l]
    /\ (key p <= key l)%Z
    /\ Forall (fun r => (key r <= key p)%Z) front.
Proof.
  intros Hs Hlen.
  destruct (exists_last (l := s)) as (s1 & a & E1);
    [intro E; rewrite E in Hlen; simpl in Hlen; lia|].
  subst s.
  destruct (exists_last (l := s1)) as (s2 & b & E2).
  { intro E. rewrite E in Hlen. simpl in Hlen. lia. }
  subst s1.
  destruct (sorted_app_last _ _ Hs) as [Hs1 Ha].
  destruct (sorted_app_last _ _ Hs1) as [_ Hb].
  exists s2, b, a. split; [rewrite <- app_assoc; reflexivity|]. split.
  - apply Ha, in_or_app. right. left. reflexivity.
  - apply Forall_forall. exact Hb.
Qed.

(** An ascending list made of [l], of [p] with a smaller key, and of
    elements with keys smaller than that of [p], ends with [p] and [l]. *)
Lemma sorted_last_two (s older : list A) (l p : A) :
  StronglySorted key_le s ->
  Permutation s (l :: p :: older) ->
  (key p < key l)%Z ->
  Forall (fun r => (key r < key p)%Z) older ->
  exists front, s = front ++ [p; l].
Proof.
  intros Hs Hp Hpl Hold. rewrite Forall_forall in Hold.
  assert (Hlen : length s = S (S (length older))).
  { rewrite (Permutation_length Hp). reflexivity. }
  destruct (exists_last (l := s)) as (s1 & a & E1);
    [intro E; rewrite E in Hlen; discriminate|].
  subst s.
  destruct (exists_last (l := s1)) as (s2 & b & E2).
  { intro E. rewrite E in Hlen. discriminate. }
  subst s1.
  destruct (sorted_app_last _ _ Hs) as [Hs1 Ha].
  destruct (sorted_app_last _ _ Hs1) as [_ Hb].
  assert (Ea : a = l).
  { assert (Hin : In a (l :: p :: older)).
    { apply (Permutation_in _ Hp), in_or_app. right. left. reflexivity. }
    assert (Hl : In l ((s2 ++ [b]) ++ [a]))
      by (apply (Permutation_in _ (Permutation_sym Hp)); left; reflexivity).
    assert (Hla : (key l <= key a)%Z).
    { apply in_app_or in Hl. destruct Hl as [Hl|[<-|[]]]; [apply Ha, Hl | lia]. }
    destruct Hin as [<-|[<-|Hin]]; [reflexivity | lia |].
    specialize (Hold _ Hin). lia. }
  subst a.
  assert (Hp' : Permutation (s2 ++ [b]) (p :: older)).
  { apply (Permutation_cons_inv (a := l)).
    apply perm_trans with ((s2 ++ [b]) ++ [l]); [|exact Hp].
    apply Permutation_cons_append. }
  assert (Eb : b = p).
  { assert (Hin : In b (p :: older)).
    { apply (Permutation_in _ Hp'), in_or_app. right. left. reflexivity. }
    assert (Hpin : In p (s2 ++ [b]))
      by (apply (Permutation_in _ (Permutation_sym Hp')); left; reflexivity).
    assert (Hpb : (key p <= key b)%Z).
    { apply in_app_or in Hpin.
      destruct Hpin as [Hpin|[<-|[]]]; [apply Hb, Hpin | lia]. }
    destruct Hin as [<-|Hin]; [reflexivity|].
    specialize (Hold _ Hin). lia. }
  subst b. exists s2. rewrite <- app_assoc. reflexivity.
Qed.
End SortByKey.

Module SignalFacts.
Import Signals SignalSpec.

(** The rows the detector reads are two most recent rows of the ticker by
    date: the rows of a ticker that has two or more are, up to their order
    in the frame, the row taken as latest, the row taken as previous, not
    dated after it, and rows none of which is dated after the previous
    one. *)
Lemma latest_two_split (t : string) (df : list row) :
  (2 <= length (ticker_rows t df))%nat ->
  exists l p older,
    last_two (stock_rows t df) = Some (l, p)
    /\ Permutation (ticker_rows t df) (l :: p :: older)
    /\ (date p <= date l)%Z
    /\ Forall (fun r => (date r <= date p)%Z) older.
Proof.
  intro Hlen.
  assert (Hs : StronglySorted (fun a b => (date a <= date b)%Z)
                              (stock_rows t df))
    by apply (isort_key_sorted date).
  assert (Hl : (2 <= length (stock_rows t df))%nat).
  { unfold stock_rows. rewrite isort_length. exact Hlen. }
  destruct (sorted_ends date Hs Hl) as (front & p & l & E & Hpl & Hf).
  exists l, p, front. split; [|split; [|split]].
  - unfold last_two. rewrite E, rev_app_distr. reflexivity.
  - apply perm_trans with (stock_rows t df);
      [apply Permutation_sym, isort_perm|].
    rewrite E. apply Permutation_sym.
    apply perm_trans with (l :: front ++ [p]).
    + apply perm_skip, Permutation_cons_append.
    + change (front ++ [p; l]) with (front ++ [p] ++ [l]).
      rewrite app_assoc. apply Permutation_cons_append.
  - exact Hpl.
  - exact Hf.
Qed.

(** The two ways of splitting a list of two rows. *)
Lemma two_rows_split (a b l p : row) (older : list row) :
  Permutation [a; b] (l :: p :: older) ->
  (l = a /\ p = b) \/ (l = b /\ p = a).
Proof.
  intro Hp. apply Permutation_length_2_inv in Hp.
  destruct Hp as [Hp|Hp]; injection Hp as -> -> _;
    [left | right]; split; reflexivity.
Qed.

(** With distinct dates at the end the two rows are determined: when the
    rows of the ticker are, in whatever order the frame has them, a row
    [l], a row [p] dated before it and rows dated before [p], the detector
    takes [l] as latest and [p] as previous. *)
Lemma chronological_last_two
      (t : string) (df : list row) (l p : row) (older : list row) :
  Permutation (ticker_rows t df) (l :: p :: older) ->
  (date p < date l)%Z ->
  Forall (fun r => (date r < date p)%Z) older ->
  last_two (stock_rows t df) = Some (l, p).
Proof.
  intros Hp Hpl Hold.
  assert (Hs : StronglySorted (fun a b => (date a <= date b)%Z)
                              (stock_rows t df))
    by apply (isort_key_sorted date).
  assert (Hp' : Permutation (stock_rows t df) (l :: p :: older)).
  { apply perm_trans with (ticker_rows t df); [|exact Hp].
    apply isort_perm. }
  destruct (sorted_last_two date Hs Hp' Hpl Hold) as (front & E).
  unfold last_two. rewrite E, rev_app_distr. reflexivity.
Qed.

Lemma stock_rows_length (t : string) (df : list row) :
  length (stock_rows t df) = length (ticker_rows t df).
Proof. unfold stock_rows. apply isort_length. Qed.

Lemma last_two_length (stock : list row) (l p : row) :
  last_two stock = Some (l, p) -> (2 <= length stock)%nat.
Proof.
  unfold last_two. intro H. rewrite <- length_rev.
  destruct (rev stock) as [|a [|b r]]; try discriminate. simpl. lia.
Qed.

Lemma last_two_exists (stock : list row) :
  (2 <= length stock)%nat -> exists l p, last_two stock = Some (l, p).
Proof.
  unfold last_two. rewrite <- length_rev.
  destruct (rev stock) as [|a [|b r]]; simpl; intro H; try lia.
  exists a, b. reflexivity.
Qed.

Lemma generate_short (t : string) (df : list row) :
  (length (ticker_rows t df) < 2)%nat -> generate_signals_for_ticker t df = [].
Proof.
  intro H. unfold generate_signals_for_ticker.
  rewrite stock_rows_length.
  apply Nat.ltb_lt in H. rewrite H. reflexivity.
Qed.

Lemma generate_detect (t : string) (df : list row) (l p : row) :
  last_two (stock_rows t df) = Some (l, p) ->
  generate_signals_for_ticker t df = detect t l p.
Proof.
  intro H. pose proof (last_two_length _ H) as Hlen.
  unfold generate_signals_for_ticker.
  apply Nat.ltb_ge in Hlen. rewrite Hlen.
  unfold last_two in H.
  destruct (rev (stock_rows t df)) as [|a [|b r]]; try discriminate.
  injection H as -> ->. reflexivity.
Qed.

(** Either the ticker has fewer than two rows and nothing is emitted, or
    the detector runs on its last two rows. *)
Lemma generate_cases (t : string) (df : list row) :
  ((length (ticker_rows t df) < 2)%nat /\ generate_signals_for_ticker t df = [])
  \/ (exists l p, last_two (stock_rows t df) = Some (l, p)
                  /\ generate_signals_for_ticker t df = detect t l p).
Proof.
  destruct (Nat.lt_ge_cases (length (ticker_rows t df)) 2) as [H|H].
  - left. split; [exact H | apply generate_short, H].
  - right. rewrite <- stock_rows_length in H.
    destruct (last_two_exists _ H) as (l & p & E).
    exists l, p. split; [exact E | apply generate_detect, E].
Qed.

(** The types emitted are the types of the rules whose condition holds, or
    the single NEUTRAL when there is none. *)
Lemma map_append_if (c : bool) (x : signal) (l : list signal) :
  map sig_type (append_if c x l)
  = map sig_type l ++ (if c then [sig_type x] else []).
Proof.
  unfold append_if. destruct c; [|symmetry; apply app_nil_r].
  apply map_app.
Qed.

Lemma map_or_default (n : signal) (l : list signal) :
  map sig_type (match l with [] => [n] | _ => l end)
  = match map sig_type l with [] => [sig_type n] | ts => ts end.
Proof. destruct l; reflexivity. Qed.

Lemma detect_types (t : string) (l p : row) :
  map sig_type (detect t l p)
  = match rule_types l p with
    | [] => [NEUTRAL]
    | ts => ts
    end.
Proof.
  cbv beta zeta delta [detect].
  rewrite map_or_default, !map_append_if. cbn [map sig_type app].
  unfold rule_types. rewrite <- !app_assoc. reflexivity.
Qed.

Lemma in_append_if (c : bool) (x s : signal) (l : list signal) :
  In s (append_if c x l) -> In s l \/ (c = true /\ s = x).
Proof.
  unfold append_if. destruct c; [|auto].
  intro H. apply in_app_or in H. destruct H as [H|[H|[]]]; auto.
Qed.

Lemma in_or_default (n s : signal) (l : list signal) :
  In s (match l with [] => [n] | _ => l end) -> (l = [] /\ s = n) \/ In s l.
Proof.
  destruct l; simpl; intuition auto.
Qed.

(** Every emitted record carries the ticker, the date of the latest row and
    the description coded for its type. *)
Lemma detect_records (t : string) (l p : row) (s : signal) :
  In s (detect t l p) ->
  sig_ticker s = t /\ signal_date s = date l
  /\ description s = template 1 2 (sig_type s) l.
Proof.
  cbv beta zeta delta [detect]. intro H.
  apply in_or_default in H. destruct H as [[_ ->]|H]; [simpl; auto|].
  repeat (apply in_append_if in H; destruct H as [H|[_ ->]]; [|simpl; auto]).
  destruct H.
Qed.

Lemma in_singleton_if (c : bool) (x ty : signal_type) :
  In ty (if c then [x] else []) <-> c = true /\ ty = x.
Proof.
  destruct c; simpl; intuition congruence.
Qed.

Lemma in_rule_types (ty : signal_type) (l p : row) :
  In ty (rule_types l p) <-> rule_cond ty l p = true.
Proof.
  unfold rule_types. rewrite !in_app_iff, !in_singleton_if.
  destruct ty; simpl; intuition congruence.
Qed.

(** A rule fires exactly when its condition holds on the last two rows. *)
Lemma fired_iff (t : string) (df : list row) (l p : row) (ty : signal_type) :
  last_two (stock_rows t df) = Some (l, p) ->
  ty <> NEUTRAL ->
  (In ty (fired t df) <-> rule_cond ty l p = true).
Proof.
  intros E Hty. unfold fired.
  rewrite (generate_detect _ _ E), detect_types, <- in_rule_types.
  destruct (rule_types l p) as [|x r]; [|reflexivity].
  simpl. intuition congruence.
Qed.

(** NEUTRAL is emitted only alone. *)
Lemma fired_neutral_alone (t : string) (df : list row) :
  In NEUTRAL (fired t df) -> fired t df = [NEUTRAL].
Proof.
  unfold fired.
  destruct (generate_cases t df) as [[_ ->]|(l & p & _ & ->)]; [intros []|].
  rewrite detect_types.
  destruct (rule_types l p) as [|x r] eqn:E; [reflexivity|].
  rewrite <- E. intro H. apply in_rule_types in H. discriminate.
Qed.

Lemma golden_excludes_death (l p : row) :
  cond_golden_cross l p && cond_death_cross l p = false.
Proof.
  unfold cond_golden_cross, cond_death_cross, fgtb.
  destruct (fltb (sma_200 l) (sma_50 l)) eqn:E; [|reflexivity].
  rewrite (fltb_asym _ _ E). simpl. apply andb_false_r.
Qed.

Lemma oversold_excludes_overbought (l : row) :
  cond_rsi_oversold l && cond_rsi_overbought l = false.
Proof.
  unfold cond_rsi_oversold, cond_rsi_overbought, fgtb.
  destruct (fltb (rsi_14 l) (Fin 30)) eqn:E1;
    destruct (fltb (Fin 70) (rsi_14 l)) eqn:E2;
    rewrite ?andb_false_r; try reflexivity.
  pose proof (fltb_trans _ _ _ E2 E1) as H. discriminate H.
Qed.

Lemma bullish_excludes_bearish (l p : row) :
  cond_macd_bullish l p && cond_macd_bearish l p = false.
Proof.
  unfold cond_macd_bullish, cond_macd_bearish, fgtb.
  destruct (fltb (macd_signal l) (macd l)) eqn:E;
    [|rewrite !andb_false_r; reflexivity].
  rewrite (fltb_asym _ _ E). rewrite !andb_false_r. reflexivity.
Qed.

Lemma bb_oversold_excludes_overbought (l : row) :
  fleb (bb_lower l) (bb_upper l) = true ->
  cond_bb_oversold l && cond_bb_overbought l = false.
Proof.
  intro Hle. unfold cond_bb_oversold, cond_bb_overbought, fgtb.
  destruct (fltb (close l) (bb_lower l)) eqn:E;
    [|rewrite !andb_false_r; reflexivity].
  pose proof (fltb_fleb_trans _ _ _ E Hle) as H.
  rewrite (fltb_asym _ _ H). rewrite !andb_false_r. reflexivity.
Qed.

Lemma rule_types_count (l p : row) :
  fleb (bb_lower l) (bb_upper l) = true ->
  (length (rule_types l p) <= 4)%nat.
Proof.
  intro Hle.
  pose proof (golden_excludes_death l p) as H1.
  pose proof (oversold_excludes_overbought l) as H2.
  pose proof (bullish_excludes_bearish l p) as H3.
  pose proof (bb_oversold_excludes_overbought l Hle) as H4.
  unfold rule_types.
  destruct (cond_golden_cross l p), (cond_death_cross l p); try discriminate;
    destruct (cond_rsi_oversold l), (cond_rsi_overbought l); try discriminate;
    destruct (cond_macd_bullish l p), (cond_macd_bearish l p); try discriminate;
    destruct (cond_bb_oversold l), (cond_bb_overbought l); try discriminate;
    simpl; lia.
Qed.

Lemma string_length_append (a b : string) :
  String.length (a ++ b) = (String.length a + String.length b)%nat.
Proof.
  induction a as [|c a IH]; simpl; [reflexivity|]. rewrite IH. reflexivity.
Qed.

Lemma string_append_assoc (a b c : string) :
  ((a ++ b) ++ c = a ++ (b ++ c))%string.
Proof.
  induction a as [|x a IH]; simpl; [reflexivity|]. rewrite IH. reflexivity.
Qed.

Lemma digits_fixed_length (d : nat) (n : Z) :
  String.length (digits_fixed d n) = d.
Proof.
  revert n. induction d as [|d IH]; intro n; simpl; [reflexivity|].
  rewrite string_length_append, IH. simpl. lia.
Qed.

(** A finite value formatted with [d > 0] places is a sign and an integer
    part, the point, and exactly [d] characters. *)
Lemma format_fixed_places (d : nat) (q : Q) :
  exists ip fp,
    format_fixed (S d) (Fin q) = (ip ++ "." ++ fp)%string
    /\ String.length fp = S d.
Proof.
  unfold format_fixed.
  set (scaled := round_half_even _).
  exists ((if Qltb q 0 then "-" else "")
          ++ string_of_natural (scaled / pow10 (S d)))%string,
         (digits_fixed (S d) (scaled mod pow10 (S d))).
  split; [|apply digits_fixed_length].
  rewrite string_append_assoc. reflexivity.
Qed.

End SignalFacts.

(* ================================================================== *)
(** ** Properties of the signal detector *)

Module SignalClaims.
Import Signals SignalSpec SignalFacts.

(** C5. A ticker with fewer than two indicator rows gets no signal record.
    A ticker with at least two rows has a latest and a previous row, and
    when none of the eight rule conditions holds on them the detector emits
    exactly one record, of type NEUTRAL and strength NEUTRAL. *)
Theorem C5_neutral_default (t : string) (df : list row) :
  ((length (ticker_rows t df) < 2)%nat ->
   generate_signals_for_ticker t df = [])
  /\ ((2 <= length (ticker_rows t df))%nat ->
      exists latest previous,
        last_two (stock_rows t df) = Some (latest, previous)
        /\ (no_rule_fires latest previous = true ->
            exists s,
              generate_signals_for_ticker t df = [s]
              /\ sig_type s = NEUTRAL
              /\ sig_strength s = NEUTRAL_STRENGTH)).
Proof.
  split; [apply generate_short|].
  intro Hlen. rewrite <- stock_rows_length in Hlen.
  destruct (last_two_exists _ Hlen) as (l & p & E).
  exists l, p. split; [exact E|].
  intro Hn. rewrite (generate_detect _ _ E).
  unfold no_rule_fires in Hn.
  repeat (apply andb_true_iff in Hn; destruct Hn as [Hn ?]).
  repeat match goal with
         | H : negb _ = true |- _ => apply negb_true_iff in H
         end.
  cbv beta zeta delta [detect append_if].
  repeat match goal with
         | H : _ = false |- _ => rewrite H; clear H
         end.
  eexists. repeat split.
Qed.

Lemma C5_neutral_default_witness :
  generate_signals_for_ticker "AAA" (firstn 1 quiet_df) = []
  /\ exists s,
       generate_signals_for_ticker "AAA" quiet_df = [s]
       /\ sig_type s = NEUTRAL
       /\ sig_strength s = NEUTRAL_STRENGTH.
Proof.
  split.
  - apply (proj1 (C5_neutral_default "AAA" (firstn 1 quiet_df))).
    simpl. lia.
  - destruct (proj2 (C5_neutral_default "AAA" quiet_df))
      as (l & p & E & Hn); [simpl; lia|].
    apply Hn. vm_compute in E. injection E as <- <-. reflexivity.
Defined.

(** C6. The rows of a ticker with at least two rows are, in whatever order
    the frame has them, a latest row, a previous row that is not dated
    after it, and older rows none of which is dated after the previous one
    (the two most recent rows by date, which distinct dates determine),
    such that GOLDEN_CROSS is emitted iff sma_50 > sma_200 on the latest
    row and sma_50 <= sma_200 on the previous one, and DEATH_CROSS iff
    sma_50 < sma_200 on the latest row and sma_50 >= sma_200 on the
    previous one.  Hence GOLDEN_CROSS is not emitted when sma_50 > sma_200
    already held on the previous row, nor DEATH_CROSS when
    sma_50 < sma_200 already held there. *)
Theorem C6_cross_rules (t : string) (df : list row) :
  (2 <= length (ticker_rows t df))%nat ->
  exists latest previous older,
    Permutation (ticker_rows t df) (latest :: previous :: older)
    /\ (date previous <= date latest)%Z
    /\ Forall (fun r => (date r <= date previous)%Z) older
    /\ (In GOLDEN_CROSS (fired t df) <->
        fgtb (sma_50 latest) (sma_200 latest) = true
        /\ fleb (sma_50 previous) (sma_200 previous) = true)
    /\ (In DEATH_CROSS (fired t df) <->
        fltb (sma_50 latest) (sma_200 latest) = true
        /\ fgeb (sma_50 previous) (sma_200 previous) = true)
    /\ (fgtb (sma_50 previous) (sma_200 previous) = true ->
        ~ In GOLDEN_CROSS (fired t df))
    /\ (fltb (sma_50 previous) (sma_200 previous) = true ->
        ~ In DEATH_CROSS (fired t df)).
Proof.
  intro Hlen.
  destruct (latest_two_split t df Hlen) as (l & p & older & E & Hp & Hd & Ho).
  exists l, p, older.
  split; [exact Hp|]. split; [exact Hd|]. split; [exact Ho|].
  assert (HG : In GOLDEN_CROSS (fired t df) <->
               fgtb (sma_50 l) (sma_200 l) = true
               /\ fleb (sma_50 p) (sma_200 p) = true).
  { rewrite (fired_iff _ _ E) by discriminate. simpl.
    unfold cond_golden_cross. apply andb_true_iff. }
  assert (HD : In DEATH_CROSS (fired t df) <->
               fltb (sma_50 l) (sma_200 l) = true
               /\ fgeb (sma_50 p) (sma_200 p) = true).
  { rewrite (fired_iff _ _ E) by discriminate. simpl.
    unfold cond_death_cross. apply andb_true_iff. }
  split; [exact HG|]. split; [exact HD|]. split.
  - intros Hprev Hin. apply HG in Hin. destruct Hin as [_ Hle].
    unfold fgtb in Hprev. apply fltb_not_fleb in Hprev. congruence.
  - intros Hprev Hin. apply HD in Hin. destruct Hin as [_ Hge].
    unfold fgeb in Hge. apply fltb_not_fleb in Hprev. congruence.
Qed.

Lemma C6_cross_rules_witness :
  In GOLDEN_CROSS (fired "AAA" (rev busy_df))
  /\ ~ In DEATH_CROSS (fired "AAA" (rev busy_df))
  /\ ~ In GOLDEN_CROSS (fired "AAA" quiet_df).
Proof.
  destruct (C6_cross_rules "AAA" (rev busy_df))
    as (l & p & older & Hp & Hd & _ & HG & _ & _ & HD); [simpl; lia|].
  destruct (C6_cross_rules "AAA" quiet_df)
    as (l' & p' & older' & Hp' & Hd' & _ & _ & _ & HG' & _); [simpl; lia|].
  apply two_rows_split in Hp. apply two_rows_split in Hp'.
  destruct Hp as [(-> & ->)|(-> & ->)]; [|cbn in Hd; lia].
  destruct Hp' as [(-> & ->)|(-> & ->)]; [cbn in Hd'; lia|].
  split; [|split].
  - apply HG. split; reflexivity.
  - apply HD. reflexivity.
  - apply HG'. reflexivity.
Defined.

(** C8 (as stated): the description of a BB_OVERSOLD record is not the
    template with the close rendered to one decimal place. *)
Lemma C8_one_decimal_counterexample :
  ~ (forall s latest previous,
        In s (generate_signals_for_ticker "AAA" busy_df) ->
        last_two (stock_rows "AAA" busy_df) = Some (latest, previous) ->
        description s = spec_description (sig_type s) latest).
Proof.
  intro H.
  specialize (H {| sig_ticker := "AAA"; signal_date := 2;
                   sig_type := BB_OVERSOLD; sig_strength := WEAK;
                   description :=
                     "Price (100.00) below lower Bollinger Band - Potential bounce" |}
                (nth 1 busy_df (sample_row 0 NaN NaN NaN NaN NaN NaN NaN NaN))
                (nth 0 busy_df (sample_row 0 NaN NaN NaN NaN NaN NaN NaN NaN))).
  vm_compute in H.
  assert (E : "Price (100.00) below lower Bollinger Band - Potential bounce"%string
              = "Price (100.0) below lower Bollinger Band - Potential bounce"%string).
  { apply H; [|reflexivity]. right. right. left. reflexivity. }
  discriminate E.
Qed.

(** C8 (amended). Every emitted record carries the fixed description of its
    signal type, built from the latest row: the RSI rules interpolate the
    RSI rendered to one decimal place, the Bollinger rules interpolate the
    close rendered to two decimal places, and the other descriptions are
    constant.  A finite value rendered to one (two) places is an integer
    part, a point and exactly one (two) characters. *)
Theorem C8_descriptions (t : string) (df : list row) (s : signal) :
  In s (generate_signals_for_ticker t df) ->
  (exists latest previous,
     last_two (stock_rows t df) = Some (latest, previous)
     /\ description s = template 1 2 (sig_type s) latest)
  /\ (forall q, exists ip fp,
        format_fixed 1 (Fin q) = (ip ++ "." ++ fp)%string
        /\ String.length fp = 1%nat)
  /\ (forall q, exists ip fp,
        format_fixed 2 (Fin q) = (ip ++ "." ++ fp)%string
        /\ String.length fp = 2%nat).
Proof.
  intro Hin. split; [|split; intro q; apply format_fixed_places].
  destruct (generate_cases t df) as [[_ E]|(l & p & E & Hd)].
  - rewrite E in Hin. destruct Hin.
  - exists l, p. split; [exact E|].
    rewrite Hd in Hin. apply (detect_records _ _ _ _ Hin).
Qed.

Lemma C8_descriptions_witness :
  exists latest previous,
    last_two (stock_rows "AAA" busy_df) = Some (latest, previous)
    /\ description bb_sample_signal
       = template 1 2 (sig_type bb_sample_signal) latest.
Proof.
  apply (proj1 (C8_descriptions "AAA" busy_df bb_sample_signal
                  (or_intror (or_intror (or_introl eq_refl))))).
Defined.

(** C9. Within one run and for one ticker, GOLDEN_CROSS and DEATH_CROSS are
    never both emitted, nor RSI_OVERSOLD and RSI_OVERBOUGHT, nor
    MACD_BULLISH and MACD_BEARISH; when bb_lower <= bb_upper on the latest
    row, BB_OVERSOLD and BB_OVERBOUGHT are never both emitted and at most
    four signals other than NEUTRAL are emitted; and whenever NEUTRAL is
    emitted it is the only signal. *)
Theorem C9_opposing_rules (t : string) (df : list row) :
  ~ (In GOLDEN_CROSS (fired t df) /\ In DEATH_CROSS (fired t df))
  /\ ~ (In RSI_OVERSOLD (fired t df) /\ In RSI_OVERBOUGHT (fired t df))
  /\ ~ (In MACD_BULLISH (fired t df) /\ In MACD_BEARISH (fired t df))
  /\ (forall latest previous,
         last_two (stock_rows t df) = Some (latest, previous) ->
         fleb (bb_lower latest) (bb_upper latest) = true ->
         ~ (In BB_OVERSOLD (fired t df) /\ In BB_OVERBOUGHT (fired t df))
         /\ (non_neutral_count (fired t df) <= 4)%nat)
  /\ (In NEUTRAL (fired t df) -> fired t df = [NEUTRAL]).
Proof.
  assert (pair_excl : forall a b,
             a <> NEUTRAL -> b <> NEUTRAL ->
             (forall l p, rule_cond a l p && rule_cond b l p = false) ->
             ~ (In a (fired t df) /\ In b (fired t df))).
  { intros a b Ha Hb Hex [Hia Hib].
    destruct (generate_cases t df) as [[_ E]|(l & p & E & _)].
    - unfold fired in Hia. rewrite E in Hia. destruct Hia.
    - apply (fired_iff _ _ E Ha) in Hia. apply (fired_iff _ _ E Hb) in Hib.
      specialize (Hex l p). rewrite Hia, Hib in Hex. discriminate Hex. }
  split; [|split; [|split; [|split]]].
  - apply pair_excl; try discriminate. intros l p. apply golden_excludes_death.
  - apply pair_excl; try discriminate.
    intros l p. apply oversold_excludes_overbought.
  - apply pair_excl; try discriminate. intros l p. apply bullish_excludes_bearish.
  - intros l p E Hle. split.
    + intros [Hia Hib].
      apply (fired_iff _ _ E) in Hia; [|discriminate].
      apply (fired_iff _ _ E) in Hib; [|discriminate].
      pose proof (bb_oversold_excludes_overbought l Hle) as Hex.
      simpl in Hia, Hib. rewrite Hia, Hib in Hex. discriminate Hex.
    + unfold non_neutral_count, fired.
      rewrite (generate_detect _ _ E), detect_types.
      pose proof (rule_types_count l p Hle) as Hc.
      destruct (rule_types l p) as [|x r]; [simpl; lia|].
      etransitivity; [apply filter_length_le | exact Hc].
  - apply fired_neutral_alone.
Qed.

Lemma C9_opposing_rules_witness :
  ~ (In BB_OVERSOLD (fired "AAA" busy_df)
     /\ In BB_OVERBOUGHT (fired "AAA" busy_df))
  /\ (non_neutral_count (fired "AAA" busy_df) <= 4)%nat.
Proof.
  destruct (C9_opposing_rules "AAA" busy_df) as (_ & _ & _ & H & _).
  apply (H (nth 1 busy_df (sample_row 0 NaN NaN NaN NaN NaN NaN NaN NaN))
           (nth 0 busy_df (sample_row 0 NaN NaN NaN NaN NaN NaN NaN NaN)));
    reflexivity.
Defined.

End SignalClaims.

(* ================================================================== *)
(** ** Facts about the risk engine *)

Module RiskFacts.
Import Risk RiskSpec.

Lemma seen_iff (x : string) (seen : list string) :
  existsb (String.eqb x) seen = true <-> In x seen.
Proof.
  rewrite existsb_exists. split.
  - intros (y & Hy & E). apply String.eqb_eq in E. subst y. exact Hy.
  - intro H. exists x. split; [exact H | apply String.eqb_refl].
Qed.

Lemma unique_from_in (l seen : list string) (x : string) :
  In x (unique_from seen l) <-> In x l /\ ~ In x seen.
Proof.
  revert seen. induction l as [|y r IH]; intro seen; simpl.
  - tauto.
  - destruct (existsb (String.eqb y) seen) eqn:E.
    + apply seen_iff in E. rewrite IH. split.
      * tauto.
      * intros [[->|H] Hn]; [contradiction | tauto].
    + assert (Hy : ~ In y seen).
      { intro H. apply seen_iff in H. congruence. }
      simpl. rewrite IH. simpl. split.
      * intros [->|[H Hn]]; [tauto|]. split; [tauto|]. intro Hs. apply Hn. tauto.
      * intros [[->|H] Hn]; [tauto|].
        destruct (string_dec y x) as [->|Hne]; [tauto|].
        right. split; [exact H|]. intros [->|Hs]; tauto.
Qed.

Lemma unique_from_nodup (l seen : list string) : NoDup (unique_from seen l).
Proof.
  revert seen. induction l as [|y r IH]; intro seen; simpl.
  - constructor.
  - destruct (existsb (String.eqb y) seen); [apply IH|].
    constructor; [|apply IH].
    rewrite unique_from_in. simpl. tauto.
Qed.

Lemma unique_in (l : list string) (x : string) : In x (unique l) <-> In x l.
Proof. unfold unique. rewrite unique_from_in. simpl. tauto. Qed.

Lemma unique_nodup (l : list string) : NoDup (unique l).
Proof. apply unique_from_nodup. Qed.


(** *** Signs of the denominators *)

Lemma Qnum_zero_iff (q : Q) : (Qnum q =? 0)%Z = true <-> q == 0.
Proof.
  rewrite Z.eqb_eq. unfold Qeq. simpl. lia.
Qed.

Lemma finf_sgn_not_neg (x : Q) : 0 <= x -> not_neg (finf_sgn (Qsgn x)).
Proof.
  unfold Qsgn, Qle. simpl. intro H.
  destruct (Qnum x); simpl in *; auto; try lia.
Qed.

Lemma fmul_not_neg (a b : fval) : not_neg a -> not_neg b -> not_neg (fmul a b).
Proof.
  destruct a as [| | |x], b as [| | |y]; cbn [fmul not_neg nonneg]; try tauto.
  - intros _. apply finf_sgn_not_neg.
  - intros H _. apply finf_sgn_not_neg, H.
  - intros Hx Hy. rewrite Qred_correct. apply Qmult_le_0_compat; assumption.
Qed.

(** With a non-negative denominator, the guarded quotient of lines 78 and
    92 is 0 exactly when the denominator is zero or missing. *)
Lemma guarded_ratio (e d : fval) :
  not_neg d ->
  ((is_zero d = true \/ d = NaN) ->
   (if fgtb d (Fin 0) then fdiv e d else Fin 0) = Fin 0)
  /\ (is_zero d = false -> d <> NaN ->
      (if fgtb d (Fin 0) then fdiv e d else Fin 0) = fdiv e d).
Proof.
  destruct d as [| | |q]; simpl; intro Hd.
  - split; [reflexivity | congruence].
  - split; [intros [H|H]; discriminate | reflexivity].
  - destruct Hd.
  - unfold fgtb. simpl. split.
    + intros [H|H]; [|discriminate]. apply Qnum_zero_iff in H.
      assert (E : Qltb 0 q = false) by (apply Qltb_ge; rewrite H; apply Qle_refl).
      rewrite E. reflexivity.
    + intros H _.
      assert (E : Qltb 0 q = true).
      { apply Qltb_lt. apply Qle_lteq in Hd. destruct Hd as [Hd|Hd]; [exact Hd|].
        symmetry in Hd. apply Qnum_zero_iff in Hd. congruence. }
      rewrite E. reflexivity.
Qed.


(** *** Order statistics of the returns *)

Lemma count_nonpos_cons (x : Q) (l : list Q) :
  count_nonpos (x :: l)
  = ((if Qle_bool x 0 then 1 else 0) + count_nonpos l)%nat.
Proof.
  unfold count_nonpos. simpl. destruct (Qle_bool x 0); reflexivity.
Qed.

Lemma count_nonpos_insert (x : Q) (l : list Q) :
  count_nonpos (insert_sorted Qle_bool x l) = count_nonpos (x :: l).
Proof.
  induction l as [|y r IH]; [reflexivity|]. cbn [insert_sorted].
  destruct (Qle_bool y x); [|reflexivity].
  rewrite !count_nonpos_cons, IH, count_nonpos_cons. lia.
Qed.

Lemma count_nonpos_isort_from (l acc : list Q) :
  count_nonpos (fold_left (fun acc x => insert_sorted Qle_bool x acc) l acc)
  = (count_nonpos acc + count_nonpos l)%nat.
Proof.
  revert acc. induction l as [|x r IH]; intro acc; cbn [fold_left].
  - unfold count_nonpos at 3. simpl. lia.
  - rewrite IH, count_nonpos_insert, !count_nonpos_cons. lia.
Qed.

Lemma count_nonpos_isort (l : list Q) :
  count_nonpos (isort Qle_bool l) = count_nonpos l.
Proof. unfold isort. rewrite count_nonpos_isort_from. reflexivity. Qed.

Lemma count_nonpos_length (l : list Q) : (count_nonpos l <= length l)%nat.
Proof. apply filter_length_le. Qed.

Lemma count_nonpos_above (a : Q) (l : list Q) :
  Forall (Qle a) l -> Qle_bool a 0 = false -> count_nonpos l = 0%nat.
Proof.
  intros H Ha. apply Qle_bool_false in Ha.
  induction H as [|y r Hy _ IH]; [reflexivity|].
  rewrite count_nonpos_cons, IH.
  assert (E : Qle_bool y 0 = false).
  { apply Qle_bool_false. eapply Qlt_le_trans; eassumption. }
  rewrite E. reflexivity.
Qed.

(** In an ascending list, the first [count_nonpos] entries are the ones at
    most zero. *)
Lemma sorted_nth_nonpos (s : list Q) (k : nat) :
  StronglySorted Qle s -> (k < count_nonpos s)%nat -> nth k s 0 <= 0.
Proof.
  intro H. revert k. induction H as [|a r Hs IH Ha]; intros k Hk.
  - unfold count_nonpos in Hk. simpl in Hk. lia.
  - rewrite count_nonpos_cons in Hk.
    destruct (Qle_bool a 0) eqn:E.
    + destruct k as [|k]; simpl.
      * apply Qle_bool_iff, E.
      * apply IH. lia.
    + rewrite (count_nonpos_above Ha E) in Hk. lia.
Qed.

Lemma nth_map_Fin (s : list Q) (k : nat) :
  (k < length s)%nat -> nth k (map Fin s) NaN = Fin (nth k s 0).
Proof.
  intro H. rewrite (nth_indep _ NaN (Fin 0)) by (rewrite length_map; exact H).
  apply map_nth.
Qed.

Lemma isort_returns (qs : list Q) :
  isort fleb (map Fin qs) = map Fin (isort Qle_bool qs).
Proof. apply isort_map. reflexivity. Qed.

(** Interpolating between two values at most zero gives a value at most
    zero. *)
Lemma lerp_nonpos (a b g : Q) :
  a <= 0 -> b <= 0 -> 0 <= g -> g <= 1 ->
  exists v, lerp (Fin a) (Fin b) (Fin g) = Fin v /\ v <= 0.
Proof.
  intros Ha Hb Hg0 Hg1. unfold lerp. cbn [fsub fmul fadd].
  eexists. split; [reflexivity|].
  rewrite !Qred_correct. nra.
Qed.

Lemma frac_bounds (h : Q) :
  0 <= Qred (h - inject_Z (Qfloor h)) /\ Qred (h - inject_Z (Qfloor h)) <= 1.
Proof.
  rewrite Qred_correct.
  pose proof (Qfloor_le h) as H1. pose proof (Qlt_floor h) as H2.
  rewrite inject_Z_plus in H2. change (inject_Z 1) with 1 in H2.
  split; lra.
Qed.

(** The 5% quantile of a finite series is at most zero as soon as the two
    order statistics it interpolates are. *)
Lemma quantile_nonpos (qs : list Q) :
  (var_lo (length qs) + 2 <= count_nonpos qs)%nat ->
  exists v, quantile (5 # 100) (map Fin qs) = Fin v /\ v <= 0.
Proof.
  intro Hc. unfold quantile. rewrite isort_returns.
  pose proof (isort_sorted qs) as Hs.
  pose proof (count_nonpos_isort qs) as Hn.
  pose proof (isort_length Qle_bool qs) as Hl.
  pose proof (count_nonpos_length (isort Qle_bool qs)) as Hb.
  set (s := isort Qle_bool qs) in *.
  destruct (map Fin s) as [|x0 rest] eqn:Es.
  { apply (f_equal (@length fval)) in Es. rewrite length_map in Es.
    simpl in Es. lia. }
  rewrite <- Es. clear Es x0 rest.
  rewrite length_map, Hl. fold (var_lo (length qs)).
  set (lo := var_lo (length qs)) in *.
  set (hi := Nat.min (lo + 1) (length qs - 1)).
  assert (Hhi : (hi <= lo + 1)%nat) by (apply Nat.le_min_l).
  rewrite !nth_map_Fin by lia.
  destruct (frac_bounds (inject_Z (Z.of_nat (length qs - 1)) * (5 # 100)))
    as [G0 G1].
  apply lerp_nonpos; try assumption.
  - apply sorted_nth_nonpos; [exact Hs | lia].
  - apply sorted_nth_nonpos; [exact Hs | lia].
Qed.

(** Rounding a value at most zero gives a value at most zero. *)
Lemma round_half_even_nonpos (x : Q) : x <= 0 -> (round_half_even x <= 0)%Z.
Proof.
  intro Hx. unfold round_half_even.
  pose proof (Qfloor_le x) as Hf.
  assert (F0 : (Qfloor x <= 0)%Z).
  { rewrite Zle_Qle. eapply Qle_trans; [exact Hf | exact Hx]. }
  assert (Hhalf : 1 # 2 <= x - inject_Z (Qfloor x) -> (Qfloor x + 1 <= 0)%Z).
  { intro H. assert (Hlt : inject_Z (Qfloor x) < inject_Z 0).
    { change (inject_Z 0) with 0. lra. }
    rewrite <- Zlt_Qlt in Hlt. lia. }
  destruct (Qcompare_spec (x - inject_Z (Qfloor x)) (1 # 2)) as [E|E|E].
  - destruct (Z.even (Qfloor x)); [exact F0|].
    apply Hhalf. rewrite E. apply Qle_refl.
  - exact F0.
  - apply Hhalf. apply Qlt_le_weak, E.
Qed.

Lemma round_nd_nonpos (d : nat) (v : Q) :
  v <= 0 -> exists w, round_nd d (Fin v) = Fin w /\ w <= 0.
Proof.
  intro Hv. unfold round_nd. eexists. split; [reflexivity|].
  rewrite Qred_correct.
  assert (Hp : 0 < inject_Z (pow10 d)).
  { change 0 with (inject_Z 0). rewrite <- Zlt_Qlt. unfold pow10.
    apply Z.pow_pos_nonneg; lia. }
  assert (Hr : (round_half_even (v * inject_Z (pow10 d)) <= 0)%Z).
  { apply round_half_even_nonpos. nra. }
  rewrite Zle_Qle in Hr. change (inject_Z 0) with 0 in Hr.
  apply Qle_shift_div_r; [exact Hp|]. lra.
Qed.

(** *** Finite series stay finite *)

Lemma fsum_from_finite (xs : list fval) (a : Q) :
  Forall is_finite xs -> exists s, fold_left fadd xs (Fin a) = Fin s.
Proof.
  intro H. revert a. induction H as [|x xs Hx _ IH]; intro a; cbn [fold_left].
  - exists a. reflexivity.
  - destruct x as [| | |q]; try destruct Hx. cbn [fadd]. apply IH.
Qed.

Lemma fsum_from_nonneg (xs : list fval) (a : Q) :
  Forall (fun x => is_finite x /\ nonneg x) xs -> 0 <= a ->
  exists s, fold_left fadd xs (Fin a) = Fin s /\ 0 <= s.
Proof.
  intro H. revert a. induction H as [|x xs Hx _ IH]; intros a Ha; cbn [fold_left].
  - exists a. split; [reflexivity | exact Ha].
  - destruct x as [| | |q]; try (destruct Hx as [[] _]; fail).
    destruct Hx as [_ Hq]. cbn [nonneg] in Hq. cbn [fadd]. apply IH.
    rewrite Qred_correct.
    apply (Qle_trans _ (0 + 0)); [apply Qle_refl|].
    apply Qplus_le_compat; assumption.
Qed.

Lemma of_nat_nonzero (n : nat) :
  (0 < n)%nat -> (Qnum (inject_Z (Z.of_nat n)) =? 0)%Z = false.
Proof.
  intro H. simpl. apply Z.eqb_neq. lia.
Qed.

Lemma fmean_finite (xs : list fval) :
  Forall is_finite xs -> (0 < length xs)%nat -> is_finite (fmean xs).
Proof.
  intros H Hn. unfold fmean, fsum.
  destruct (fsum_from_finite 0 H) as (s & ->).
  unfold of_nat, fdiv. rewrite (of_nat_nonzero Hn). exact I.
Qed.

(** *** Series of zeros *)





Section WithSqrt.
Variable sqrtQ : Q -> Q.

Lemma fsqrt_not_neg (x : fval) :
  (forall q, 0 <= sqrtQ q) -> not_neg (fsqrt sqrtQ x).
Proof.
  intro Hs. destruct x as [| | |q]; cbn [fsqrt not_neg nonneg]; auto.
  destruct (Qltb q 0); cbn [not_neg nonneg]; auto.
  rewrite Qred_correct. apply Hs.
Qed.

Lemma ann_volatility_not_neg (rets : list fval) :
  (forall q, 0 <= sqrtQ q) -> not_neg (ann_volatility sqrtQ rets).
Proof.
  intro Hs. unfold ann_volatility, series_std.
  apply fmul_not_neg; apply fsqrt_not_neg, Hs.
Qed.

Lemma downside_std_not_neg (rets : list fval) :
  (forall q, 0 <= sqrtQ q) -> not_neg (downside_std sqrtQ rets).
Proof.
  intro Hs. unfold downside_std, series_std.
  apply fmul_not_neg; apply fsqrt_not_neg, Hs.
Qed.

(** *** Series whose deviation is exactly zero *)





(** Fewer than two observations have no sample deviation. *)
Lemma series_std_short (xs : list fval) :
  (length xs <= 1)%nat -> series_std sqrtQ xs = NaN.
Proof.
  intro H. unfold series_std, series_var.
  apply Nat.leb_le in H. rewrite H. reflexivity.
Qed.

(** Two or more finite observations have a finite, non-negative sample
    variance, hence a finite deviation. *)
Lemma series_var_finite (xs : list fval) :
  Forall is_finite xs -> (2 <= length xs)%nat ->
  exists v, series_var xs = Fin v /\ 0 <= v.
Proof.
  intros H Hn. unfold series_var.
  assert (E : (length xs <=? 1)%nat = false) by (apply Nat.leb_gt; lia).
  rewrite E. cbv zeta.
  assert (Hm : is_finite (fmean xs)) by (apply fmean_finite; [exact H | lia]).
  destruct (fmean xs) as [| | |m]; try destruct Hm.
  assert (Hsq : Forall (fun x => is_finite x /\ nonneg x)
                  (map (fun x => fmul (fsub (Fin m) x) (fsub (Fin m) x)) xs)).
  { apply Forall_map. eapply Forall_impl; [|exact H].
    intros x Hx. destruct x as [| | |q]; try destruct Hx.
    cbn [fsub fmul is_finite nonneg]. split; [exact I|].
    rewrite Qred_correct.
    generalize (Qred (m - q)). intro z. nra. }
  destruct (fsum_from_nonneg Hsq (Qle_refl 0)) as (s & Es & Hs).
  unfold fsum. rewrite Es. unfold of_nat, fdiv.
  rewrite of_nat_nonzero by lia.
  eexists. split; [reflexivity|].
  rewrite Qred_correct. apply Qle_shift_div_l.
  - unfold Qlt. simpl. lia.
  - rewrite Qmult_0_l. exact Hs.
Qed.


(** The loop builds the concatenation of the per-ticker contributions. *)
Lemma risk_loop (df : list row) (us : list string) (acc : list risk_metrics) :
  fold_left (risk_step sqrtQ df) us acc
  = acc ++ flat_map (per_ticker sqrtQ df) us.
Proof.
  revert acc. induction us as [|u r IH]; intro acc; simpl.
  - symmetry. apply app_nil_r.
  - rewrite IH. unfold risk_step, per_ticker.
    destruct (length (stock_returns df u) <? 30)%nat; simpl.
    + reflexivity.
    + rewrite <- app_assoc. reflexivity.
Qed.

Lemma calculate_flat_map (df : list row) :
  calculate_risk_metrics sqrtQ df
  = flat_map (per_ticker sqrtQ df) (unique (map ticker df)).
Proof. unfold calculate_risk_metrics. apply risk_loop. Qed.

Lemma records_of_per_ticker (df : list row) (t u : string) :
  records_of t (per_ticker sqrtQ df u)
  = if String.eqb u t then per_ticker sqrtQ df u else [].
Proof.
  unfold records_of, per_ticker.
  destruct (length (stock_returns df u) <? 30)%nat; simpl.
  - destruct (String.eqb u t); reflexivity.
  - destruct (String.eqb u t); reflexivity.
Qed.

Lemma records_of_flat_map (df : list row) (t : string) (us : list string) :
  NoDup us ->
  records_of t (flat_map (per_ticker sqrtQ df) us)
  = if in_dec string_dec t us then per_ticker sqrtQ df t else [].
Proof.
  induction 1 as [|u r Hu Hnd IH]; [reflexivity|].
  cbn [flat_map]. unfold records_of in *. rewrite filter_app.
  fold (records_of t (per_ticker sqrtQ df u)).
  rewrite records_of_per_ticker, IH.
  destruct (String.eqb u t) eqn:E.
  - apply String.eqb_eq in E. subst u.
    destruct (in_dec string_dec t r) as [Hin|_]; [contradiction|].
    destruct (in_dec string_dec t (t :: r)) as [_|Hn]; [apply app_nil_r|].
    exfalso. apply Hn. left. reflexivity.
  - apply String.eqb_neq in E. cbn [app].
    destruct (in_dec string_dec t r) as [Hin|Hn];
      destruct (in_dec string_dec t (u :: r)) as [Hin'|Hn']; try reflexivity.
    + exfalso. apply Hn'. right. exact Hin.
    + destruct Hin' as [->|Hin']; [congruence | contradiction].
Qed.

(** A ticker absent from the frame has no returns. *)
Lemma stock_returns_absent (df : list row) (t : string) :
  ~ In t (map ticker df) -> stock_returns df t = [].
Proof.
  intro Hn. unfold stock_returns.
  replace (filter (fun r => String.eqb (ticker r) t) df) with (@nil row);
    [reflexivity|].
  symmetry. induction df as [|r df IH]; [reflexivity|]. simpl.
  destruct (String.eqb (ticker r) t) eqn:E.
  - apply String.eqb_eq in E. exfalso. apply Hn. left. exact E.
  - apply IH. intro H. apply Hn. right. exact H.
Qed.

Lemma records_of_output (df : list row) (t : string) :
  records_of t (calculate_risk_metrics sqrtQ df) = per_ticker sqrtQ df t.
Proof.
  rewrite calculate_flat_map, records_of_flat_map by apply unique_nodup.
  destruct (in_dec string_dec t (unique (map ticker df))) as [_|Hn];
    [reflexivity|].
  rewrite unique_in in Hn. unfold per_ticker.
  rewrite (stock_returns_absent _ _ Hn). reflexivity.
Qed.

(** Every record of the output is the record of its own ticker, which has
    at least thirty valid returns. *)
Lemma in_output (df : list row) (r : risk_metrics) :
  In r (calculate_risk_metrics sqrtQ df) ->
  (30 <= length (stock_returns df (rm_ticker r)))%nat
  /\ r = risk_record sqrtQ (rm_ticker r) (stock_returns df (rm_ticker r)).
Proof.
  rewrite calculate_flat_map, in_flat_map.
  intros (u & _ & Hin). unfold per_ticker in Hin.
  destruct (length (stock_returns df u) <? 30)%nat eqn:E; [destruct Hin|].
  destruct Hin as [<-|[]]. simpl.
  apply Nat.ltb_ge in E. split; [exact E | reflexivity].
Qed.

End WithSqrt.

End RiskFacts.

(* ================================================================== *)
(** ** Facts about the indicator engine *)

Module IndicatorFacts.
Import Indicators IndicatorSpec.

Lemma Forall_firstn (A : Type) (P : A -> Prop) (n : nat) (l : list A) :
  Forall P l -> Forall P (firstn n l).
Proof.
  intro H. revert n. induction H as [|x r Hx _ IH]; intros [|n]; simpl;
    constructor; auto.
Qed.

Lemma Forall_skipn (A : Type) (P : A -> Prop) (n : nat) (l : list A) :
  Forall P l -> Forall P (skipn n l).
Proof.
  intro H. revert n. induction H as [|x r Hx Hr IH]; intros [|n]; simpl;
    auto.
Qed.

Lemma Forall_window (P : fval -> Prop) (n i : nat) (xs : list fval) :
  Forall P xs -> Forall P (window n i xs).
Proof. intro H. apply Forall_firstn, Forall_skipn, H. Qed.

Lemma window_length (n i : nat) (xs : list fval) :
  (n <= S i)%nat -> (i < length xs)%nat -> length (window n i xs) = n.
Proof.
  intros H1 H2. unfold window. rewrite length_firstn, length_skipn. lia.
Qed.

Lemma Forall_nth_default (A : Type) (P : A -> Prop) (l : list A) (d : A) (i : nat) :
  Forall P l -> P d -> P (nth i l d).
Proof.
  intros H Hd. revert i. induction H as [|x r Hx _ IH]; intros [|i]; simpl; auto.
Qed.

(** *** Rolling windows *)

Lemma rolling_length (n : nat) (agg : list fval -> fval) (xs : list fval) :
  length (rolling n agg xs) = length xs.
Proof. unfold rolling. rewrite length_map, length_seq. reflexivity. Qed.

Lemma nth_rolling_raw (n : nat) (agg : list fval -> fval) (xs : list fval) (i : nat) :
  (i < length xs)%nat ->
  nth i (rolling n agg xs) NaN
  = if (S i <? n)%nat then NaN
    else if existsb isna (map inf_to_nan (window n i xs)) then NaN
         else agg (map inf_to_nan (window n i xs)).
Proof.
  intro H. unfold rolling.
  set (f := fun i => if (S i <? n)%nat then NaN
                     else let w := map inf_to_nan (window n i xs) in
                          if existsb isna w then NaN else agg w).
  rewrite (nth_indep _ NaN (f 0%nat)) by (rewrite length_map, length_seq; exact H).
  rewrite map_nth, seq_nth by exact H. reflexivity.
Qed.

(** A window is used as it is when all its values are finite, and gives a
    missing value otherwise. *)
Lemma finite_window (w : list fval) :
  Forall is_finite w ->
  map inf_to_nan w = w /\ existsb isna (map inf_to_nan w) = false.
Proof.
  induction 1 as [|x r Hx _ [IH1 IH2]]; [split; reflexivity|].
  destruct x; try destruct Hx. split.
  - cbn [map inf_to_nan]. rewrite IH1. reflexivity.
  - exact IH2.
Qed.

Lemma broken_window (w : list fval) :
  ~ Forall is_finite w -> existsb isna (map inf_to_nan w) = true.
Proof.
  induction w as [|x r IH]; intro H.
  - exfalso. apply H. constructor.
  - destruct x as [| | |q]; try reflexivity.
    change (existsb isna (map inf_to_nan r) = true).
    apply IH. intro Hr. apply H.
    constructor; [exact I | exact Hr].
Qed.

Lemma Forall_finite_dec (w : list fval) :
  Forall is_finite w \/ ~ Forall is_finite w.
Proof.
  induction w as [|x r [IH|IH]].
  - left. constructor.
  - destruct x as [| | |q];
      try (right; intro H; inversion H as [|? ? Hx _]; exact Hx).
    left. constructor; [exact I | exact IH].
  - right. intro H. inversion H. contradiction.
Qed.

Lemma nth_rolling (n : nat) (agg : list fval -> fval) (xs : list fval) (i : nat) :
  (i < length xs)%nat -> Forall is_finite (window n i xs) ->
  nth i (rolling n agg xs) NaN
  = if (S i <? n)%nat then NaN else agg (window n i xs).
Proof.
  intros H Hw. rewrite (nth_rolling_raw _ _ _ H).
  destruct (finite_window Hw) as [E1 E2]. rewrite E2, E1. reflexivity.
Qed.

Lemma nth_rolling_broken (n : nat) (agg : list fval -> fval) (xs : list fval)
      (i : nat) :
  ~ Forall is_finite (window n i xs) -> nth i (rolling n agg xs) NaN = NaN.
Proof.
  intro Hw. destruct (Nat.lt_ge_cases i (length xs)) as [H|H].
  - rewrite (nth_rolling_raw _ _ _ H). rewrite (broken_window Hw).
    destruct (S i <? n)%nat; reflexivity.
  - apply nth_overflow. unfold rolling. rewrite length_map, length_seq. exact H.
Qed.

(** A value of a rolling column that is not missing sits at a position that
    has a full window. *)
Lemma rolling_defined_position
  (n : nat) (agg : list fval -> fval) (xs : list fval) (i : nat) :
  nth i (rolling n agg xs) NaN <> NaN ->
  (i < length xs)%nat /\ (n <= S i)%nat.
Proof.
  intro H. destruct (Nat.lt_ge_cases i (length xs)) as [Hi|Hi].
  - split; [exact Hi|]. rewrite (nth_rolling_raw _ _ _ Hi) in H.
    destruct (S i <? n)%nat eqn:E; [congruence|]. apply Nat.ltb_ge in E. exact E.
  - exfalso. apply H. apply nth_overflow. rewrite rolling_length. exact Hi.
Qed.

Lemma Forall_and (A : Type) (P R : A -> Prop) (l : list A) :
  Forall P l -> Forall R l -> Forall (fun x => P x /\ R x) l.
Proof.
  induction 1 as [|x r Hx _ IH]; intro H; [constructor|].
  inversion H; subst. constructor; [split; assumption | apply IH; assumption].
Qed.

(** *** Means of non-negative windows *)

Lemma fadd_nonneg (a b : fval) : nonneg a -> nonneg b -> nonneg (fadd a b).
Proof.
  destruct a as [| | |x], b as [| | |y]; cbn [fadd nonneg]; try tauto.
  intros Hx Hy. rewrite Qred_correct.
  apply (Qle_trans _ (0 + 0)); [apply Qle_refl|].
  apply Qplus_le_compat; assumption.
Qed.

Lemma fsum_nonneg (w : list fval) (a : fval) :
  Forall nonneg w -> nonneg a -> nonneg (fold_left fadd w a).
Proof.
  intro H. revert a. induction H as [|x r Hx _ IH]; intros a Ha; cbn [fold_left].
  - exact Ha.
  - apply IH, fadd_nonneg; assumption.
Qed.

Lemma fmean_nonneg (w : list fval) :
  Forall nonneg w -> (0 < length w)%nat -> nonneg (fmean w).
Proof.
  intros H Hn. unfold fmean, fsum.
  assert (Hs : nonneg (fold_left fadd w (Fin 0))).
  { apply fsum_nonneg; [exact H | apply Qle_refl]. }
  destruct (fold_left fadd w (Fin 0)) as [| | |x]; cbn [nonneg] in Hs.
  - destruct Hs.
  - unfold of_nat. cbn [fdiv].
    assert (E : Qltb (inject_Z (Z.of_nat (length w))) 0 = false).
    { apply Qltb_ge. unfold Qle. simpl. lia. }
    rewrite E. exact I.
  - destruct Hs.
  - unfold of_nat, fdiv. rewrite (RiskFacts.of_nat_nonzero Hn).
    cbn [nonneg] in *. rewrite Qred_correct. apply Qle_shift_div_l.
    + unfold Qlt. simpl. lia.
    + rewrite Qmult_0_l. exact Hs.
Qed.

(** A rolling mean of non-negative values is non-negative wherever it is
    not missing. *)
Lemma rolling_mean_nonneg (n : nat) (xs : list fval) (i : nat) :
  (0 < n)%nat -> Forall nonneg xs ->
  not_neg (nth i (rolling_mean n xs) NaN).
Proof.
  intros Hn H. unfold rolling_mean.
  destruct (Forall_finite_dec (window n i xs)) as [Hw|Hw];
    [|rewrite (@nth_rolling_broken _ _ _ _ Hw); exact I].
  destruct (Nat.lt_ge_cases i (length xs)) as [Hi|Hi].
  - rewrite (@nth_rolling _ _ _ _ Hi Hw).
    destruct (S i <? n)%nat eqn:E; [exact I|]. apply Nat.ltb_ge in E.
    assert (Hm : nonneg (fmean (window n i xs))).
    { apply fmean_nonneg; [apply Forall_window, H|].
      rewrite window_length by assumption. exact Hn. }
    destruct (fmean (window n i xs)); try exact I; exact Hm.
  - rewrite nth_overflow by (rewrite rolling_length; exact Hi). exact I.
Qed.

(** *** The gain and loss columns *)

Lemma gain_raw_nonneg (ds : list fval) :
  Forall nonneg (where_or_zero (fun d => fgtb d (Fin 0)) ds).
Proof.
  unfold where_or_zero. apply Forall_map, Forall_forall. intros d _.
  destruct (fgtb d (Fin 0)) eqn:E; [|apply Qle_refl].
  unfold fgtb in E. destruct d as [| | |x]; simpl in E; try discriminate.
  - exact I.
  - apply Qltb_lt in E. apply Qlt_le_weak, E.
Qed.

Lemma loss_raw_nonneg (ds : list fval) :
  Forall nonneg (map fneg (where_or_zero (fun d => fltb d (Fin 0)) ds)).
Proof.
  unfold where_or_zero. rewrite map_map. apply Forall_map, Forall_forall.
  intros d _.
  destruct (fltb d (Fin 0)) eqn:E; [|apply Qle_refl].
  destruct d as [| | |x]; simpl in E; try discriminate.
  - exact I.
  - apply Qltb_lt in E. cbn [fneg nonneg]. rewrite Qred_correct. lra.
Qed.

Lemma gain_not_neg (close : list fval) (i : nat) :
  not_neg (nth i (gain close) NaN).
Proof. apply rolling_mean_nonneg; [lia | apply gain_raw_nonneg]. Qed.

Lemma loss_not_neg (close : list fval) (i : nat) :
  not_neg (nth i (loss close) NaN).
Proof. apply rolling_mean_nonneg; [lia | apply loss_raw_nonneg]. Qed.

Lemma gain_loss_length (close : list fval) :
  length (gain close) = length (loss close).
Proof.
  unfold gain, loss, rolling_mean. rewrite !rolling_length.
  unfold where_or_zero. rewrite !length_map. reflexivity.
Qed.

(** Differences of values that are not infinite are not infinite, and the
    gains kept from them are finite. *)
Lemma map2_fsub_not_infinite (a b : list fval) :
  Forall not_infinite a -> Forall not_infinite b ->
  Forall not_infinite (map2 fsub a b).
Proof.
  intro Ha. revert b. induction Ha as [|x r Hx _ IH]; intros b Hb.
  - constructor.
  - destruct Hb as [|y r' Hy Hr']; cbn [map2]; constructor.
    + destruct x, y; try contradiction; exact I.
    + apply IH, Hr'.
Qed.

Lemma diff_not_infinite (xs : list fval) :
  Forall not_infinite xs -> Forall not_infinite (diff xs).
Proof.
  intro H. destruct xs as [|x r]; [constructor|]. unfold diff.
  constructor; [exact I|]. apply map2_fsub_not_infinite; [|exact H].
  inversion H. assumption.
Qed.

Lemma gain_raw_finite_gen (ds : list fval) :
  Forall not_infinite ds ->
  Forall is_finite (where_or_zero (fun d => fgtb d (Fin 0)) ds).
Proof.
  intro H. unfold where_or_zero. apply Forall_map.
  apply (Forall_impl _ (P := not_infinite)); [|exact H].
  intros d Hd. destruct d as [| | |q]; try contradiction.
  - exact I.
  - destruct (fgtb (Fin q) (Fin 0)); exact I.
Qed.

(** When no close is infinite, the rolling mean of gains is defined
    wherever the rolling mean of losses is. *)
Lemma gain_defined_with_loss (close : list fval) (i : nat) :
  Forall not_infinite close ->
  nth i (loss close) NaN <> NaN -> nth i (gain close) NaN <> NaN.
Proof.
  intros Hc H. unfold gain, loss, rolling_mean in *.
  destruct (rolling_defined_position _ _ _ _ H) as [Hi Hn].
  assert (Hi' : (i < length (where_or_zero (fun d => fgtb d (Fin 0))
                               (delta close)))%nat).
  { unfold where_or_zero in *. rewrite !length_map in Hi.
    rewrite length_map. exact Hi. }
  assert (Hw : Forall is_finite
                 (window 14 i (where_or_zero (fun d => fgtb d (Fin 0))
                                 (delta close)))).
  { apply Forall_window, gain_raw_finite_gen, diff_not_infinite, Hc. }
  rewrite (@nth_rolling _ _ _ _ Hi' Hw).
  assert (Hn' : (S i <? 14)%nat = false) by (apply Nat.ltb_ge, Hn).
  rewrite Hn'.
  assert (Hm : is_finite (fmean (window 14 i
                         (where_or_zero (fun d => fgtb d (Fin 0)) (delta close))))).
  { apply RiskFacts.fmean_finite; [exact Hw|].
    rewrite window_length; [lia | exact Hn | exact Hi']. }
  intro E. rewrite E in Hm. exact Hm.
Qed.

(** *** Position-wise reading of the RSI column *)

Lemma nth_map2 (A B C : Type) (f : A -> B -> C) (da : A) (db : B) (dc : C)
      (l1 : list A) (l2 : list B) (i : nat) :
  length l1 = length l2 -> f da db = dc ->
  nth i (map2 f l1 l2) dc = f (nth i l1 da) (nth i l2 db).
Proof.
  intros Hl Hd. revert l2 i Hl.
  induction l1 as [|a r1 IH]; intros [|b r2] i Hl; simpl in Hl; try discriminate.
  - destruct i; simpl; symmetry; exact Hd.
  - destruct i as [|i]; simpl; [reflexivity|]. apply IH. lia.
Qed.

Lemma nth_rsi_14 (close : list fval) (i : nat) :
  nth i (rsi_14 close) NaN
  = rsi_of (nth i (gain close) NaN) (nth i (loss close) NaN).
Proof.
  unfold rsi_14, rs, rsi_of.
  set (f := fun r => fsub (Fin 100) (fdiv (Fin 100) (fadd (Fin 1) r))).
  change NaN with (f NaN) at 1. rewrite map_nth. unfold f. do 3 f_equal.
  apply nth_map2; [apply gain_loss_length | reflexivity].
Qed.

(** *** The RSI formula on non-negative means *)

Lemma pos_num (x : Q) : 0 < x -> exists p, Qnum x = Zpos p.
Proof.
  unfold Qlt. simpl. intro H. destruct (Qnum x) as [|p|p]; try lia.
  exists p. reflexivity.
Qed.

Lemma rsi_of_saturates (g l : fval) :
  not_neg l -> is_zero l = true -> fgtb g (Fin 0) = true ->
  rsi_of g l = Fin 100.
Proof.
  intros Hl Hz Hg. destruct l as [| | |y]; try discriminate. simpl in Hz.
  unfold fgtb in Hg. destruct g as [| | |x]; simpl in Hg; try discriminate.
  - unfold rsi_of. cbn [fdiv].
    assert (E : Qltb y 0 = false).
    { apply Qltb_ge. apply RiskFacts.Qnum_zero_iff in Hz. rewrite Hz. apply Qle_refl. }
    rewrite E. reflexivity.
  - apply Qltb_lt in Hg. destruct (pos_num Hg) as (p & Hp).
    unfold rsi_of. cbn [fdiv]. rewrite Hz. unfold Qsgn. rewrite Hp. reflexivity.
Qed.

Lemma rsi_of_flat (g l : fval) :
  is_zero l = true -> is_zero g = true -> rsi_of g l = NaN.
Proof.
  intros Hl Hg. destruct l as [| | |y]; try discriminate.
  destruct g as [| | |x]; try discriminate. simpl in Hl, Hg.
  apply Z.eqb_eq in Hg.
  unfold rsi_of. cbn [fdiv]. rewrite Hl. unfold Qsgn. rewrite Hg. reflexivity.
Qed.

Lemma rsi_formula_range (r : Q) :
  0 <= r ->
  exists q,
    fsub (Fin 100) (fdiv (Fin 100) (fadd (Fin 1) (Fin r))) = Fin q
    /\ 0 <= q /\ q <= 100.
Proof.
  intro Hr. cbn [fadd fdiv].
  assert (Hp : 0 < Qred (1 + r)) by (rewrite Qred_correct; lra).
  assert (Hnz : (Qnum (Qred (1 + r)) =? 0)%Z = false).
  { destruct (Qnum (Qred (1 + r)) =? 0)%Z eqn:E; [|reflexivity].
    apply RiskFacts.Qnum_zero_iff in E. rewrite E in Hp.
    exfalso. apply (Qlt_irrefl 0), Hp. }
  rewrite Hnz. cbn [fsub]. eexists. split; [reflexivity|].
  rewrite !Qred_correct.
  assert (Hp' : 0 < 1 + r) by lra.
  assert (H1 : 0 <= 100 / (1 + r)).
  { apply Qle_shift_div_l; [exact Hp'|]. lra. }
  assert (H2 : 100 / (1 + r) <= 100).
  { apply Qle_shift_div_r; [exact Hp'|]. lra. }
  split; lra.
Qed.

(** On non-negative means the RSI is missing or lies in [0, 100]. *)
Lemma rsi_of_range (g l : fval) :
  not_neg g -> not_neg l ->
  rsi_of g l = NaN \/ exists q, rsi_of g l = Fin q /\ 0 <= q /\ q <= 100.
Proof.
  intros Hg Hl. unfold rsi_of.
  destruct g as [| | |x]; cbn [not_neg nonneg] in Hg.
  - left. reflexivity.
  - destruct l as [| | |y]; cbn [not_neg nonneg] in Hl.
    + left. reflexivity.
    + left. reflexivity.
    + destruct Hl.
    + cbn [fdiv].
      assert (E : Qltb y 0 = false) by (apply Qltb_ge; assumption).
      rewrite E. right. exists 100. repeat split; try reflexivity; lra.
  - destruct Hg.
  - destruct l as [| | |y]; cbn [not_neg nonneg] in Hl.
    + left. reflexivity.
    + right. exists 0. repeat split; try reflexivity; lra.
    + destruct Hl.
    + cbn [fdiv]. destruct (Qnum y =? 0)%Z eqn:E.
      * pose proof (RiskFacts.finf_sgn_not_neg Hg) as Hs.
        destruct (finf_sgn (Qsgn x)) as [| | |z]; cbn [not_neg nonneg] in Hs.
        -- left. reflexivity.
        -- right. exists 100. repeat split; try reflexivity; lra.
        -- destruct Hs.
        -- right. apply (rsi_formula_range Hs).
      * right. apply rsi_formula_range. rewrite Qred_correct.
        assert (Hy : 0 < y).
        { apply Qle_lteq in Hl. destruct Hl as [Hl|Hl]; [exact Hl|].
          symmetry in Hl. apply RiskFacts.Qnum_zero_iff in Hl. congruence. }
        apply Qle_shift_div_l; [exact Hy|]. lra.
Qed.

Lemma nonneg_sign (g : fval) :
  nonneg g -> fgtb g (Fin 0) = true \/ is_zero g = true.
Proof.
  destruct g as [| | |x]; cbn [nonneg].
  - intros [].
  - intros _. left. reflexivity.
  - intros [].
  - intro H. apply Qle_lteq in H. destruct H as [H|H].
    + left. unfold fgtb. simpl. apply Qltb_lt, H.
    + right. simpl. apply RiskFacts.Qnum_zero_iff. symmetry. exact H.
Qed.

(** *** Moving averages of finite closes *)

Lemma sma_finite_iff (n : nat) (cs : list Q) (i : nat) :
  (0 < n)%nat -> (i < length cs)%nat ->
  (is_finite (nth i (sma n (map Fin cs)) NaN) <-> (n <= S i)%nat)
  /\ ((S i < n)%nat -> nth i (sma n (map Fin cs)) NaN = NaN).
Proof.
  intros Hn Hi. unfold sma, rolling_mean.
  assert (Hi' : (i < length (map Fin cs))%nat) by (rewrite length_map; exact Hi).
  assert (Hf : Forall is_finite (map Fin cs)).
  { apply Forall_map, Forall_forall. intros x _. exact I. }
  rewrite (@nth_rolling _ _ _ _ Hi' (Forall_window _ _ Hf)).
  destruct (S i <? n)%nat eqn:E.
  - apply Nat.ltb_lt in E. split; [|reflexivity].
    split; [intros [] | lia].
  - apply Nat.ltb_ge in E. split; [|lia].
    split; [intros _; exact E|]. intros _.
    apply RiskFacts.fmean_finite; [apply Forall_window, Hf|].
    rewrite window_length by assumption. exact Hn.
Qed.

(** *** Moving averages of any closes *)

(** The value is a finite number exactly when the window is full and holds
    finite values only, and is missing otherwise. *)
Lemma sma_defined_iff (n : nat) (close : list fval) (i : nat) :
  (0 < n)%nat -> (i < length close)%nat ->
  (is_finite (nth i (sma n close) NaN)
   <-> (n <= S i)%nat /\ Forall is_finite (window n i close))
  /\ (~ ((n <= S i)%nat /\ Forall is_finite (window n i close)) ->
      nth i (sma n close) NaN = NaN).
Proof.
  intros Hn Hi. unfold sma, rolling_mean.
  destruct (Forall_finite_dec (window n i close)) as [Hw|Hw].
  - rewrite (@nth_rolling _ _ _ _ Hi Hw).
    destruct (S i <? n)%nat eqn:E.
    + apply Nat.ltb_lt in E. split; [|reflexivity].
      split; [intros [] | intros [H _]; lia].
    + apply Nat.ltb_ge in E. split; [|intro H; exfalso; apply H; split; assumption].
      split; [intros _; split; assumption|]. intros _.
      apply RiskFacts.fmean_finite; [exact Hw|].
      rewrite window_length by assumption. exact Hn.
  - rewrite (@nth_rolling_broken _ _ _ _ Hw). split; [|reflexivity].
    split; [intros [] | intros [_ H]; contradiction].
Qed.

(** The values of the window ending at a position, by position. *)
Lemma window_finite_iff (n i : nat) (xs : list fval) :
  (n <= S i)%nat -> (i < length xs)%nat ->
  Forall is_finite (window n i xs)
  <-> forall k, (S i - n <= k)%nat -> (k <= i)%nat -> is_finite (nth k xs NaN).
Proof.
  intros Hn Hi. unfold window. split.
  - intros H k Hk1 Hk2.
    replace k with ((S i - n) + (k - (S i - n)))%nat by lia.
    rewrite <- nth_skipn.
    rewrite <- (firstn_skipn n (skipn (S i - n) xs)).
    rewrite app_nth1 by (rewrite length_firstn, length_skipn; lia).
    rewrite Forall_forall in H. apply H, nth_In.
    rewrite length_firstn, length_skipn. lia.
  - intro H. apply Forall_forall. intros x Hx.
    apply (In_nth _ _ NaN) in Hx. destruct Hx as (j & Hj & <-).
    rewrite length_firstn, length_skipn in Hj.
    rewrite nth_firstn.
    assert (E : (j <? n)%nat = true) by (apply Nat.ltb_lt; lia).
    rewrite E, nth_skipn. apply H; lia.
Qed.

End IndicatorFacts.

(* ================================================================== *)
(** ** Properties of the risk engine *)

Module RiskClaims.
Import Risk RiskSpec RiskFacts.

(** C4. For every ticker, the records of the output that carry the ticker
    are exactly one, the ticker's full record, when the ticker has at least
    30 valid (non-missing) daily returns, and none when it has 29 or
    fewer. *)
Theorem C4_thirty_returns (sqrtQ : Q -> Q) (df : list row) (t : string) :
  ((30 <= length (stock_returns df t))%nat ->
   records_of t (calculate_risk_metrics sqrtQ df)
   = [risk_record sqrtQ t (stock_returns df t)])
  /\ ((length (stock_returns df t) <= 29)%nat ->
      records_of t (calculate_risk_metrics sqrtQ df) = []).
Proof.
  rewrite records_of_output. unfold per_ticker. split; intro H.
  - apply Nat.ltb_ge in H. rewrite H. reflexivity.
  - assert (H' : (length (stock_returns df t) < 30)%nat) by lia.
    apply Nat.ltb_lt in H'. rewrite H'. reflexivity.
Qed.

Lemma C4_thirty_returns_witness :
  length (records_of "AAA" (calculate_risk_metrics Qsqrt_up
                              (frame_of "AAA" rising30))) = 1%nat
  /\ records_of "AAA" (calculate_risk_metrics Qsqrt_up
                         (frame_of "AAA" (firstn 29 rising30))) = [].
Proof.
  split.
  - rewrite (proj1 (C4_thirty_returns Qsqrt_up (frame_of "AAA" rising30) "AAA"));
      [reflexivity|].
    vm_compute. lia.
  - apply (proj2 (C4_thirty_returns Qsqrt_up
                    (frame_of "AAA" (firstn 29 rising30)) "AAA")).
    vm_compute. lia.
Defined.




(** C10. For every record of the risk engine whose ticker has no negative
    return, or exactly one, among its valid returns, the downside standard
    deviation is missing (not-a-number), so is its annualized value, and
    the reported sortino_ratio is 0. *)
Theorem C10_sortino_undefined_downside
  (sqrtQ : Q -> Q) (df : list row) (r : risk_metrics) :
  In r (calculate_risk_metrics sqrtQ df) ->
  let rets := stock_returns df (rm_ticker r) in
  (length (downside_returns rets) <= 1)%nat ->
  series_std sqrtQ (downside_returns rets) = NaN
  /\ downside_std sqrtQ rets = NaN
  /\ sortino_ratio r = Fin 0.
Proof.
  intros Hin rets Hlen.
  destruct (@in_output sqrtQ df r Hin) as [_ Hr]. fold rets in Hr.
  assert (E : series_std sqrtQ (downside_returns rets) = NaN)
    by (apply series_std_short, Hlen).
  assert (E' : downside_std sqrtQ rets = NaN).
  { unfold downside_std. rewrite E. reflexivity. }
  split; [exact E|]. split; [exact E'|].
  rewrite Hr. cbn [sortino_ratio risk_record].
  unfold sortino. rewrite E'. reflexivity.
Qed.

Lemma C10_sortino_undefined_downside_witness :
  sortino_ratio (risk_record Qsqrt_up "AAA" rising30) = Fin 0
  /\ sortino_ratio (risk_record Qsqrt_up "AAA" one_loss30) = Fin 0.
Proof.
  split.
  - apply (C10_sortino_undefined_downside Qsqrt_up (frame_of "AAA" rising30)
             (risk_record Qsqrt_up "AAA" rising30) (or_introl eq_refl)).
    vm_compute. lia.
  - apply (C10_sortino_undefined_downside Qsqrt_up (frame_of "AAA" one_loss30)
             (risk_record Qsqrt_up "AAA" one_loss30) (or_introl eq_refl)).
    vm_compute. lia.
Defined.

(** C7 (as stated): thirty returns of which exactly one is negative have a
    positive 5% quantile. *)
Lemma C7_var95_counterexample :
  ~ var95_as_specified Qsqrt_up (frame_of "AAA" one_loss30).
Proof.
  intro H.
  assert (Hin : In (risk_record Qsqrt_up "AAA" one_loss30)
                   (calculate_risk_metrics Qsqrt_up (frame_of "AAA" one_loss30)))
    by (vm_compute; left; reflexivity).
  specialize (H _ Hin). cbv zeta in H.
  match type of H with
  | ?A -> _ => assert (Hneg : A)
  end.
  { exists (Fin (-2 # 100)). split; vm_compute; [left|]; reflexivity. }
  specialize (H Hneg). vm_compute in H. discriminate H.
Qed.

(** C7 (amended). For every record of the risk engine whose ticker has the
    finite valid returns [qs] (n of them, n >= 30), if at least
    floor(0.05 * (n - 1)) + 2 of the returns are at most zero then the 5%
    quantile computed by linear interpolation is defined and at most zero,
    and so is the reported var_95. *)
Theorem C7_var95_nonpositive
  (sqrtQ : Q -> Q) (df : list row) (r : risk_metrics) (qs : list Q) :
  In r (calculate_risk_metrics sqrtQ df) ->
  stock_returns df (rm_ticker r) = map Fin qs ->
  (var_lo (length qs) + 2 <= count_nonpos qs)%nat ->
  (30 <= length qs)%nat
  /\ (exists v, calc_var_95 (map Fin qs) = Fin v /\ v <= 0)
  /\ (exists w, var_95 r = Fin w /\ w <= 0).
Proof.
  intros Hin Hq Hc.
  destruct (@in_output sqrtQ df r Hin) as [Hlen Hr].
  rewrite Hq in Hlen, Hr. rewrite length_map in Hlen.
  destruct (quantile_nonpos qs Hc) as (v & Ev & Hv).
  split; [exact Hlen|]. split.
  - exists v. split; [exact Ev | exact Hv].
  - rewrite Hr. cbn [var_95 risk_record]. unfold calc_var_95 in *.
    rewrite Ev. apply round_nd_nonpos, Hv.
Qed.

Lemma C7_var95_nonpositive_witness :
  exists w, var_95 (risk_record Qsqrt_up "AAA" pattern32) = Fin w /\ w <= 0.
Proof.
  assert (Hin : In (risk_record Qsqrt_up "AAA" pattern32)
                   (calculate_risk_metrics Qsqrt_up (frame_of "AAA" pattern32)))
    by (vm_compute; left; reflexivity).
  assert (Hq : stock_returns (frame_of "AAA" pattern32)
                 (rm_ticker (risk_record Qsqrt_up "AAA" pattern32))
               = map Fin pattern32_q)
    by (vm_compute; reflexivity).
  assert (Hc : (var_lo (length pattern32_q) + 2 <= count_nonpos pattern32_q)%nat)
    by (vm_compute; lia).
  exact (proj2 (proj2 (C7_var95_nonpositive Qsqrt_up _ _ _ Hin Hq Hc))).
Defined.

End RiskClaims.

(* ================================================================== *)
(** ** Properties of the indicator engine *)

Module IndicatorClaims.
Import Indicators IndicatorSpec IndicatorFacts.

(** C1 (as stated): on fourteen bars at the same close the rolling average
    loss of the last bar is 0 and its rsi_14 is missing, not 100. *)
Lemma C1_rsi_flat_counterexample : ~ saturates_as_specified flat14.
Proof.
  intro H. specialize (H 13%nat eq_refl). vm_compute in H. discriminate H.
Qed.

(** C1 (amended). At every position where the 14-bar rolling average loss
    is 0, the rolling average gain is positive, 0 or missing, and it is
    not missing when no close of the series is infinite (an infinite rise
    in the window is the one thing that leaves the losses at 0 and the
    gains missing).  Where the average gain is positive rsi_14 equals 100;
    where it is 0 as well (0 / 0) or missing, rsi_14 is missing.  Every
    rsi_14 value that is not missing is finite and lies in the interval
    [0, 100]. *)
Theorem C1_rsi_saturation (close : list fval) (i : nat) :
  let rsi := nth i (col_rsi_14 (_add_indicators close)) NaN in
  let avg_gain := nth i (gain close) NaN in
  let avg_loss := nth i (loss close) NaN in
  (is_zero avg_loss = true ->
   (fgtb avg_gain (Fin 0) = true \/ is_zero avg_gain = true \/ avg_gain = NaN)
   /\ (fgtb avg_gain (Fin 0) = true -> rsi = Fin 100)
   /\ (is_zero avg_gain = true \/ avg_gain = NaN -> rsi = NaN)
   /\ (Forall not_infinite close -> avg_gain <> NaN))
  /\ (forall q, rsi = Fin q -> 0 <= q /\ q <= 100)
  /\ rsi <> PInf /\ rsi <> NInf.
Proof.
  intros rsi avg_gain avg_loss.
  assert (E : rsi = rsi_of avg_gain avg_loss) by apply nth_rsi_14.
  pose proof (gain_not_neg close i) as Hg. fold avg_gain in Hg.
  pose proof (loss_not_neg close i) as Hl. fold avg_loss in Hl.
  assert (Hsat : is_zero avg_loss = true ->
                 (fgtb avg_gain (Fin 0) = true \/ is_zero avg_gain = true
                  \/ avg_gain = NaN)
                 /\ (fgtb avg_gain (Fin 0) = true -> rsi = Fin 100)
                 /\ (is_zero avg_gain = true \/ avg_gain = NaN -> rsi = NaN)
                 /\ (Forall not_infinite close -> avg_gain <> NaN)).
  { intro Hz. split; [|split; [|split]].
    - destruct avg_gain as [| | |g] eqn:Eg.
      + right. right. reflexivity.
      + left. reflexivity.
      + destruct Hg.
      + destruct (@nonneg_sign (Fin g) Hg) as [H|H]; [left | right; left]; exact H.
    - intro Hp. rewrite E. apply rsi_of_saturates; assumption.
    - intros [Hz'|Hn]; rewrite E.
      + apply rsi_of_flat; assumption.
      + rewrite Hn. reflexivity.
    - intro Hc. apply gain_defined_with_loss; [exact Hc|].
      fold avg_loss. intro N. rewrite N in Hz. discriminate Hz. }
  split; [exact Hsat|].
  destruct (rsi_of_range _ _ Hg Hl) as [R|(q & R & Hq)]; rewrite <- E in R;
    rewrite R.
  - split; [intros q Hq; discriminate Hq | split; discriminate].
  - split; [intros q' Hq'; injection Hq' as <-; exact Hq | split; discriminate].
Qed.

Lemma C1_rsi_saturation_witness :
  nth 14 (col_rsi_14 (_add_indicators up15)) NaN = Fin 100
  /\ nth 13 (col_rsi_14 (_add_indicators flat14)) NaN = NaN
  /\ nth 13 (col_rsi_14 (_add_indicators jump14)) NaN = NaN.
Proof.
  split; [|split].
  - apply (proj1 (C1_rsi_saturation up15 14)); reflexivity.
  - apply (proj1 (C1_rsi_saturation flat14 13)); [|left]; reflexivity.
  - apply (proj1 (C1_rsi_saturation jump14 13)); [|right]; reflexivity.
Defined.

(** C3 (as stated): on twenty-one bars the sma_20 of row 19 is defined,
    and that row has 19 prior bars, not 20. *)
Lemma C3_prior_bars_counterexample : ~ sma_as_specified 20 (map Fin bars21).
Proof.
  intro H.
  assert (Hi : (19 < length (map Fin bars21))%nat) by (vm_compute; lia).
  assert (Hd : nth 19 (sma 20 (map Fin bars21)) NaN <> NaN)
    by (vm_compute; discriminate).
  pose proof (proj1 (H 19%nat Hi) Hd). lia.
Qed.

(** C3 (amended). For every series of closes of a ticker and each n in
    {20, 50, 200}, the sma_n value at a row is a finite number exactly when
    the ticker has at least n bars up to and including that row (n - 1
    prior bars) and the closes of these n bars are all finite numbers;
    otherwise the value is the missing value (not-a-number), not zero. *)
Theorem C3_sma_defined (close : list fval) (i : nat) :
  (i < length close)%nat ->
  let cols := _add_indicators close in
  sma_defined_at 20 close (col_sma_20 cols) i
  /\ sma_defined_at 50 close (col_sma_50 cols) i
  /\ sma_defined_at 200 close (col_sma_200 cols) i.
Proof.
  intros Hi cols. unfold cols.
  cbn [_add_indicators col_sma_20 col_sma_50 col_sma_200].
  assert (H : forall n, (0 < n)%nat -> sma_defined_at n close (sma n close) i).
  { intros n Hn. unfold sma_defined_at.
    destruct (sma_defined_iff close Hn Hi) as [H1 H2].
    assert (Hw : (n <= S i)%nat /\ Forall is_finite (window n i close)
                 <-> (n <= S i)%nat
                     /\ (forall k, (S i - n <= k)%nat -> (k <= i)%nat ->
                                   is_finite (nth k close NaN))).
    { split; intros [Ha Hb]; (split; [exact Ha|]);
        apply (window_finite_iff close Ha Hi); exact Hb. }
    split.
    - rewrite H1. exact Hw.
    - intro Hnf. apply H2. intro Hc. apply Hnf, H1, Hc. }
  split; [|split]; apply H; lia.
Qed.

Lemma C3_sma_defined_witness :
  is_finite (nth 19 (col_sma_20 (_add_indicators (map Fin bars21))) NaN)
  /\ nth 18 (col_sma_20 (_add_indicators (map Fin bars21))) NaN = NaN
  /\ nth 19 (col_sma_50 (_add_indicators (map Fin bars21))) NaN = NaN
  /\ nth 19 (col_sma_20 (_add_indicators gap21)) NaN = NaN.
Proof.
  assert (H19 : (19 < length (map Fin bars21))%nat) by (vm_compute; lia).
  assert (H18 : (18 < length (map Fin bars21))%nat) by (vm_compute; lia).
  assert (G19 : (19 < length gap21)%nat) by (vm_compute; lia).
  split; [|split; [|split]].
  - apply (proj1 (proj1 (C3_sma_defined (map Fin bars21) H19))).
    split; [lia|]. intros k _ Hk.
    rewrite RiskFacts.nth_map_Fin; [exact I|].
    change (length bars21) with 21%nat. lia.
  - apply (proj2 (proj1 (C3_sma_defined (map Fin bars21) H18))).
    intro H. apply (proj1 (proj1 (C3_sma_defined (map Fin bars21) H18))) in H.
    lia.
  - apply (proj2 (proj1 (proj2 (C3_sma_defined (map Fin bars21) H19)))).
    intro H.
    apply (proj1 (proj1 (proj2 (C3_sma_defined (map Fin bars21) H19)))) in H.
    lia.
  - apply (proj2 (proj1 (C3_sma_defined gap21 G19))).
    intro H. apply (proj1 (proj1 (C3_sma_defined gap21 G19))) in H.
    destruct H as [_ H]. exact (H 5%nat ltac:(lia) ltac:(lia)).
Defined.

End IndicatorClaims.

(* ================================================================== *)
(** ** Further properties of the signal detector *)


Module SignalExtra.
Import Signals SignalSpec SignalFacts SignalExtraSpec.

Lemma detect_strength (t : string) (l p : row) (s : signal) :
  In s (detect t l p) -> sig_strength s = strength_of (sig_type s).
Proof.
  cbv beta zeta delta [detect]. intro H.
  apply in_or_default in H. destruct H as [[_ ->]|H]; [reflexivity|].
  repeat (apply in_append_if in H; destruct H as [H|[_ ->]]; [|reflexivity]).
  destruct H.
Qed.

Lemma rule_types_filter (l p : row) :
  rule_types l p = filter (fun ty => rule_cond ty l p) table_order.
Proof.
  unfold rule_types, table_order. cbn [filter rule_cond].
  destruct (cond_golden_cross l p), (cond_death_cross l p),
    (cond_rsi_oversold l), (cond_rsi_overbought l),
    (cond_macd_bullish l p), (cond_macd_bearish l p),
    (cond_bb_oversold l), (cond_bb_overbought l); reflexivity.
Qed.

Lemma table_order_nodup : NoDup table_order.
Proof.
  unfold table_order.
  repeat (constructor; [simpl; intuition discriminate|]). constructor.
Qed.

(** Every emitted record names the ticker asked for, is dated at the most
    recent bar of that ticker in the frame, whatever the order of the rows,
    and carries the strength fixed for its type: STRONG for the two
    crosses, MEDIUM for the RSI and MACD rules, WEAK for the Bollinger
    rules, NEUTRAL for the neutral record. *)
Theorem signal_record_fields (t : string) (df : list row) (s : signal) :
  In s (generate_signals_for_ticker t df) ->
  sig_ticker s = t
  /\ sig_strength s = strength_of (sig_type s)
  /\ (exists r, In r df /\ ticker r = t /\ date r = signal_date s)
  /\ (forall r, In r df -> ticker r = t -> (date r <= signal_date s)%Z).
Proof.
  intro Hin.
  destruct (generate_cases t df) as [[_ E]|(l & p & E & Hd)].
  { rewrite E in Hin. destruct Hin. }
  rewrite Hd in Hin.
  destruct (detect_records _ _ _ _ Hin) as (Ht & Hdate & _).
  pose proof (detect_strength _ _ _ _ Hin) as Hs.
  unfold last_two in E.
  destruct (rev (stock_rows t df)) as [|a [|b rest]] eqn:Er; try discriminate.
  injection E as -> ->.
  unfold stock_rows in Er.
  destruct (isort_latest date _ Er) as [Hl Hmax].
  apply filter_In in Hl. destruct Hl as [Hl Hlt]. apply String.eqb_eq in Hlt.
  split; [exact Ht|]. split; [exact Hs|]. split.
  - exists l. rewrite Hdate. auto.
  - intros r Hr Hrt. rewrite Hdate. apply Hmax.
    apply filter_In. split; [exact Hr|]. apply String.eqb_eq, Hrt.
Qed.

Lemma signal_record_fields_witness :
  sig_strength bb_sample_signal = WEAK
  /\ forall r, In r busy_df -> ticker r = "AAA"%string ->
               (date r <= signal_date bb_sample_signal)%Z.
Proof.
  destruct (signal_record_fields "AAA" busy_df bb_sample_signal)
    as (_ & Hs & _ & Hmax).
  - right. right. left. reflexivity.
  - split; [exact Hs | exact Hmax].
Defined.

(** A ticker with at least two rows gets between one and eight records;
    their types are the rule types whose condition holds on the last two
    rows, listed in the order of the rules in the code and each at most
    once, or the single NEUTRAL when there is none. *)
Theorem signals_in_table_order (t : string) (df : list row) :
  NoDup (fired t df)
  /\ (forall l p,
         last_two (stock_rows t df) = Some (l, p) ->
         fired t df
         = match filter (fun ty => rule_cond ty l p) table_order with
           | [] => [NEUTRAL]
           | ts => ts
           end
         /\ (1 <= length (generate_signals_for_ticker t df) <= 8)%nat).
Proof.
  assert (Hf : forall l p,
             last_two (stock_rows t df) = Some (l, p) ->
             fired t df
             = match filter (fun ty => rule_cond ty l p) table_order with
               | [] => [NEUTRAL]
               | ts => ts
               end).
  { intros l p E. unfold fired.
    rewrite (generate_detect _ _ E), detect_types, rule_types_filter.
    reflexivity. }
  split.
  - destruct (generate_cases t df) as [[_ E]|(l & p & E & _)].
    + unfold fired. rewrite E. constructor.
    + rewrite (Hf _ _ E).
      pose proof (NoDup_filter (fun ty => rule_cond ty l p) table_order_nodup) as Hn.
      destruct (filter (fun ty => rule_cond ty l p) table_order); [|exact Hn].
      constructor; [intros []|constructor].
  - intros l p E. split; [apply Hf, E|].
    pose proof (Hf _ _ E) as Hl. apply (f_equal (@length signal_type)) in Hl.
    unfold fired in Hl. rewrite length_map in Hl. rewrite Hl.
    pose proof (filter_length_le (fun ty => rule_cond ty l p) table_order) as Hb.
    change (length table_order) with 8%nat in Hb.
    destruct (filter (fun ty => rule_cond ty l p) table_order); simpl in *; lia.
Qed.

Lemma signals_in_table_order_witness :
  fired "AAA" busy_df = [GOLDEN_CROSS; RSI_OVERSOLD; BB_OVERSOLD].
Proof.
  rewrite (proj1 (proj2 (signals_in_table_order "AAA" busy_df) _ _ eq_refl)).
  reflexivity.
Defined.

End SignalExtra.

(* ================================================================== *)
(** ** Further properties of the risk engine *)

Module RiskExtra.
Import Risk RiskSpec RiskFacts RiskExtraSpec.



Lemma Qpos_nonzero (m : Q) : 0 < m -> (Qnum m =? 0)%Z = false.
Proof.
  intro H. destruct (Qnum m =? 0)%Z eqn:E; [|reflexivity].
  apply Qnum_zero_iff in E. rewrite E in H.
  exfalso. apply (Qlt_irrefl 0), H.
Qed.







Lemma map2_length (A B C : Type) (f : A -> B -> C) (l1 : list A) (l2 : list B) :
  length (map2 f l1 l2) = Nat.min (length l1) (length l2).
Proof.
  revert l2. induction l1 as [|a r IH]; intros [|b r2]; simpl; auto.
Qed.








End RiskExtra.

(* ================================================================== *)
(** ** Further properties of the indicator engine *)

Module IndicatorExtra.
Import Indicators IndicatorSpec IndicatorFacts.

Lemma map2_fsub_finite (a b : list Q) :
  Forall is_finite (map2 fsub (map Fin a) (map Fin b)).
Proof.
  revert b. induction a as [|x r IH]; intros [|y r']; simpl; constructor;
    [exact I | apply IH].
Qed.

Lemma diff_finite (cs : list Q) :
  Forall (fun x => x = NaN \/ is_finite x) (diff (map Fin cs)).
Proof.
  destruct cs as [|c r]; [constructor|].
  change (diff (map Fin (c :: r)))
    with (NaN :: map2 fsub (map Fin r) (map Fin (c :: r))).
  constructor; [left; reflexivity|].
  eapply Forall_impl; [|apply map2_fsub_finite]. intros x Hx. right. exact Hx.
Qed.

Lemma gain_raw_finite (cs : list Q) :
  Forall (fun x => is_finite x /\ nonneg x)
    (where_or_zero (fun d => fgtb d (Fin 0)) (delta (map Fin cs))).
Proof.
  unfold where_or_zero, delta. apply Forall_map.
  eapply Forall_impl; [|apply diff_finite]. intros d Hd. cbv beta in Hd.
  destruct d as [| | |x]; try (destruct Hd as [Hd|Hd]; [discriminate Hd|destruct Hd]).
  - split; [exact I | apply Qle_refl].
  - unfold fgtb. cbn [fltb]. destruct (Qltb 0 x) eqn:E.
    + split; [exact I|]. apply Qltb_lt in E. apply Qlt_le_weak, E.
    + split; [exact I | apply Qle_refl].
Qed.

Lemma loss_raw_finite (cs : list Q) :
  Forall (fun x => is_finite x /\ nonneg x)
    (map fneg (where_or_zero (fun d => fltb d (Fin 0)) (delta (map Fin cs)))).
Proof.
  unfold where_or_zero, delta. rewrite map_map. apply Forall_map.
  eapply Forall_impl; [|apply diff_finite]. intros d Hd. cbv beta in Hd.
  destruct d as [| | |x]; try (destruct Hd as [Hd|Hd]; [discriminate Hd|destruct Hd]).
  - split; [exact I | apply Qle_refl].
  - cbn [fltb]. destruct (Qltb x 0) eqn:E.
    + split; [exact I|]. apply Qltb_lt in E.
      cbn [fneg nonneg]. rewrite Qred_correct. lra.
    + split; [exact I | apply Qle_refl].
Qed.

(** A rolling mean of finite non-negative values is a finite non-negative
    number at every position that has a full window. *)
Lemma rolling_mean_finite (n : nat) (xs : list fval) (i : nat) :
  (0 < n)%nat -> Forall (fun x => is_finite x /\ nonneg x) xs ->
  (i < length xs)%nat -> (n <= S i)%nat ->
  exists m, nth i (rolling_mean n xs) NaN = Fin m /\ 0 <= m.
Proof.
  intros Hn H Hi Hni. unfold rolling_mean.
  assert (Hw : Forall (fun x => is_finite x /\ nonneg x) (window n i xs))
    by (apply Forall_window, H).
  assert (Hwf : Forall is_finite (window n i xs))
    by (eapply Forall_impl; [|exact Hw]; intros x [Hx _]; exact Hx).
  rewrite (@nth_rolling _ _ _ _ Hi Hwf).
  assert (E : (S i <? n)%nat = false) by (apply Nat.ltb_ge; exact Hni).
  rewrite E.
  unfold fmean, fsum.
  destruct (RiskFacts.fsum_from_nonneg Hw (Qle_refl 0)) as (s & -> & Hs).
  rewrite window_length by assumption.
  unfold of_nat, fdiv. rewrite (RiskFacts.of_nat_nonzero Hn).
  eexists. split; [reflexivity|].
  rewrite Qred_correct. apply Qle_shift_div_l.
  - unfold Qlt. simpl. lia.
  - rewrite Qmult_0_l. exact Hs.
Qed.

(** The RSI formula on two finite non-negative means that are not both
    zero. *)
Lemma rsi_of_closed_form (g l : Q) :
  0 <= g -> 0 <= l -> ~ (g == 0 /\ l == 0) ->
  exists q, rsi_of (Fin g) (Fin l) = Fin q /\ q == 100 * g / (g + l).
Proof.
  intros Hg Hl Hnz. unfold rsi_of. cbn [fdiv].
  destruct (Qnum l =? 0)%Z eqn:E.
  - apply RiskFacts.Qnum_zero_iff in E.
    assert (Hp : 0 < g).
    { apply Qle_lteq in Hg. destruct Hg as [Hg|Hg]; [exact Hg|].
      exfalso. apply Hnz. split; [symmetry; exact Hg | exact E]. }
    destruct (pos_num Hp) as (p & Hn). unfold Qsgn. rewrite Hn.
    exists 100. split; [reflexivity|]. rewrite E. field. lra.
  - assert (Hp : 0 < l).
    { apply Qle_lteq in Hl. destruct Hl as [Hl|Hl]; [exact Hl|].
      symmetry in Hl. apply RiskFacts.Qnum_zero_iff in Hl. congruence. }
    assert (Hr : 0 <= Qred (g / l)).
    { rewrite Qred_correct. apply Qle_shift_div_l; [exact Hp|]. lra. }
    destruct (rsi_formula_range Hr) as (q & Eq & _).
    exists q. split; [exact Eq|].
    cbn [fadd fdiv] in Eq.
    assert (Hp1 : 0 < Qred (1 + Qred (g / l))) by (rewrite Qred_correct; lra).
    rewrite (RiskExtra.Qpos_nonzero Hp1) in Eq. cbn [fsub] in Eq.
    assert (Eq' : q = Qred (100 - Qred (100 / Qred (1 + Qred (g / l)))))
      by congruence.
    rewrite Eq', !Qred_correct. field. split; lra.
Qed.

(** For finite closes, rsi_14 is missing on the first 13 rows.  From the
    14th row on, the 14-bar means of gains and losses are finite and
    non-negative (the missing first difference counts as no change); the
    RSI is missing when both are zero and is otherwise the finite number
    100 * gain / (gain + loss). *)
Theorem rsi_defined_from_14th_bar (cs : list Q) (i : nat) :
  (i < length cs)%nat ->
  let rsi := nth i (col_rsi_14 (_add_indicators (map Fin cs))) NaN in
  ((S i < 14)%nat -> rsi = NaN)
  /\ ((14 <= S i)%nat ->
      exists g l,
        nth i (gain (map Fin cs)) NaN = Fin g
        /\ nth i (loss (map Fin cs)) NaN = Fin l
        /\ 0 <= g /\ 0 <= l
        /\ (g == 0 /\ l == 0 -> rsi = NaN)
        /\ (~ (g == 0 /\ l == 0) ->
            exists q, rsi = Fin q /\ q == 100 * g / (g + l))).
Proof.
  intros Hi rsi.
  assert (E : rsi = rsi_of (nth i (gain (map Fin cs)) NaN)
                           (nth i (loss (map Fin cs)) NaN))
    by apply nth_rsi_14.
  assert (Hd : length (delta (map Fin cs)) = length cs).
  { unfold delta, diff. destruct cs as [|c r]; [reflexivity|].
    cbn [map length]. rewrite RiskExtra.map2_length.
    cbn [length]. rewrite !length_map. lia. }
  assert (Hig : (i < length (where_or_zero (fun d => fgtb d (Fin 0))
                               (delta (map Fin cs))))%nat).
  { unfold where_or_zero. rewrite length_map, Hd. exact Hi. }
  assert (Hil : (i < length (map fneg (where_or_zero (fun d => fltb d (Fin 0))
                                         (delta (map Fin cs)))))%nat).
  { unfold where_or_zero. rewrite !length_map, Hd. exact Hi. }
  split.
  - intro Hlt. rewrite E. unfold gain, rolling_mean.
    rewrite (@nth_rolling_raw _ _ _ _ Hig).
    assert (B : (S i <? 14)%nat = true) by (apply Nat.ltb_lt; exact Hlt).
    rewrite B. reflexivity.
  - intro Hge.
    destruct (@rolling_mean_finite 14 _ i ltac:(lia) (gain_raw_finite cs) Hig Hge)
      as (g & Eg & Hg).
    destruct (@rolling_mean_finite 14 _ i ltac:(lia) (loss_raw_finite cs) Hil Hge)
      as (l & El & Hl).
    fold (gain (map Fin cs)) in Eg. fold (loss (map Fin cs)) in El.
    exists g, l. rewrite E, Eg, El.
    split; [reflexivity|]. split; [reflexivity|].
    split; [exact Hg|]. split; [exact Hl|]. split.
    + intros [Zg Zl]. apply rsi_of_flat; simpl; apply RiskFacts.Qnum_zero_iff;
        assumption.
    + intro Hnz. apply rsi_of_closed_form; assumption.
Qed.

Lemma rsi_defined_from_14th_bar_witness :
  nth 12 (col_rsi_14 (_add_indicators (map Fin bars21))) NaN = NaN
  /\ exists g l,
       nth 13 (gain (map Fin bars21)) NaN = Fin g
       /\ nth 13 (loss (map Fin bars21)) NaN = Fin l.
Proof.
  assert (H12 : (12 < length bars21)%nat) by (vm_compute; lia).
  assert (H13 : (13 < length bars21)%nat) by (vm_compute; lia).
  split.
  - apply (proj1 (rsi_defined_from_14th_bar bars21 H12)). lia.
  - destruct (proj2 (rsi_defined_from_14th_bar bars21 H13))
      as (g & l & Eg & El & _); [lia|].
    exists g, l. split; assumption.
Defined.

End IndicatorExtra.

(* ================================================================== *)
(** ** Properties of the remaining indicator columns *)

Module IndicatorsFullFacts.
Import Indicators IndicatorFacts IndicatorsFull IndicatorsFullSpec.

(** *** Exponential moving averages *)

Lemma ewm_from_length (a : Q) (st : fval * Q) (xs : list fval) :
  length (ewm_from a st xs) = length xs.
Proof.
  revert st. induction xs as [|x r IH]; intro st; simpl; auto.
Qed.

Lemma ewm_mean_length (span : nat) (xs : list fval) :
  length (ewm_mean span xs) = length xs.
Proof.
  unfold ewm_mean. rewrite <- (length_map inf_to_nan xs).
  destruct (map inf_to_nan xs) as [|x r]; [reflexivity|].
  cbn [length]. rewrite ewm_from_length. reflexivity.
Qed.

(** A step from a mean and a value that both lie in [lo, hi] stays in
    [lo, hi]: the new mean is (1 - a) * mean + a * value. *)
Lemma ewm_step_between (a lo hi w c : Q) :
  0 < a -> a < 1 -> lo <= w /\ w <= hi -> lo <= c /\ c <= hi ->
  exists w', ewm_step a (Fin w, 1) (Fin c) = (Fin w', 1)
             /\ lo <= w' /\ w' <= hi.
Proof.
  intros Ha0 Ha1 [Hw1 Hw2] [Hc1 Hc2]. unfold ewm_step. cbn [notna].
  destruct (feqb (Fin w) (Fin c)).
  - exists w. repeat split; assumption.
  - cbn [fmul fadd fdiv].
    assert (Hden : 0 < Qred (1 * (1 - a) + a)) by (rewrite Qred_correct; lra).
    rewrite (RiskExtra.Qpos_nonzero Hden).
    eexists. split; [reflexivity|]. rewrite !Qred_correct.
    assert (Hd : 0 < 1 * (1 - a) + a) by lra.
    assert (P1 : 0 <= (1 - a) * (w - lo)) by (apply Qmult_le_0_compat; lra).
    assert (P2 : 0 <= a * (c - lo)) by (apply Qmult_le_0_compat; lra).
    assert (P3 : 0 <= (1 - a) * (hi - w)) by (apply Qmult_le_0_compat; lra).
    assert (P4 : 0 <= a * (hi - c)) by (apply Qmult_le_0_compat; lra).
    split.
    + apply Qle_shift_div_l; [exact Hd|]. lra.
    + apply Qle_shift_div_r; [exact Hd|]. lra.
Qed.

Lemma ewm_from_between (a lo hi w : Q) (xs : list fval) :
  0 < a -> a < 1 -> lo <= w /\ w <= hi ->
  Forall (between lo hi) xs ->
  Forall (between lo hi) (ewm_from a (Fin w, 1) xs).
Proof.
  intros Ha0 Ha1 Hw H. revert w Hw.
  induction H as [|x r Hx _ IH]; intros w Hw; cbn [ewm_from]; [constructor|].
  destruct x as [| | |c]; cbn [between] in Hx; try contradiction.
  destruct (ewm_step_between Ha0 Ha1 Hw Hx) as (w' & -> & Hw').
  constructor; [exact Hw' | apply IH, Hw'].
Qed.

Lemma ewm_mean_between (span : nat) (lo hi : Q) (xs : list fval) :
  0 < alpha span -> alpha span < 1 ->
  Forall (between lo hi) xs -> Forall (between lo hi) (ewm_mean span xs).
Proof.
  intros Ha0 Ha1 H. unfold ewm_mean.
  assert (Hf : Forall is_finite xs).
  { eapply Forall_impl; [|exact H]. intros x Hx. destruct x; try contradiction.
    exact I. }
  rewrite (proj1 (IndicatorFacts.finite_window Hf)).
  destruct H as [|x r Hx Hr]; [constructor|].
  constructor; [exact Hx|].
  destruct x as [| | |c]; cbn [between] in Hx; try contradiction.
  apply ewm_from_between; assumption.
Qed.

Lemma map2_fsub_between (lo hi : Q) (l1 l2 : list fval) :
  Forall (between lo hi) l1 -> Forall (between lo hi) l2 ->
  Forall (between (lo - hi) (hi - lo)) (map2 fsub l1 l2).
Proof.
  intro H. revert l2. induction H as [|x r Hx _ IH]; intros l2 H2;
    [constructor|].
  destruct H2 as [|y r2 Hy Hr2]; [constructor|]. cbn [map2].
  constructor; [|apply IH, Hr2].
  destruct x as [| | |p]; cbn [between] in Hx; try contradiction.
  destruct y as [| | |q]; cbn [between] in Hy; try contradiction.
  cbn [fsub between]. rewrite Qred_correct. split; lra.
Qed.

Lemma closes_between (lo hi : Q) (cs : list Q) :
  Forall (fun c => lo <= c /\ c <= hi) cs ->
  Forall (between lo hi) (map Fin cs).
Proof.
  intro H. apply Forall_map. eapply Forall_impl; [|exact H].
  intros c Hc. exact Hc.
Qed.

(** For finite closes that all lie in [lo, hi], the MACD and its signal
    line are defined on every row, from the first one, and both lie within
    the width of that range: between lo - hi and hi - lo.  On a flat price
    (lo = hi) they are zero on every row. *)
Theorem macd_within_price_range (cs : list Q) (lo hi : Q) :
  Forall (fun c => lo <= c /\ c <= hi) cs ->
  length (macd (map Fin cs)) = length cs
  /\ length (macd_signal (map Fin cs)) = length cs
  /\ Forall (between (lo - hi) (hi - lo)) (macd (map Fin cs))
  /\ Forall (between (lo - hi) (hi - lo)) (macd_signal (map Fin cs)).
Proof.
  intro H. pose proof (closes_between H) as Hb.
  assert (Hm : Forall (between (lo - hi) (hi - lo)) (macd (map Fin cs))).
  { unfold macd, ema_12, ema_26.
    apply map2_fsub_between; apply ewm_mean_between;
      try exact Hb; reflexivity. }
  assert (Lm : length (macd (map Fin cs)) = length cs).
  { unfold macd, ema_12, ema_26.
    rewrite RiskExtra.map2_length, !ewm_mean_length, length_map. lia. }
  split; [exact Lm|]. split.
  - unfold macd_signal. rewrite ewm_mean_length. exact Lm.
  - split; [exact Hm|]. unfold macd_signal.
    apply ewm_mean_between; try exact Hm; reflexivity.
Qed.

Lemma macd_within_price_range_witness :
  Forall (between (100 - 100) (100 - 100)) (macd (map Fin [100; 100; 100]))
  /\ Forall (between (100 - 102) (102 - 100)) (macd_signal (map Fin zigzag22)).
Proof.
  split.
  - apply (@macd_within_price_range [100; 100; 100] 100 100).
    repeat constructor; discriminate.
  - apply (@macd_within_price_range zigzag22 100 102).
    apply Forall_forall. intros c Hc. unfold zigzag22 in Hc.
    apply in_flat_map in Hc. destruct Hc as (k & _ & Hk). simpl in Hk.
    destruct Hk as [<-|[<-|[]]]; split; discriminate.
Defined.

(** *** Bollinger bands *)

Section WithSqrt.
Variable sqrtQ : Q -> Q.
Hypothesis sqrtQ_nonneg : forall q, 0 <= sqrtQ q.

Lemma nth_rolling_early (n : nat) (agg : list fval -> fval) (xs : list fval)
      (i : nat) :
  (S i < n)%nat -> nth i (rolling n agg xs) NaN = NaN.
Proof.
  intro H. destruct (Nat.lt_ge_cases i (length xs)) as [Hi|Hi].
  - rewrite (@IndicatorFacts.nth_rolling_raw _ _ _ _ Hi).
    apply Nat.ltb_lt in H. rewrite H. reflexivity.
  - apply nth_overflow. rewrite rolling_length. exact Hi.
Qed.

(** The rolling sample deviation of finite values is a finite non-negative
    number at every position that has a full window. *)
Lemma rolling_std_finite (n : nat) (xs : list fval) (i : nat) :
  (2 <= n)%nat -> Forall is_finite xs ->
  (i < length xs)%nat -> (n <= S i)%nat ->
  exists s, nth i (rolling n (Risk.series_std sqrtQ) xs) NaN = Fin s /\ 0 <= s.
Proof.
  intros Hn H Hi Hni.
  assert (Hw : Forall is_finite (window n i xs)) by (apply Forall_window, H).
  rewrite (@nth_rolling _ _ _ _ Hi Hw).
  assert (E : (S i <? n)%nat = false) by (apply Nat.ltb_ge; exact Hni).
  rewrite E.
  assert (Hl : (2 <= length (window n i xs))%nat).
  { rewrite window_length by assumption. exact Hn. }
  destruct (RiskFacts.series_var_finite Hw Hl) as (v & Ev & Hv).
  unfold Risk.series_std. rewrite Ev. cbn [Risk.fsqrt].
  assert (B : Qltb v 0 = false) by (apply Qltb_ge, Hv).
  rewrite B. eexists. split; [reflexivity|].
  rewrite Qred_correct. apply sqrtQ_nonneg.
Qed.

Lemma nth_map_nan (f : fval -> fval) (xs : list fval) (i : nat) :
  f NaN = NaN -> nth i (map f xs) NaN = f (nth i xs NaN).
Proof.
  intro H. rewrite <- H at 1. apply map_nth.
Qed.

Lemma nth_bb_upper (close : list fval) (i : nat) :
  nth i (bb_upper sqrtQ close) NaN
  = fadd (nth i (rolling_mean 20 close) NaN)
         (fmul (nth i (std_20 sqrtQ close) NaN) (Fin 2)).
Proof.
  unfold bb_upper.
  rewrite (@nth_map2 _ _ _ fadd NaN NaN NaN); [|
    unfold rolling_mean, std_20; rewrite length_map, !rolling_length;
    reflexivity | reflexivity].
  rewrite nth_map_nan by reflexivity. reflexivity.
Qed.

Lemma nth_bb_lower (close : list fval) (i : nat) :
  nth i (bb_lower sqrtQ close) NaN
  = fsub (nth i (rolling_mean 20 close) NaN)
         (fmul (nth i (std_20 sqrtQ close) NaN) (Fin 2)).
Proof.
  unfold bb_lower.
  rewrite (@nth_map2 _ _ _ fsub NaN NaN NaN); [|
    unfold rolling_mean, std_20; rewrite length_map, !rolling_length;
    reflexivity | reflexivity].
  rewrite nth_map_nan by reflexivity. reflexivity.
Qed.

End WithSqrt.

(** For finite closes and a square root that is never negative: the three
    Bollinger columns are missing on the first 19 rows of a ticker, and
    from the 20th row on they are finite with
    bb_lower <= bb_middle <= bb_upper, the middle band being the 20-bar
    mean and the two outer bands lying at the same distance from it. *)
Theorem bollinger_bands_ordered (sqrtQ : Q -> Q) (cs : list Q) (i : nat) :
  (forall q, 0 <= sqrtQ q) ->
  (i < length cs)%nat ->
  let close := map Fin cs in
  ((S i < 20)%nat ->
   nth i (bb_lower sqrtQ close) NaN = NaN
   /\ nth i (bb_middle close) NaN = NaN
   /\ nth i (bb_upper sqrtQ close) NaN = NaN)
  /\ ((20 <= S i)%nat ->
      exists lo mid up,
        nth i (bb_lower sqrtQ close) NaN = Fin lo
        /\ nth i (bb_middle close) NaN = Fin mid
        /\ nth i (bb_upper sqrtQ close) NaN = Fin up
        /\ nth i (sma 20 close) NaN = Fin mid
        /\ lo <= mid /\ mid <= up /\ up - mid == mid - lo).
Proof.
  intros Hs Hi close.
  assert (Hi' : (i < length close)%nat) by (unfold close; rewrite length_map; exact Hi).
  assert (Hf : Forall is_finite close).
  { unfold close. apply Forall_map, Forall_forall. intros x _. exact I. }
  split.
  - intro Hlt. rewrite nth_bb_lower, nth_bb_upper. unfold bb_middle, std_20.
    unfold rolling_mean. rewrite !nth_rolling_early by exact Hlt.
    repeat split; reflexivity.
  - intro Hge.
    destruct (@rolling_std_finite sqrtQ Hs 20 close i ltac:(lia) Hf Hi' Hge)
      as (s & Es & Hs0).
    destruct (@sma_finite_iff 20 cs i ltac:(lia) Hi) as [[_ Hm] _].
    specialize (Hm Hge). fold close in Hm. unfold sma in Hm.
    destruct (nth i (rolling_mean 20 close) NaN) as [| | |mid] eqn:Em;
      try contradiction.
    rewrite nth_bb_lower, nth_bb_upper. unfold bb_middle, std_20, sma.
    rewrite Em, Es. cbn [fmul fadd fsub].
    eexists _, mid, _. repeat split; try reflexivity;
      rewrite !Qred_correct; try lra.
Qed.

Lemma bollinger_bands_ordered_witness :
  exists lo mid up,
    nth 20 (bb_lower Risk.Qsqrt_up (map Fin zigzag22)) NaN = Fin lo
    /\ nth 20 (bb_upper Risk.Qsqrt_up (map Fin zigzag22)) NaN = Fin up
    /\ lo <= mid /\ mid <= up.
Proof.
  assert (Hs : forall q, 0 <= Risk.Qsqrt_up q).
  { intro q. unfold Risk.Qsqrt_up, Qle. simpl.
    pose proof (Z.sqrt_up_nonneg
                  (Qnum q * Zpos (Qden q) * Zpos Risk.sqrt_scale
                   * Zpos Risk.sqrt_scale)).
    lia. }
  assert (Hi : (20 < length zigzag22)%nat) by (vm_compute; lia).
  destruct (proj2 (@bollinger_bands_ordered Risk.Qsqrt_up zigzag22 20 Hs Hi))
    as (lo & mid & up & El & _ & Eu & _ & H1 & H2 & _); [lia|].
  exists lo, mid, up. repeat split; assumption.
Defined.

(** *** Daily returns and the 30-day volatility *)

Lemma nth_map2_lt (A B C : Type) (f : A -> B -> C) (da : A) (db : B) (dc : C)
      (l1 : list A) (l2 : list B) (i : nat) :
  (i < length l1)%nat -> (i < length l2)%nat ->
  nth i (map2 f l1 l2) dc = f (nth i l1 da) (nth i l2 db).
Proof.
  revert l2 i. induction l1 as [|a r1 IH]; intros [|b r2] i H1 H2;
    simpl in *; try lia.
  destruct i as [|i]; [reflexivity|]. apply IH; lia.
Qed.

Lemma pct_tail_finite (curs prevs : list Q) :
  Forall (fun c => ~ c == 0) prevs ->
  Forall is_finite
    (map2 (fun cur prev => fsub (fdiv cur prev) (Fin 1))
          (map Fin curs) (map Fin prevs)).
Proof.
  intro H. revert curs. induction H as [|p r Hp _ IH]; intros [|c curs];
    cbn [map map2]; constructor; [|apply IH].
  cbv beta in Hp. cbn [fdiv].
  assert (E : (Qnum p =? 0)%Z = false).
  { destruct (Qnum p =? 0)%Z eqn:E; [|reflexivity].
    apply RiskFacts.Qnum_zero_iff in E. contradiction. }
  rewrite E. exact I.
Qed.

(** The returns of [n] finite non-zero closes: a missing first value
    followed by [n - 1] finite ones. *)
Lemma pct_change_shape (cs : list Q) :
  Forall (fun c => ~ c == 0) cs ->
  cs = [] /\ pct_change (map Fin cs) = []
  \/ exists tl, pct_change (map Fin cs) = NaN :: tl
                /\ Forall is_finite tl /\ S (length tl) = length cs.
Proof.
  intro H. destruct cs as [|c r]; [left; split; reflexivity|]. right.
  exists (map2 (fun cur prev => fsub (fdiv cur prev) (Fin 1))
               (map Fin r) (map Fin (c :: r))).
  split; [reflexivity|]. split.
  - apply (pct_tail_finite r H).
  - rewrite RiskExtra.map2_length, !length_map. cbn [length]. lia.
Qed.

Lemma dropna_finite (xs : list fval) : Forall is_finite xs -> dropna xs = xs.
Proof.
  induction 1 as [|x r Hx _ IH]; [reflexivity|].
  destruct x; try contradiction. unfold dropna in *. simpl. rewrite IH.
  reflexivity.
Qed.

Lemma valid_returns_count (cs : list Q) :
  Forall (fun c => ~ c == 0) cs ->
  length (dropna (pct_change (map Fin cs))) = (length cs - 1)%nat.
Proof.
  intro H. destruct (pct_change_shape H) as [[-> ->]|(tl & -> & Hf & Hl)];
    [reflexivity|].
  change (dropna (NaN :: tl)) with (dropna tl).
  rewrite (dropna_finite Hf). lia.
Qed.

Section Volatility.
Variable sqrtQ : Q -> Q.
Hypothesis sqrtQ_nonneg : forall q, 0 <= sqrtQ q.

Lemma rolling_std_window (n : nat) (xs : list fval) (i : nat) :
  (2 <= n)%nat -> Forall is_finite (window n i xs) ->
  (i < length xs)%nat -> (n <= S i)%nat ->
  exists s, nth i (rolling n (Risk.series_std sqrtQ) xs) NaN = Fin s /\ 0 <= s.
Proof.
  intros Hn Hw Hi Hni. rewrite (@nth_rolling _ _ _ _ Hi Hw).
  assert (E : (S i <? n)%nat = false) by (apply Nat.ltb_ge; exact Hni).
  rewrite E.
  assert (Hl : (2 <= length (window n i xs))%nat).
  { rewrite window_length by assumption. exact Hn. }
  destruct (RiskFacts.series_var_finite Hw Hl) as (v & Ev & Hv).
  unfold Risk.series_std. rewrite Ev. cbn [Risk.fsqrt].
  assert (B : Qltb v 0 = false) by (apply Qltb_ge, Hv).
  rewrite B. eexists. split; [reflexivity|].
  rewrite Qred_correct. apply sqrtQ_nonneg.
Qed.

Lemma nth_volatility (close : list fval) (i : nat) :
  nth i (volatility_30d sqrtQ close) NaN
  = fmul (nth i (rolling 30 (Risk.series_std sqrtQ) (daily_return close)) NaN)
         (Risk.fsqrt sqrtQ (Fin 252)).
Proof.
  unfold volatility_30d. apply nth_map_nan. reflexivity.
Qed.

End Volatility.

(** For finite non-zero closes and a square root that is never negative:
    daily_return is missing on the first row of a ticker only, and on every
    later row it is close / previous close - 1; volatility_30d is missing on
    the first 30 rows (it needs 30 returns, hence 31 bars) and is a finite
    non-negative number from the 31st row on. *)
Theorem returns_and_volatility (sqrtQ : Q -> Q) (cs : list Q) (i : nat) :
  (forall q, 0 <= sqrtQ q) ->
  Forall (fun c => ~ c == 0) cs ->
  (i < length cs)%nat ->
  let close := map Fin cs in
  (i = 0%nat -> nth i (daily_return close) NaN = NaN)
  /\ ((0 < i)%nat ->
      exists q, nth i (daily_return close) NaN = Fin q
                /\ q == nth i cs 0 / nth (i - 1) cs 0 - 1)
  /\ ((S i <= 30)%nat -> nth i (volatility_30d sqrtQ close) NaN = NaN)
  /\ ((31 <= S i)%nat ->
      exists v, nth i (volatility_30d sqrtQ close) NaN = Fin v /\ 0 <= v).
Proof.
  intros Hs Hnz Hi close.
  destruct cs as [|c r]; [simpl in Hi; lia|].
  assert (Hd : daily_return close
               = NaN :: map2 (fun cur prev => fsub (fdiv cur prev) (Fin 1))
                             (map Fin r) (map Fin (c :: r))) by reflexivity.
  pose proof (pct_tail_finite r Hnz) as Hf.
  set (tl := map2 (fun cur prev => fsub (fdiv cur prev) (Fin 1))
                  (map Fin r) (map Fin (c :: r))) in *.
  assert (Hl : length tl = length r).
  { unfold tl. rewrite RiskExtra.map2_length, !length_map.
    cbn [length]. lia. }
  assert (Hlen : length (daily_return close) = length (c :: r)).
  { rewrite Hd. cbn [length]. rewrite Hl. reflexivity. }
  split; [|split; [|split]].
  - intros ->. rewrite Hd. reflexivity.
  - intro Hpos. destruct i as [|j]; [lia|]. rewrite Hd. cbn [nth].
    cbn [length] in Hi.
    unfold tl. rewrite (@nth_map2_lt _ _ _ _ NaN NaN NaN)
      by (rewrite ?length_map; cbn [length]; lia).
    rewrite RiskFacts.nth_map_Fin by lia.
    rewrite RiskFacts.nth_map_Fin by (cbn [length]; lia).
    assert (Hp : ~ nth j (c :: r) 0 == 0).
    { rewrite Forall_forall in Hnz. apply Hnz. apply nth_In.
      cbn [length]. lia. }
    cbn [fdiv].
    assert (E : (Qnum (nth j (c :: r) 0%Q) =? 0)%Z = false).
    { destruct (Qnum (nth j (c :: r) 0%Q) =? 0)%Z eqn:E; [|reflexivity].
      apply RiskFacts.Qnum_zero_iff in E. contradiction. }
    rewrite E. cbn [fsub]. eexists. split; [reflexivity|].
    rewrite !Qred_correct.
    replace (S j - 1)%nat with j by lia. reflexivity.
  - intro Hle. rewrite nth_volatility.
    destruct (Nat.eq_dec (S i) 30) as [E30|N30].
    + assert (Hi' : (i < length (daily_return close))%nat) by (rewrite Hlen; exact Hi).
      rewrite (@nth_rolling_raw _ _ _ _ Hi').
      assert (B : (S i <? 30)%nat = false) by (apply Nat.ltb_ge; lia).
      rewrite B. unfold window.
      replace (S i - 30)%nat with 0%nat by lia.
      rewrite Hd. reflexivity.
    + rewrite nth_rolling_early by lia. reflexivity.
  - intro Hge. rewrite nth_volatility.
    assert (Hi' : (i < length (daily_return close))%nat) by (rewrite Hlen; exact Hi).
    assert (Hw : Forall is_finite (window 30 i (daily_return close))).
    { unfold window. apply Forall_firstn. rewrite Hd.
      replace (S i - 30)%nat with (S (i - 30)) by lia.
      cbn [skipn]. apply Forall_skipn, Hf. }
    destruct (@rolling_std_window sqrtQ Hs 30 _ i ltac:(lia) Hw Hi' ltac:(lia))
      as (s & -> & Hs0).
    cbn [Risk.fsqrt].
    change (Qltb 252 0) with false. cbn [fmul].
    eexists. split; [reflexivity|]. rewrite !Qred_correct.
    apply Qmult_le_0_compat; [exact Hs0 | apply Hs].
Qed.

Lemma returns_and_volatility_witness :
  nth 0 (daily_return (map Fin zigzag22)) NaN = NaN
  /\ nth 21 (volatility_30d Risk.Qsqrt_up (map Fin zigzag22)) NaN = NaN.
Proof.
  assert (Hs : forall q, 0 <= Risk.Qsqrt_up q).
  { intro q. unfold Risk.Qsqrt_up, Qle. simpl.
    pose proof (Z.sqrt_up_nonneg
                  (Qnum q * Zpos (Qden q) * Zpos Risk.sqrt_scale
                   * Zpos Risk.sqrt_scale)).
    lia. }
  assert (Hnz : Forall (fun c => ~ c == 0) zigzag22).
  { apply Forall_forall. intros c Hc. unfold zigzag22 in Hc.
    apply in_flat_map in Hc. destruct Hc as (k & _ & Hk). simpl in Hk.
    destruct Hk as [<-|[<-|[]]]; discriminate. }
  assert (H0 : (0 < length zigzag22)%nat) by (vm_compute; lia).
  assert (H21 : (21 < length zigzag22)%nat) by (vm_compute; lia).
  split.
  - apply (proj1 (@returns_and_volatility Risk.Qsqrt_up zigzag22 0 Hs Hnz H0)).
    reflexivity.
  - apply (proj1 (proj2 (proj2
             (@returns_and_volatility Risk.Qsqrt_up zigzag22 21 Hs Hnz H21)))).
    lia.
Defined.

End IndicatorsFullFacts.

(* ================================================================== *)
(** ** Properties of the per-ticker loop of the indicator engine *)

Lemma string_leb_trans (a b c : string) :
  String.leb a b = true -> String.leb b c = true -> String.leb a c = true.
Proof.
  unfold String.leb. revert b c.
  induction a as [|x a IH]; intros [|y b] [|z c]; simpl; try congruence.
  unfold Ascii.compare.
  destruct (N.compare_spec (N_of_ascii x) (N_of_ascii y));
    destruct (N.compare_spec (N_of_ascii y) (N_of_ascii z));
    destruct (N.compare_spec (N_of_ascii x) (N_of_ascii z));
    try congruence; try (exfalso; lia).
  apply IH.
Qed.

Section TotalPreorderSort.
Context {A : Type} (leb : A -> A -> bool).
Hypothesis leb_total : forall a b, leb a b = true \/ leb b a = true.
Hypothesis leb_trans :
  forall a b c, leb a b = true -> leb b c = true -> leb a c = true.

Local Abbreviation le := (fun a b : A => leb a b = true).

Lemma insert_preorder_sorted (x : A) (l : list A) :
  StronglySorted le l -> StronglySorted le (insert_sorted leb x l).
Proof.
  induction 1 as [|y r Hs IH Hy]; simpl.
  - constructor; constructor.
  - destruct (leb y x) eqn:E.
    + constructor; [exact IH|].
      apply Forall_forall. intros z Hz. apply insert_sorted_in in Hz.
      destruct Hz as [->|Hz]; [exact E|].
      rewrite Forall_forall in Hy. apply Hy, Hz.
    + assert (Hxy : leb x y = true).
      { destruct (leb_total x y) as [H|H]; [exact H | congruence]. }
      constructor.
      * constructor; assumption.
      * constructor; [exact Hxy|].
        eapply Forall_impl; [|exact Hy]. cbv beta.
        intros z Hz. eapply leb_trans; eassumption.
Qed.

Lemma isort_from_preorder_sorted (l acc : list A) :
  StronglySorted le acc ->
  StronglySorted le (fold_left (fun acc x => insert_sorted leb x acc) l acc).
Proof.
  revert acc. induction l as [|x r IH]; intros acc H; simpl; [exact H|].
  apply IH, insert_preorder_sorted, H.
Qed.

Lemma isort_preorder_sorted (l : list A) : StronglySorted le (isort leb l).
Proof. apply isort_from_preorder_sorted. constructor. Qed.
End TotalPreorderSort.

Section SortedLists.
Context {A : Type}.

Lemma StronglySorted_filter (R : A -> A -> Prop) (f : A -> bool) (l : list A) :
  StronglySorted R l -> StronglySorted R (filter f l).
Proof.
  induction 1 as [|a r Hs IH Ha]; simpl; [constructor|].
  destruct (f a); [|exact IH].
  constructor; [exact IH|].
  apply Forall_forall. intros x Hx. apply filter_In in Hx.
  rewrite Forall_forall in Ha. apply Ha, Hx.
Qed.

Lemma StronglySorted_weaken (R R' : A -> A -> Prop) (l : list A) :
  (forall a b, In a l -> In b l -> R a b -> R' a b) ->
  StronglySorted R l -> StronglySorted R' l.
Proof.
  intros Hw H. induction H as [|a r Hs IH Ha]; [constructor|].
  constructor.
  - apply IH. intros x y Hx Hy. apply Hw; right; assumption.
  - apply Forall_forall. intros x Hx. rewrite Forall_forall in Ha.
    apply Hw; [left; reflexivity | right; exact Hx | apply Ha, Hx].
Qed.

Lemma filter_insert_length (leb : A -> A -> bool) (f : A -> bool) (x : A)
      (l : list A) :
  length (filter f (insert_sorted leb x l)) = length (filter f (x :: l)).
Proof.
  induction l as [|y r IH]; [reflexivity|]. cbn [insert_sorted].
  destruct (leb y x); [|reflexivity].
  cbn [filter] in *. destruct (f y), (f x); cbn [length] in *; lia.
Qed.

Lemma filter_isort_from_length (leb : A -> A -> bool) (f : A -> bool)
      (l acc : list A) :
  length (filter f (fold_left (fun acc x => insert_sorted leb x acc) l acc))
  = (length (filter f acc) + length (filter f l))%nat.
Proof.
  revert acc. induction l as [|x r IH]; intro acc; cbn [fold_left].
  - simpl. lia.
  - rewrite IH, filter_insert_length. cbn [filter].
    destruct (f x); cbn [length]; lia.
Qed.

Lemma filter_isort_length (leb : A -> A -> bool) (f : A -> bool) (l : list A) :
  length (filter f (isort leb l)) = length (filter f l).
Proof. unfold isort. rewrite filter_isort_from_length. reflexivity. Qed.
End SortedLists.

Section GroupedByKey.
Context {B : Type} (key : B -> string) (f : string -> list B).
Hypothesis f_key : forall u r, In r (f u) -> key r = u.

Lemma filter_own_group (u : string) :
  filter (fun r => String.eqb (key r) u) (f u) = f u.
Proof.
  pose proof (f_key u) as H. induction (f u) as [|r l IH]; [reflexivity|].
  simpl. rewrite (H r (or_introl eq_refl)), String.eqb_refl.
  f_equal. apply IH. intros x Hx. apply H. right. exact Hx.
Qed.

Lemma filter_other_group (t u : string) :
  u <> t -> filter (fun r => String.eqb (key r) t) (f u) = [].
Proof.
  intro Hne. pose proof (f_key u) as H.
  induction (f u) as [|r l IH]; [reflexivity|].
  simpl. rewrite (H r (or_introl eq_refl)).
  apply String.eqb_neq in Hne. rewrite Hne.
  apply IH. intros x Hx. apply H. right. exact Hx.
Qed.

Lemma filter_groups (t : string) (us : list string) :
  NoDup us ->
  filter (fun r => String.eqb (key r) t) (flat_map f us)
  = if in_dec string_dec t us then f t else [].
Proof.
  induction 1 as [|u r Hu Hnd IH]; [reflexivity|].
  cbn [flat_map]. rewrite filter_app, IH.
  destruct (string_dec u t) as [->|Hne].
  - rewrite filter_own_group.
    destruct (in_dec string_dec t r) as [Hin|_]; [contradiction|].
    destruct (in_dec string_dec t (t :: r)) as [_|Hn]; [apply app_nil_r|].
    exfalso. apply Hn. left. reflexivity.
  - rewrite (filter_other_group Hne). cbn [app].
    destruct (in_dec string_dec t r) as [Hin|Hn];
      destruct (in_dec string_dec t (u :: r)) as [Hin'|Hn']; try reflexivity.
    + exfalso. apply Hn'. right. exact Hin.
    + destruct Hin' as [->|Hin']; [congruence | contradiction].
Qed.
End GroupedByKey.

Module AllIndicatorsFacts.
Import IndicatorsFull IndicatorsFullSpec IndicatorsFullFacts.

Lemma ticker_date_leb_total (a b : price_row) :
  ticker_date_leb a b = true \/ ticker_date_leb b a = true.
Proof.
  unfold ticker_date_leb. rewrite (String.eqb_sym (p_ticker b)).
  destruct (String.eqb (p_ticker a) (p_ticker b)).
  - rewrite !Z.leb_le. lia.
  - apply String.leb_total.
Qed.

Lemma ticker_date_leb_trans (a b c : price_row) :
  ticker_date_leb a b = true -> ticker_date_leb b c = true ->
  ticker_date_leb a c = true.
Proof.
  unfold ticker_date_leb.
  destruct (String.eqb_spec (p_ticker a) (p_ticker b)) as [Eab|Nab];
    destruct (String.eqb_spec (p_ticker b) (p_ticker c)) as [Ebc|Nbc];
    destruct (String.eqb_spec (p_ticker a) (p_ticker c)) as [Eac|Nac];
    try congruence.
  - rewrite !Z.leb_le. lia.
  - intros H1 H2. exfalso. apply Nab. rewrite <- Eac in H2.
    apply String.leb_antisym; assumption.
  - apply string_leb_trans.
Qed.

Lemma sorted_frame (df : list price_row) :
  StronglySorted (fun a b => ticker_date_leb a b = true)
                 (isort ticker_date_leb df).
Proof.
  apply isort_preorder_sorted;
    [apply ticker_date_leb_total | apply ticker_date_leb_trans].
Qed.

(** *** Rows built from columns *)

Lemma map_snd_combine_seq (A : Type) (l : list A) (s : nat) :
  map snd (combine (seq s (length l)) l) = l.
Proof.
  revert s. induction l as [|x r IH]; intro s; [reflexivity|].
  cbn [length seq combine map snd]. rewrite IH. reflexivity.
Qed.

Lemma column_of_rows (A : Type) (col : list fval) (l : list A) (s : nat) :
  (s + length l <= length col)%nat ->
  map (fun ir : nat * A => nth (fst ir) col NaN) (combine (seq s (length l)) l)
  = firstn (length l) (skipn s col).
Proof.
  revert s. induction l as [|x r IH]; intros s H; [reflexivity|].
  cbn [length seq combine map fst] in *. rewrite IH by lia.
  assert (Hs : (s < length col)%nat) by lia.
  clear IH H. revert s Hs. induction col as [|c col IHc]; intros s Hs;
    [simpl in Hs; lia|].
  destruct s as [|s]; [reflexivity|].
  cbn [nth skipn]. cbn [length] in Hs. apply IHc. lia.
Qed.

Section WithSqrt.
Variable sqrtQ : Q -> Q.

Lemma add_indicators_prices (df : list price_row) :
  map price (_add_indicators sqrtQ df) = df.
Proof.
  unfold _add_indicators. rewrite map_map.
  transitivity (map snd (combine (seq 0 (length df)) df)).
  - apply map_ext. intros [i r]. reflexivity.
  - apply map_snd_combine_seq.
Qed.

Lemma add_indicators_length (df : list price_row) :
  length (_add_indicators sqrtQ df) = length df.
Proof.
  rewrite <- (add_indicators_prices df) at 2. rewrite length_map. reflexivity.
Qed.

Lemma pct_change_length (xs : list fval) : length (pct_change xs) = length xs.
Proof.
  destruct xs as [|x r]; [reflexivity|]. cbn [pct_change length].
  rewrite RiskExtra.map2_length. cbn [length]. lia.
Qed.

Lemma add_indicators_returns (df : list price_row) :
  map i_daily_return (_add_indicators sqrtQ df)
  = daily_return (map p_close df).
Proof.
  unfold _add_indicators. rewrite map_map.
  set (col := daily_return (map p_close df)).
  assert (Hl : length col = length df).
  { unfold col, daily_return. rewrite pct_change_length, length_map.
    reflexivity. }
  transitivity (map (fun ir : nat * price_row => nth (fst ir) col NaN)
                    (combine (seq 0 (length df)) df)).
  - apply map_ext. intros [i r]. reflexivity.
  - rewrite column_of_rows by lia. cbn [skipn]. rewrite <- Hl.
    apply firstn_all.
Qed.

(** The loop appends one frame per ticker and the frames are
    concatenated. *)
Lemma indicators_loop (df : list price_row) (us : list string)
      (acc : list (list indicator_row)) :
  fold_left (indicators_step sqrtQ df) us acc
  = acc ++ map (fun t => _add_indicators sqrtQ
                           (filter (fun r => String.eqb (p_ticker r) t) df))
               us.
Proof.
  revert acc. induction us as [|u r IH]; intro acc; cbn [fold_left map].
  - symmetry. apply app_nil_r.
  - rewrite IH. unfold indicators_step. rewrite <- app_assoc. reflexivity.
Qed.

Lemma calculate_all_flat_map (df : list price_row) :
  all_rows sqrtQ df
  = flat_map (fun t => _add_indicators sqrtQ
                         (filter (fun r => String.eqb (p_ticker r) t)
                                 (isort ticker_date_leb df)))
             (unique (map p_ticker (isort ticker_date_leb df))).
Proof.
  unfold all_rows, indicator_frames. cbv zeta. rewrite indicators_loop.
  cbn [app]. symmetry. apply flat_map_concat_map.
Qed.

(** The loop leaves no frame exactly when the price frame has no row. *)
Lemma indicator_frames_nil (df : list price_row) :
  indicator_frames sqrtQ df = [] <-> df = [].
Proof.
  unfold indicator_frames. cbv zeta. rewrite indicators_loop. cbn [app].
  split.
  - intro E. apply map_eq_nil in E.
    destruct df as [|r df]; [reflexivity|]. exfalso.
    assert (Hin : In (p_ticker r)
                     (unique (map p_ticker (isort ticker_date_leb (r :: df))))).
    { apply RiskFacts.unique_in, in_map, isort_in. left. reflexivity. }
    rewrite E in Hin. exact Hin.
  - intros ->. reflexivity.
Qed.

Lemma calculate_all_some (df : list price_row) :
  df <> [] -> calculate_all_indicators sqrtQ df = Some (all_rows sqrtQ df).
Proof.
  intro H. unfold calculate_all_indicators, all_rows.
  destruct (indicator_frames sqrtQ df) eqn:E; [|reflexivity].
  exfalso. apply H, indicator_frames_nil, E.
Qed.

Lemma calculate_all_none (df : list price_row) :
  calculate_all_indicators sqrtQ df = None <-> df = [].
Proof.
  unfold calculate_all_indicators.
  destruct (indicator_frames sqrtQ df) eqn:E.
  - split; [intros _; apply indicator_frames_nil, E | reflexivity].
  - split; [discriminate|]. intro H. apply indicator_frames_nil in H.
    congruence.
Qed.

Lemma calculate_all_inv (df : list price_row) (out : list indicator_row) :
  calculate_all_indicators sqrtQ df = Some out ->
  df <> [] /\ out = all_rows sqrtQ df.
Proof.
  intro H.
  assert (Hne : df <> []).
  { intro E. apply calculate_all_none in E. congruence. }
  split; [exact Hne|]. rewrite (calculate_all_some Hne) in H. congruence.
Qed.

Lemma block_ticker (df : list price_row) (u : string) (r : indicator_row) :
  In r (_add_indicators sqrtQ (filter (fun x => String.eqb (p_ticker x) u) df)) ->
  p_ticker (price r) = u.
Proof.
  intro H. apply (in_map price) in H. rewrite add_indicators_prices in H.
  apply filter_In in H. destruct H as [_ H]. apply String.eqb_eq, H.
Qed.

(** The rows of a ticker in the output are the frame computed from the
    price rows of that ticker alone. *)
Lemma rows_of_ticker (df : list price_row) (t : string) :
  filter (fun r => String.eqb (p_ticker (price r)) t)
         (all_rows sqrtQ df)
  = _add_indicators sqrtQ
      (filter (fun r => String.eqb (p_ticker r) t) (isort ticker_date_leb df)).
Proof.
  rewrite calculate_all_flat_map.
  rewrite (@filter_groups _ (fun r => p_ticker (price r))
             (fun t => _add_indicators sqrtQ
                         (filter (fun r => String.eqb (p_ticker r) t)
                                 (isort ticker_date_leb df)))).
  - destruct (in_dec string_dec t _) as [_|Hn]; [reflexivity|].
    rewrite RiskFacts.unique_in in Hn.
    replace (filter (fun r => String.eqb (p_ticker r) t)
                    (isort ticker_date_leb df)) with (@nil price_row);
      [reflexivity|].
    symmetry. generalize (isort ticker_date_leb df) Hn. intros l Hl.
    induction l as [|r l IH]; [reflexivity|]. simpl.
    destruct (String.eqb_spec (p_ticker r) t) as [E|_].
    + exfalso. apply Hl. left. exact E.
    + apply IH. intro H. apply Hl. right. exact H.
  - intros u r. apply block_ticker.
  - apply RiskFacts.unique_nodup.
Qed.

End WithSqrt.

(** On a price frame with at least one row [calculate_all_indicators]
    returns a frame, and whatever the order of the rows of the price frame,
    the rows of a ticker in that frame carry the price rows of that ticker,
    all of them and nothing else, in ascending date order, and their
    indicator columns are computed from that ticker's rows alone. *)
Theorem indicators_per_ticker
  (sqrtQ : Q -> Q) (df : list price_row) (t : string) :
  df <> [] ->
  exists indicators_df,
    calculate_all_indicators sqrtQ df = Some indicators_df
    /\ let out := filter (fun r => String.eqb (p_ticker (price r)) t)
                         indicators_df in
       let block := map price out in
       out = _add_indicators sqrtQ block
       /\ (forall r, In r block <-> In r df /\ p_ticker r = t)
       /\ length block = bars_of t df
       /\ StronglySorted (fun a b => (p_date a <= p_date b)%Z) block.
Proof.
  intro Hne. exists (all_rows sqrtQ df).
  split; [apply calculate_all_some, Hne|].
  intros out block.
  assert (Eo : out = _add_indicators sqrtQ
                       (filter (fun r => String.eqb (p_ticker r) t)
                               (isort ticker_date_leb df)))
    by apply rows_of_ticker.
  assert (Eb : block = filter (fun r => String.eqb (p_ticker r) t)
                              (isort ticker_date_leb df)).
  { unfold block. rewrite Eo. apply add_indicators_prices. }
  split; [rewrite Eb; exact Eo|]. split; [|split].
  - intro r. rewrite Eb, filter_In, isort_in, String.eqb_eq. tauto.
  - rewrite Eb. apply filter_isort_length.
  - rewrite Eb.
    apply (@StronglySorted_weaken _ (fun a b => ticker_date_leb a b = true)).
    + intros a b Ha Hb. apply filter_In in Ha, Hb.
      destruct Ha as [_ Ha], Hb as [_ Hb].
      apply String.eqb_eq in Ha, Hb. unfold ticker_date_leb.
      rewrite Ha, Hb, String.eqb_refl. apply Z.leb_le.
    + apply StronglySorted_filter, sorted_frame.
Qed.

Lemma tradable_closes (l : list price_row) :
  Forall (fun r => tradable (p_close r)) l ->
  exists cs, map p_close l = map Fin cs /\ Forall (fun c => ~ c == 0) cs.
Proof.
  induction 1 as [|r l Hr _ (cs & E & Hc)].
  - exists []. split; [reflexivity | constructor].
  - destruct (p_close r) as [| | |c] eqn:Ec; try contradiction.
    exists (c :: cs). split.
    + cbn [map]. rewrite Ec, E. reflexivity.
    + constructor; assumption.
Qed.

(** The valid returns the risk engine sees for a ticker are one fewer than
    the ticker's bars. *)
Lemma valid_returns_of_ticker
  (sqrtQ : Q -> Q) (df : list price_row) (t : string) :
  Forall (fun r => tradable (p_close r)) df ->
  length (Risk.stock_returns
            (risk_input (all_rows sqrtQ df)) t)
  = (bars_of t df - 1)%nat.
Proof.
  intro H. unfold Risk.stock_returns, risk_input.
  rewrite filter_map_swap, map_map. cbn [Risk.ticker Risk.daily_return].
  rewrite (rows_of_ticker sqrtQ df t), add_indicators_returns.
  set (block := filter (fun r => String.eqb (p_ticker r) t)
                       (isort ticker_date_leb df)).
  assert (Hb : Forall (fun r => tradable (p_close r)) block).
  { apply Forall_forall. intros r Hr. unfold block in Hr.
    apply filter_In in Hr. destruct Hr as [Hr _]. apply isort_in in Hr.
    rewrite Forall_forall in H. apply H, Hr. }
  destruct (tradable_closes Hb) as (cs & E & Hc).
  unfold daily_return. rewrite E, (valid_returns_count Hc).
  assert (Hl : length cs = bars_of t df).
  { rewrite <- (length_map Fin cs), <- E, length_map.
    unfold block. apply filter_isort_length. }
  rewrite Hl. reflexivity.
Qed.

(** With finite non-zero closes, the risk table computed from the indicator
    frame has exactly one record for a ticker with at least 31 price rows
    and none for a ticker with 30 or fewer: the first bar has no return. *)
Theorem risk_record_needs_31_bars
  (sqrtQ : Q -> Q) (df : list price_row) (indicators_df : list indicator_row)
  (t : string) :
  Forall (fun r => tradable (p_close r)) df ->
  calculate_all_indicators sqrtQ df = Some indicators_df ->
  let risk_df := Risk.calculate_risk_metrics sqrtQ
                   (risk_input indicators_df) in
  ((31 <= bars_of t df)%nat ->
   exists rec, RiskSpec.records_of t risk_df = [rec] /\ Risk.rm_ticker rec = t)
  /\ ((bars_of t df <= 30)%nat -> RiskSpec.records_of t risk_df = []).
Proof.
  intros H Hsome risk_df. unfold risk_df.
  apply calculate_all_inv in Hsome. destruct Hsome as [_ ->].
  rewrite RiskFacts.records_of_output. unfold RiskSpec.per_ticker.
  pose proof (valid_returns_of_ticker sqrtQ t H) as Hl.
  split; intro Hn.
  - assert (E : (length (Risk.stock_returns
                           (risk_input (all_rows sqrtQ df)) t)
                 <? 30)%nat = false) by (apply Nat.ltb_ge; lia).
    rewrite E. eexists. split; reflexivity.
  - assert (E : (length (Risk.stock_returns
                           (risk_input (all_rows sqrtQ df)) t)
                 <? 30)%nat = true) by (apply Nat.ltb_lt; lia).
    rewrite E. reflexivity.
Qed.

End AllIndicatorsFacts.

(* ================================================================== *)
(** ** Properties of the pipelines *)

Module PipelineFacts.
Import Signals SignalSpec SignalFacts.
Import IndicatorsFull IndicatorsFullSpec Pipelines PipelineSpec.

(** *** The signal pipeline *)

Lemma collect_loop (df : list row) (us : list string) (acc : list signal) :
  fold_left (fun all t => all ++ generate_signals_for_ticker t df) us acc
  = acc ++ flat_map (fun t => generate_signals_for_ticker t df) us.
Proof.
  revert acc. induction us as [|u r IH]; intro acc; cbn [fold_left flat_map].
  - symmetry. apply app_nil_r.
  - rewrite IH, app_assoc. reflexivity.
Qed.

Lemma collect_flat_map (df : list row) :
  collect_signals df
  = flat_map (fun t => generate_signals_for_ticker t df)
             (unique (map ticker df)).
Proof. unfold collect_signals. apply collect_loop. Qed.

Lemma generated_ticker (t : string) (df : list row) (s : signal) :
  In s (generate_signals_for_ticker t df) -> sig_ticker s = t.
Proof.
  intro H. destruct (generate_cases t df) as [[_ E]|(l & p & _ & E)];
    rewrite E in H; [destruct H|].
  apply (detect_records _ _ _ _ H).
Qed.

Lemma ticker_rows_absent (t : string) (df : list row) :
  ~ In t (map ticker df) -> ticker_rows t df = [].
Proof.
  intro Hn. unfold ticker_rows. induction df as [|r df IH]; [reflexivity|].
  simpl. destruct (String.eqb_spec (ticker r) t) as [E|_].
  - exfalso. apply Hn. left. exact E.
  - apply IH. intro H. apply Hn. right. exact H.
Qed.

Lemma generate_nonempty (t : string) (df : list row) :
  (2 <= length (ticker_rows t df))%nat ->
  generate_signals_for_ticker t df <> [].
Proof.
  intros Hlen E.
  destruct (generate_cases t df) as [[Hs _]|(l & p & _ & Hd)]; [lia|].
  rewrite Hd in E. apply (f_equal (map sig_type)) in E.
  rewrite detect_types in E.
  destruct (rule_types l p); discriminate E.
Qed.

Lemma signals_of_ticker (df : list row) (t : string) :
  filter (fun s => String.eqb (sig_ticker s) t) (collect_signals df)
  = generate_signals_for_ticker t df.
Proof.
  rewrite collect_flat_map.
  rewrite (@filter_groups _ sig_ticker
             (fun t => generate_signals_for_ticker t df)).
  - destruct (in_dec string_dec t _) as [_|Hn]; [reflexivity|].
    rewrite RiskFacts.unique_in in Hn. symmetry. apply generate_short.
    rewrite (ticker_rows_absent _ _ Hn). simpl. lia.
  - intros u s. apply generated_ticker.
  - apply RiskFacts.unique_nodup.
Qed.

Lemma collect_empty_iff (df : list row) :
  collect_signals df = []
  <-> forall t, (length (ticker_rows t df) < 2)%nat.
Proof.
  split.
  - intros E t. destruct (Nat.lt_ge_cases (length (ticker_rows t df)) 2)
      as [H|H]; [exact H|].
    exfalso. apply (generate_nonempty _ _ H).
    rewrite <- signals_of_ticker, E. reflexivity.
  - intro H. rewrite collect_flat_map.
    induction (unique (map ticker df)) as [|u r IH]; [reflexivity|].
    cbn [flat_map]. rewrite (generate_short _ _ (H u)). exact IH.
Qed.

(** The signals collected by the pipeline, restricted to a ticker, are the
    signals of that ticker in their order, once: tickers do not mix and
    none is processed twice.  Nothing is collected exactly when no ticker
    of the frame has two rows. *)
Theorem collected_signals_by_ticker (df : list row) (t : string) :
  filter (fun s => String.eqb (sig_ticker s) t) (collect_signals df)
  = generate_signals_for_ticker t df
  /\ (collect_signals df = []
      <-> forall u, (length (ticker_rows u df) < 2)%nat).
Proof.
  split; [apply signals_of_ticker | apply collect_empty_iff].
Qed.

Lemma collected_signals_by_ticker_witness :
  collect_signals quiet_df <> [] /\ collect_signals (firstn 1 quiet_df) = [].
Proof.
  split.
  - intro E.
    apply (proj1 (proj2 (collected_signals_by_ticker quiet_df "AAA"))) with
      (u := "AAA"%string) in E.
    vm_compute in E. lia.
  - apply (proj2 (proj2 (collected_signals_by_ticker (firstn 1 quiet_df) "AAA"))).
    intro u. unfold ticker_rows.
    pose proof (filter_length_le (fun r => String.eqb (ticker r) u)
                  (firstn 1 quiet_df)) as H.
    change (length (firstn 1 quiet_df)) with 1%nat in H. lia.
Defined.

Section WithBackend.
Variable F : Type.
Variable to_sql : write F -> backend_result.

(** database.py, [save_dataframe]: the write is handed to the database
    exactly once; an SQLAlchemyError comes back as [False] and never leaves
    the function. *)
Lemma save_dataframe_log (df : frame F) (name : string) (mode : if_exists)
      (log : list (write F)) :
  fst (save_dataframe to_sql df name mode log)
  = log ++ [{| w_table := name; w_mode := mode; w_frame := df |}].
Proof.
  unfold save_dataframe. destruct (to_sql _); reflexivity.
Qed.

Variable read_signal_rows : string -> read_result row.



End WithBackend.


(** *** The indicator pipeline *)

Lemma per_ticker_risk_rows
  (sqrtQ : Q -> Q) (df : list price_row) (t : string) :
  Forall (fun r => tradable (p_close r)) df ->
  RiskSpec.records_of t
    (Risk.calculate_risk_metrics sqrtQ
       (risk_input (all_rows sqrtQ df)))
  = if (bars_of t df <=? 30)%nat then []
    else [Risk.risk_record sqrtQ t
            (Risk.stock_returns
               (risk_input (all_rows sqrtQ df)) t)].
Proof.
  intro H. rewrite RiskFacts.records_of_output. unfold RiskSpec.per_ticker.
  rewrite (AllIndicatorsFacts.valid_returns_of_ticker sqrtQ t H).
  destruct (bars_of t df <=? 30)%nat eqn:E.
  - apply Nat.leb_le in E.
    assert (B : (bars_of t df - 1 <? 30)%nat = true) by (apply Nat.ltb_lt; lia).
    rewrite B. reflexivity.
  - apply Nat.leb_gt in E.
    assert (B : (bars_of t df - 1 <? 30)%nat = false) by (apply Nat.ltb_ge; lia).
    rewrite B. reflexivity.
Qed.

(** With finite non-zero closes the risk table is empty exactly when no
    ticker has 31 bars. *)
Lemma risk_table_empty_iff (sqrtQ : Q -> Q) (df : list price_row) :
  Forall (fun r => tradable (p_close r)) df ->
  Risk.calculate_risk_metrics sqrtQ
    (risk_input (all_rows sqrtQ df)) = []
  <-> forall t, (bars_of t df <= 30)%nat.
Proof.
  intro H. split.
  - intros E t. pose proof (per_ticker_risk_rows sqrtQ t H) as Ht.
    rewrite E in Ht. destruct (bars_of t df <=? 30)%nat eqn:B.
    + apply Nat.leb_le, B.
    + discriminate Ht.
  - intro Hall.
    destruct (Risk.calculate_risk_metrics sqrtQ
                (risk_input (all_rows sqrtQ df)))
      as [|r rest] eqn:E; [reflexivity|].
    pose proof (per_ticker_risk_rows sqrtQ (Risk.rm_ticker r) H) as Ht.
    rewrite E in Ht.
    assert (B : (bars_of (Risk.rm_ticker r) df <=? 30)%nat = true)
      by (apply Nat.leb_le, Hall).
    rewrite B in Ht. unfold RiskSpec.records_of in Ht. cbn [filter] in Ht.
    rewrite String.eqb_refl in Ht. discriminate Ht.
Qed.

Section IndicatorPipeline.
Variable F : Type.
Variable to_sql : write F -> backend_result.
Variable sqrtQ : Q -> Q.

Variable read_price_rows : string -> read_result price_row.

Lemma run_indicators_some (r0 : price_row) (df0 : list price_row)
      (log : list (write F)) :
  read_price_rows prices_query = ReadOk (r0 :: df0) ->
  run_indicators_pipeline to_sql read_price_rows sqrtQ log
  = let ind := all_rows sqrtQ (r0 :: df0) in
    let risk := Risk.calculate_risk_metrics sqrtQ (risk_input ind) in
    match to_sql (indicators_write F ind) with
    | OtherFailure => (log ++ [indicators_write F ind], Raised BackendError)
    | _ =>
        ((log ++ [indicators_write F ind]) ++ [risk_write F risk],
         match to_sql (risk_write F risk) with
         | OtherFailure => Raised BackendError
         | _ => match risk with
                | [] => Raised (KeyError "sharpe_ratio")
                | _ => Returned (Some ind, Some risk)
                end
         end)
    end.
Proof.
  intro E. unfold run_indicators_pipeline, query_to_df. rewrite E.
  rewrite (@AllIndicatorsFacts.calculate_all_some sqrtQ (r0 :: df0))
    by discriminate.
  unfold save_dataframe, indicators_write, risk_write.
  cbv zeta.
  repeat match goal with
         | |- context [to_sql ?w] => destruct (to_sql w)
         end;
    destruct (Risk.calculate_risk_metrics sqrtQ
                (risk_input (all_rows sqrtQ (r0 :: df0))));
    reflexivity.
Qed.

(** The indicator pipeline, by what reading the price table gives.  An
    exception of the read that is not an SQLAlchemyError leaves the
    pipeline, nothing being written.  After an SQLAlchemyError
    ([query_to_df] returns None) and when the table has no row, the
    pipeline returns (None, None) and writes nothing.  On a price frame
    with finite non-zero closes the indicator frame is computed and the
    pipeline replaces the table technical_indicators, then the table
    risk_metrics; it then returns the two frames if some ticker has at
    least 31 bars, and otherwise fails with KeyError 'sharpe_ratio' in the
    summary, both tables having been written. *)
Theorem indicators_pipeline_outcome (log : list (write F)) :
  let run := run_indicators_pipeline to_sql read_price_rows sqrtQ log in
  match read_price_rows prices_query with
  | ReadOtherFailure => run = (log, Raised BackendError)
  | ReadSqlError => run = (log, Returned (None, None))
  | ReadOk df =>
      (df = [] -> run = (log, Returned (None, None)))
      /\ (df <> [] ->
          Forall (fun r => tradable (p_close r)) df ->
          exists ind,
            calculate_all_indicators sqrtQ df = Some ind
            /\ let risk :=
                 Risk.calculate_risk_metrics sqrtQ (risk_input ind) in
               let w1 := indicators_write F ind in
               let w2 := risk_write F risk in
               (to_sql w1 = OtherFailure ->
                run = (log ++ [w1], Raised BackendError))
               /\ (to_sql w1 <> OtherFailure ->
                   fst run = (log ++ [w1]) ++ [w2]
                   /\ (to_sql w2 = OtherFailure ->
                       snd run = Raised BackendError)
                   /\ (to_sql w2 <> OtherFailure ->
                       (exists t, (31 <= bars_of t df)%nat) ->
                       snd run = Returned (Some ind, Some risk))
                   /\ (to_sql w2 <> OtherFailure ->
                       (forall t, (bars_of t df <= 30)%nat) ->
                       snd run = Raised (KeyError "sharpe_ratio"))))
  end.
Proof.
  intro run.
  destruct (read_price_rows prices_query) as [df| |] eqn:E;
    [|unfold run, run_indicators_pipeline, query_to_df; rewrite E; reflexivity
     |unfold run, run_indicators_pipeline, query_to_df; rewrite E; reflexivity].
  split.
  { intros ->. unfold run, run_indicators_pipeline, query_to_df.
    rewrite E. reflexivity. }
  intros Hne Ht. exists (all_rows sqrtQ df).
  split; [apply AllIndicatorsFacts.calculate_all_some, Hne|].
  set (ind := all_rows sqrtQ df).
  intros risk w1 w2.
  pose proof (risk_table_empty_iff sqrtQ Ht) as Hempty.
  fold ind in Hempty. fold risk in Hempty.
  destruct df as [|r0 df0]; [congruence|].
  unfold run. rewrite (run_indicators_some log E). cbv zeta.
  fold ind. fold risk. fold w1. fold w2.
  split.
  - intros ->. reflexivity.
  - intro Hb1.
    destruct (to_sql w1); try congruence; cbn [fst snd];
      (split; [reflexivity|]); (split; [intros ->; reflexivity|]); split.
    + intros Hb2 [t Hbars].
      assert (Hr : risk <> []).
      { intro E'. pose proof (proj1 Hempty E' t). lia. }
      destruct (to_sql w2); try congruence; destruct risk; congruence.
    + intros Hb2 Hall. rewrite (proj2 Hempty Hall).
      destruct (to_sql w2); try congruence; reflexivity.
    + intros Hb2 [t Hbars].
      assert (Hr : risk <> []).
      { intro E'. pose proof (proj1 Hempty E' t). lia. }
      destruct (to_sql w2); try congruence; destruct risk; congruence.
    + intros Hb2 Hall. rewrite (proj2 Hempty Hall).
      destruct (to_sql w2); try congruence; reflexivity.
Qed.

End IndicatorPipeline.

(** *** The extraction *)

Section Extraction.
Variable F : Type.
Variable to_sql : write F -> backend_result.
Variable download_stock_prices : string -> option (list price_row).
Variable download_fundamentals : string -> option (list F).

Lemma downloaded_loop (A : Type) (d : string -> option (list A))
      (ts : list string) (acc : list (list A)) :
  fold_left (fun all t => match d t with
                          | Some df => all ++ [df]
                          | None => all
                          end) ts acc
  = acc ++ flat_map (fun t => match d t with
                              | Some df => [df]
                              | None => []
                              end) ts.
Proof.
  revert acc. induction ts as [|t r IH]; intro acc; cbn [fold_left flat_map].
  - symmetry. apply app_nil_r.
  - rewrite IH. destruct (d t); [rewrite <- app_assoc|]; reflexivity.
Qed.

Lemma downloaded_concat (A : Type) (d : string -> option (list A))
      (ts : list string) :
  concat (downloaded d ts) = downloaded_rows d ts.
Proof.
  unfold downloaded, downloaded_rows. rewrite downloaded_loop. cbn [app].
  induction ts as [|t r IH]; [reflexivity|]. cbn [flat_map].
  rewrite concat_app, IH. destruct (d t); [|reflexivity].
  cbn [concat]. rewrite app_nil_r. reflexivity.
Qed.

Lemma downloaded_empty_iff (A : Type) (d : string -> option (list A))
      (ts : list string) :
  downloaded d ts = [] <-> forall t, In t ts -> d t = None.
Proof.
  unfold downloaded. rewrite downloaded_loop. cbn [app].
  induction ts as [|t r IH]; cbn [flat_map].
  - split; [intros _ t [] | reflexivity].
  - destruct (d t) eqn:E.
    + split; [discriminate|]. intro H.
      specialize (H t (or_introl eq_refl)). congruence.
    + cbn [app]. rewrite IH. split.
      * intros H u [<-|Hu]; [exact E | apply H, Hu].
      * intros H u Hu. apply H. right. exact Hu.
Qed.

(** [run_extraction] on a database layer that raises nothing but
    SQLAlchemyErrors.  A ticker without data is skipped and the others are
    kept, in ticker order.  The function returns the two frames only if
    some ticker gave prices and some ticker gave fundamentals; when no
    ticker gave prices it fails with UnboundLocalError on 'prices_df', and
    when none gave fundamentals on 'fundamentals_df', in both cases after
    the table that did get data has been replaced. *)
Theorem extraction_outcome (tickers : list string) (log : list (write F)) :
  (forall w, to_sql w <> OtherFailure) ->
  let prices := downloaded_rows download_stock_prices tickers in
  let funds := downloaded_rows download_fundamentals tickers in
  let no_prices := forall t, In t tickers -> download_stock_prices t = None in
  let no_funds := forall t, In t tickers -> download_fundamentals t = None in
  let run := run_extraction to_sql download_stock_prices
               download_fundamentals tickers log in
  (no_prices -> no_funds ->
   run = (log, Raised (UnboundLocalError "prices_df")))
  /\ (no_prices -> ~ no_funds ->
      run = (log ++ [fundamentals_write funds],
             Raised (UnboundLocalError "prices_df")))
  /\ (~ no_prices -> no_funds ->
      run = (log ++ [prices_write F prices],
             Raised (UnboundLocalError "fundamentals_df")))
  /\ (~ no_prices -> ~ no_funds ->
      run = ((log ++ [prices_write F prices]) ++ [fundamentals_write funds],
             Returned (prices, funds))).
Proof.
  intros Hb prices funds no_prices no_funds run.
  pose proof (downloaded_empty_iff download_stock_prices tickers) as Hp.
  pose proof (downloaded_empty_iff download_fundamentals tickers) as Hf.
  pose proof (downloaded_concat download_stock_prices tickers) as Cp.
  pose proof (downloaded_concat download_fundamentals tickers) as Cf.
  fold prices in Cp. fold funds in Cf.
  fold no_prices in Hp. fold no_funds in Hf.
  unfold run, run_extraction, save_dataframe. cbv zeta.
  destruct (downloaded download_stock_prices tickers) as [|p0 ps] eqn:Ep;
    destruct (downloaded download_fundamentals tickers) as [|f0 fs] eqn:Ef.
  - repeat split; intros; try reflexivity;
      try (exfalso; tauto).
  - rewrite Cf.
    pose proof (Hb (fundamentals_write funds)) as B.
    unfold fundamentals_write in *.
    destruct (to_sql _); try congruence;
      (repeat split; intros; try reflexivity;
       try (exfalso; intuition congruence)).
  - rewrite Cp.
    pose proof (Hb (prices_write F prices)) as B.
    unfold prices_write in *.
    destruct (to_sql _); try congruence;
      (repeat split; intros; try reflexivity;
       try (exfalso; intuition congruence)).
  - rewrite Cp, Cf.
    pose proof (Hb (prices_write F prices)) as B1.
    pose proof (Hb (fundamentals_write funds)) as B2.
    unfold prices_write, fundamentals_write in *.
    repeat match goal with
           | |- context [to_sql ?w] => destruct (to_sql w); try congruence
           end;
      (repeat split; intros; try reflexivity;
       try (exfalso; intuition congruence)).
Qed.

End Extraction.

End PipelineFacts.

(* ================================================================== *)
(** ** Further properties of the detector and of the per-ticker loop *)

Module MoreFacts.
Import Signals SignalSpec SignalFacts SignalExtraSpec.

(** The detector reads the two most recent rows of the ticker, by date,
    and nothing else: two frames in which the ticker has the same latest
    row and the same previous row give the same signals for it, whatever
    its older rows, the rows of the other tickers and the order of the
    rows in the two frames are. *)
Theorem signals_depend_on_last_two_rows
  (t : string) (df df' : list row) (l p : row) (older older' : list row) :
  Permutation (ticker_rows t df) (l :: p :: older) ->
  Permutation (ticker_rows t df') (l :: p :: older') ->
  (date p < date l)%Z ->
  Forall (fun r => (date r < date p)%Z) older ->
  Forall (fun r => (date r < date p)%Z) older' ->
  generate_signals_for_ticker t df = generate_signals_for_ticker t df'.
Proof.
  intros Hp Hp' Hd Ho Ho'.
  rewrite (generate_detect _ _ (chronological_last_two t df Hp Hd Ho)).
  rewrite (generate_detect _ _ (chronological_last_two t df' Hp' Hd Ho')).
  reflexivity.
Qed.

Lemma signals_depend_on_last_two_rows_witness :
  generate_signals_for_ticker "AAA" (rev longer_busy_df)
  = generate_signals_for_ticker "AAA" busy_df.
Proof.
  apply (@signals_depend_on_last_two_rows "AAA" (rev longer_busy_df) busy_df
           (nth 1 busy_df (sample_row 0 NaN NaN NaN NaN NaN NaN NaN NaN))
           (nth 0 busy_df (sample_row 0 NaN NaN NaN NaN NaN NaN NaN NaN))
           [nth 0 longer_busy_df (sample_row 0 NaN NaN NaN NaN NaN NaN NaN NaN)]
           []).
  - apply Permutation_refl.
  - apply perm_swap.
  - reflexivity.
  - constructor; [reflexivity | constructor].
  - constructor.
Defined.

End MoreFacts.

Module FrameSize.
Import IndicatorsFull IndicatorsFullSpec AllIndicatorsFacts.

Section Groups.
Context {A : Type} (key : A -> string).

Lemma own_group_count (k : string) (x : A) (us : list string) :
  NoDup us -> In k us ->
  length (flat_map (fun u => if String.eqb k u then [x] else []) us) = 1%nat.
Proof.
  induction 1 as [|u r Hu Hnd IH]; intro Hin; [destruct Hin|].
  cbn [flat_map]. rewrite length_app.
  destruct (String.eqb_spec k u) as [->|Hne].
  - assert (E : flat_map (fun u0 => if String.eqb u u0 then [x] else []) r = []).
    { clear IH Hnd Hin. induction r as [|v r IHr]; [reflexivity|].
      cbn [flat_map]. destruct (String.eqb_spec u v) as [->|_].
      - exfalso. apply Hu. left. reflexivity.
      - apply IHr. intro H. apply Hu. right. exact H. }
    rewrite E. reflexivity.
  - destruct Hin as [->|Hin]; [congruence|]. rewrite (IH Hin). reflexivity.
Qed.

Lemma groups_cons (x : A) (l : list A) (us : list string) :
  length (flat_map (fun u => filter (fun r => String.eqb (key r) u) (x :: l)) us)
  = (length (flat_map (fun u => if String.eqb (key x) u then [x] else []) us)
     + length (flat_map (fun u => filter (fun r => String.eqb (key r) u) l) us))%nat.
Proof.
  induction us as [|u r IH]; [reflexivity|].
  cbn [flat_map]. rewrite !length_app, IH. cbn [filter].
  destruct (String.eqb (key x) u); cbn [length]; lia.
Qed.

(** Splitting a list by key over a duplicate-free list that holds every key
    loses nothing and repeats nothing. *)
Lemma groups_total_length (l : list A) (us : list string) :
  NoDup us -> (forall x, In x l -> In (key x) us) ->
  length (flat_map (fun u => filter (fun r => String.eqb (key r) u) l) us)
  = length l.
Proof.
  intros Hnd. induction l as [|x l IH]; intro Hk.
  - clear Hnd Hk. induction us as [|u r IHu]; [reflexivity|].
    cbn [flat_map filter app]. exact IHu.
  - rewrite groups_cons, own_group_count, IH; auto.
    + intros y Hy. apply Hk. right. exact Hy.
    + apply Hk. left. reflexivity.
Qed.
End Groups.

Lemma all_rows_size (sqrtQ : Q -> Q) (df : list price_row) :
  length (all_rows sqrtQ df) = length df
  /\ forall r, In r (map price (all_rows sqrtQ df)) <-> In r df.
Proof.
  rewrite calculate_all_flat_map.
  set (sdf := isort ticker_date_leb df).
  assert (Hlen : length (flat_map
                           (fun t => _add_indicators sqrtQ
                                       (filter (fun r => String.eqb (p_ticker r) t) sdf))
                           (unique (map p_ticker sdf)))
                 = length (flat_map
                             (fun t => filter (fun r => String.eqb (p_ticker r) t) sdf)
                             (unique (map p_ticker sdf)))).
  { induction (unique (map p_ticker sdf)) as [|u r IH]; [reflexivity|].
    cbn [flat_map]. rewrite !length_app, IH, add_indicators_length.
    reflexivity. }
  split.
  - rewrite Hlen, (groups_total_length p_ticker).
    + apply isort_length.
    + apply RiskFacts.unique_nodup.
    + intros x Hx. apply RiskFacts.unique_in, in_map, Hx.
  - intro r. rewrite in_map_iff. split.
    + intros (x & <- & Hx). apply in_flat_map in Hx.
      destruct Hx as (u & _ & Hx).
      apply (in_map price) in Hx. rewrite add_indicators_prices in Hx.
      apply filter_In in Hx. destruct Hx as [Hx _].
      apply (isort_in ticker_date_leb), Hx.
    + intro Hr.
      assert (Hs : In r (filter (fun x => String.eqb (p_ticker x) (p_ticker r)) sdf)).
      { apply filter_In. split; [apply isort_in, Hr | apply String.eqb_refl]. }
      rewrite <- (add_indicators_prices sqrtQ) in Hs.
      apply in_map_iff in Hs. destruct Hs as (x & Ex & Hx).
      exists x. split; [exact Ex|]. apply in_flat_map.
      exists (p_ticker r). split; [|exact Hx].
      apply RiskFacts.unique_in, in_map. apply isort_in, Hr.
Qed.

(** [calculate_all_indicators] fails (there is no frame to concatenate)
    exactly on a price frame without rows; on any other price frame it
    returns a frame with exactly one row for each row of the price frame:
    no price row is dropped or repeated by the per-ticker loop. *)
Theorem indicator_frame_size (sqrtQ : Q -> Q) (df : list price_row) :
  match calculate_all_indicators sqrtQ df with
  | None => df = []
  | Some out =>
      df <> []
      /\ length out = length df
      /\ forall r, In r (map price out) <-> In r df
  end.
Proof.
  destruct (calculate_all_indicators sqrtQ df) as [out|] eqn:E.
  - apply AllIndicatorsFacts.calculate_all_inv in E. destruct E as [Hne ->].
    split; [exact Hne|]. apply all_rows_size.
  - apply AllIndicatorsFacts.calculate_all_none in E. exact E.
Qed.

End FrameSize.

(* ================================================================== *)
(** ** The value at risk as an order statistic *)

Module VarFacts.
Import Risk RiskSpec RiskExtraSpec RiskFacts.

Lemma sorted_nth_le (s : list Q) (i j : nat) :
  StronglySorted Qle s -> (i <= j)%nat -> (j < length s)%nat ->
  nth i s 0 <= nth j s 0.
Proof.
  intro H. revert i j. induction H as [|a r Hs IH Ha]; intros i j Hij Hj.
  - cbn [length] in Hj. lia.
  - cbn [length] in Hj. destruct j as [|j].
    + assert (i = 0%nat) by lia. subst i. apply Qle_refl.
    + destruct i as [|i]; cbn [nth].
      * rewrite Forall_forall in Ha. apply Ha, nth_In. lia.
      * apply IH; lia.
Qed.

(** In an ascending list, the entries up to a position whose value is at
    most [v] are all at most [v]. *)
Lemma count_upto_sorted (v : Q) (s : list Q) (k : nat) :
  StronglySorted Qle s -> (k < length s)%nat -> nth k s 0 <= v ->
  (k + 1 <= count_upto v s)%nat.
Proof.
  intro H. revert k. induction H as [|a r Hs IH Ha]; intros k Hk Hv.
  - cbn [length] in Hk. lia.
  - cbn [length] in Hk. unfold count_upto in *. cbn [filter].
    assert (Hav : Qle_bool a v = true).
    { apply Qle_bool_iff. destruct k as [|k]; cbn [nth] in Hv; [exact Hv|].
      apply Qle_trans with (nth k r 0); [|exact Hv].
      rewrite Forall_forall in Ha. apply Ha, nth_In. lia. }
    rewrite Hav. cbn [length]. destruct k as [|k]; [lia|].
    cbn [nth] in Hv. specialize (IH k ltac:(lia) Hv). lia.
Qed.

Lemma none_below (v : Q) (s : list Q) :
  Forall (Qle v) s -> count_below v s = 0%nat.
Proof.
  unfold count_below. induction 1 as [|a r Ha _ IH]; [reflexivity|].
  cbn [filter]. assert (E : Qltb a v = false) by (apply Qltb_ge, Ha).
  rewrite E. exact IH.
Qed.

(** In an ascending list, the entries below [v] all come before a position
    whose value is at least [v]. *)
Lemma count_below_sorted (v : Q) (s : list Q) (m : nat) :
  StronglySorted Qle s -> (m < length s)%nat -> v <= nth m s 0 ->
  (count_below v s <= m)%nat.
Proof.
  intro H. revert m. induction H as [|a r Hs IH Ha]; intros m Hm Hv.
  - cbn [length] in Hm. lia.
  - cbn [length] in Hm. destruct m as [|m]; cbn [nth] in Hv.
    + rewrite none_below; [lia|]. constructor; [exact Hv|].
      apply Forall_forall. intros x Hx. rewrite Forall_forall in Ha.
      apply Qle_trans with a; [exact Hv | apply Ha, Hx].
    + specialize (IH m ltac:(lia) Hv). unfold count_below in *.
      cbn [filter]. destruct (Qltb a v); cbn [length]; lia.
Qed.

Lemma lerp_between (a b g : Q) :
  a <= b -> 0 <= g -> g <= 1 ->
  exists v, lerp (Fin a) (Fin b) (Fin g) = Fin v /\ a <= v /\ v <= b.
Proof.
  intros Hab Hg0 Hg1. unfold lerp. cbn [fsub fmul fadd].
  eexists. split; [reflexivity|].
  rewrite !Qred_correct. split; nra.
Qed.

Lemma var_lo_bound (n : nat) : (var_lo n <= n - 1)%nat.
Proof.
  unfold var_lo.
  assert (H : (Qfloor (inject_Z (Z.of_nat (n - 1)) * (5 # 100))
               <= Z.of_nat (n - 1))%Z).
  { rewrite <- (Qfloor_Z (Z.of_nat (n - 1))) at 2.
    apply Qfloor_resp_le.
    assert (H0 : 0 <= inject_Z (Z.of_nat (n - 1))).
    { change 0 with (inject_Z 0). rewrite <- Zle_Qle. lia. }
    lra. }
  lia.
Qed.

(** The 5% quantile of [n >= 1] finite returns lies between the order
    statistics at positions [var_lo n] and [var_lo n + 1]. *)
Lemma quantile_order_statistic (qs : list Q) :
  (1 <= length qs)%nat ->
  exists v,
    quantile (5 # 100) (map Fin qs) = Fin v
    /\ (var_lo (length qs) + 1 <= count_upto v qs)%nat
    /\ (count_below v qs <= var_lo (length qs) + 1)%nat
    /\ exists a b, In a qs /\ In b qs /\ a <= v /\ v <= b.
Proof.
  intro Hn. unfold quantile. rewrite isort_returns.
  pose proof (isort_sorted qs) as Hs.
  pose proof (isort_length Qle_bool qs) as Hl.
  pose proof (var_lo_bound (length qs)) as Hlo.
  assert (Hup : forall v, count_upto v (isort Qle_bool qs) = count_upto v qs)
    by (intro v; apply filter_isort_length).
  assert (Hbe : forall v, count_below v (isort Qle_bool qs) = count_below v qs)
    by (intro v; apply filter_isort_length).
  assert (Hin : forall x, In x (isort Qle_bool qs) -> In x qs)
    by (intro x; apply isort_in).
  set (s := isort Qle_bool qs) in *.
  destruct (map Fin s) as [|x0 rest] eqn:Es.
  { apply (f_equal (@length fval)) in Es. rewrite length_map in Es.
    simpl in Es. lia. }
  rewrite <- Es. clear Es x0 rest.
  rewrite length_map, Hl. fold (var_lo (length qs)).
  set (lo := var_lo (length qs)) in *.
  set (hi := Nat.min (lo + 1) (length qs - 1)).
  assert (Hhi : (hi <= lo + 1)%nat) by (apply Nat.le_min_l).
  assert (Hhi' : (hi <= length qs - 1)%nat) by (apply Nat.le_min_r).
  assert (Hlohi : (lo <= hi)%nat) by (unfold hi; lia).
  rewrite !nth_map_Fin by lia.
  destruct (frac_bounds (inject_Z (Z.of_nat (length qs - 1)) * (5 # 100)))
    as [G0 G1].
  assert (Hab : nth lo s 0 <= nth hi s 0)
    by (apply sorted_nth_le; [exact Hs | exact Hlohi | lia]).
  destruct (lerp_between Hab G0 G1) as (v & Ev & Hv1 & Hv2).
  exists v. split; [exact Ev|]. split; [|split].
  - rewrite <- Hup. apply (@count_upto_sorted v s lo); [exact Hs | lia | exact Hv1].
  - rewrite <- Hbe.
    pose proof (@count_below_sorted v s hi Hs ltac:(lia) Hv2). lia.
  - exists (nth lo s 0), (nth hi s 0).
    split; [apply Hin, nth_In; lia|].
    split; [apply Hin, nth_In; lia|].
    split; assumption.
Qed.

(** For every record of the risk engine whose ticker has the finite valid
    returns [qs] (n of them), the value at risk is the rounding to six
    places of a number v that sits at the 5% position of the returns: at
    least floor(0.05 * (n - 1)) + 1 of the returns are at most v, at most
    that many are below v, and v lies between two observed returns. *)
Theorem var95_is_low_order_statistic
  (sqrtQ : Q -> Q) (df : list row) (r : risk_metrics) (qs : list Q) :
  In r (calculate_risk_metrics sqrtQ df) ->
  stock_returns df (rm_ticker r) = map Fin qs ->
  exists v,
    calc_var_95 (map Fin qs) = Fin v
    /\ var_95 r = round_nd 6 (Fin v)
    /\ (var_lo (length qs) + 1 <= count_upto v qs)%nat
    /\ (count_below v qs <= var_lo (length qs) + 1)%nat
    /\ exists a b, In a qs /\ In b qs /\ a <= v /\ v <= b.
Proof.
  intros Hin Hq.
  destruct (@in_output sqrtQ df r Hin) as [Hlen Hr].
  rewrite Hq in Hlen, Hr. rewrite length_map in Hlen.
  destruct (@quantile_order_statistic qs ltac:(lia)) as (v & Ev & H).
  exists v. unfold calc_var_95. split; [exact Ev|]. split; [|exact H].
  rewrite Hr. cbn [var_95 risk_record]. unfold calc_var_95.
  rewrite Ev. reflexivity.
Qed.

Lemma var95_is_low_order_statistic_witness :
  exists v,
    calc_var_95 (map Fin pattern32_q) = Fin v
    /\ (count_below v pattern32_q <= 2)%nat.
Proof.
  assert (Hin : In (risk_record Qsqrt_up "AAA" pattern32)
                   (calculate_risk_metrics Qsqrt_up (frame_of "AAA" pattern32)))
    by (vm_compute; left; reflexivity).
  assert (Hq : stock_returns (frame_of "AAA" pattern32)
                 (rm_ticker (risk_record Qsqrt_up "AAA" pattern32))
               = map Fin pattern32_q)
    by (vm_compute; reflexivity).
  destruct (@var95_is_low_order_statistic Qsqrt_up _ _ _ Hin Hq)
    as (v & Ev & _ & _ & Hb & _).
  exists v. split; [exact Ev|].
  assert (E : (var_lo (length pattern32_q) + 1 = 2)%nat) by (vm_compute; reflexivity).
  rewrite E in Hb. exact Hb.
Defined.

End VarFacts.

Module ExtraWitnesses.
Import IndicatorsFull IndicatorsFullSpec AllIndicatorsFacts.
Import Pipelines PipelineSpec PipelineFacts.

Lemma bars31_tradable : Forall (fun r => tradable (p_close r)) bars31.
Proof.
  apply Forall_forall. intros r Hr. unfold bars31 in Hr.
  apply in_map_iff in Hr. destruct Hr as (n & <- & Hn).
  apply in_seq in Hn. cbn [bar p_close tradable].
  intro H. unfold Qeq in H. cbn [Qnum Qden inject_Z] in H. lia.
Qed.

Lemma firstn_tradable (n : nat) :
  Forall (fun r => tradable (p_close r)) (firstn n bars31).
Proof. apply IndicatorFacts.Forall_firstn, bars31_tradable. Qed.

Lemma few_bars (n : nat) (t : string) :
  (n <= 30)%nat -> (bars_of t (firstn n bars31) <= 30)%nat.
Proof.
  intro H. unfold bars_of.
  pose proof (filter_length_le (fun r => String.eqb (p_ticker r) t)
                (firstn n bars31)) as H1.
  pose proof (firstn_le_length n bars31) as H2. lia.
Qed.

Lemma risk_record_needs_31_bars_witness :
  (exists rec,
      RiskSpec.records_of "AAA"
        (Risk.calculate_risk_metrics Risk.Qsqrt_up
           (risk_input (all_rows Risk.Qsqrt_up bars31)))
      = [rec] /\ Risk.rm_ticker rec = "AAA"%string)
  /\ RiskSpec.records_of "AAA"
       (Risk.calculate_risk_metrics Risk.Qsqrt_up
          (risk_input (all_rows Risk.Qsqrt_up
                         (firstn 30 bars31))))
     = [].
Proof.
  assert (H31 : bars31 <> []) by discriminate.
  assert (H30 : firstn 30 bars31 <> []) by discriminate.
  split.
  - apply (proj1 (@risk_record_needs_31_bars Risk.Qsqrt_up bars31 _
                    "AAA"%string bars31_tradable
                    (@calculate_all_some Risk.Qsqrt_up bars31 H31))).
    vm_compute. lia.
  - apply (proj2 (@risk_record_needs_31_bars Risk.Qsqrt_up (firstn 30 bars31)
                    _ "AAA"%string (firstn_tradable 30)
                    (@calculate_all_some Risk.Qsqrt_up _ H30))).
    apply few_bars. lia.
Defined.

Lemma indicators_per_ticker_witness :
  exists indicators_df,
    calculate_all_indicators Risk.Qsqrt_up bars31 = Some indicators_df
    /\ length (filter (fun r => String.eqb (p_ticker (price r)) "AAA")
                      indicators_df) = 31%nat.
Proof.
  destruct (@indicators_per_ticker Risk.Qsqrt_up bars31 "AAA"%string
              ltac:(discriminate)) as (ind & E & H).
  exists ind. split; [exact E|]. cbv zeta in H.
  destruct H as (_ & _ & Hl & _). rewrite length_map in Hl. exact Hl.
Defined.

Lemma indicators_pipeline_outcome_witness :
  (exists ind,
      calculate_all_indicators Risk.Qsqrt_up bars31 = Some ind
      /\ snd (run_indicators_pipeline always_ok (reads bars31)
                 Risk.Qsqrt_up [])
         = Returned
             (Some ind,
              Some (Risk.calculate_risk_metrics Risk.Qsqrt_up
                      (risk_input ind))))
  /\ snd (run_indicators_pipeline always_ok (reads (firstn 30 bars31))
            Risk.Qsqrt_up [])
     = Raised (KeyError "sharpe_ratio")
  /\ run_indicators_pipeline always_ok (read_fails price_row)
       Risk.Qsqrt_up []
     = ([], Raised BackendError).
Proof.
  split; [|split].
  - destruct (@indicators_pipeline_outcome unit always_ok Risk.Qsqrt_up
                (reads bars31) []) as [_ H0].
    destruct (H0 ltac:(discriminate) bars31_tradable) as (ind & E & H).
    exists ind. split; [exact E|]. cbv zeta in H. destruct H as [_ H].
    destruct (H ltac:(discriminate)) as (_ & _ & H3 & _).
    apply H3; [discriminate|].
    exists "AAA"%string. vm_compute. lia.
  - destruct (@indicators_pipeline_outcome unit always_ok Risk.Qsqrt_up
                (reads (firstn 30 bars31)) []) as [_ H0].
    destruct (H0 ltac:(discriminate) (firstn_tradable 30)) as (ind & E & H).
    cbv zeta in H. destruct H as [_ H].
    destruct (H ltac:(discriminate)) as (_ & _ & _ & H4).
    apply H4; [discriminate|].
    intro t. apply few_bars. lia.
  - exact (@indicators_pipeline_outcome unit always_ok Risk.Qsqrt_up
             (read_fails price_row) []).
Defined.

Lemma extraction_outcome_witness :
  run_extraction always_ok (only_aaa bars31) (only_aaa [tt]) ["BBB"%string; "AAA"%string] []
  = ([prices_write unit bars31; fundamentals_write [tt]],
     Returned (bars31, [tt]))
  /\ snd (run_extraction always_ok (only_aaa bars31) (only_aaa [tt]) ["BBB"%string] [])
     = Raised (UnboundLocalError "prices_df").
Proof.
  split.
  - rewrite (proj2 (proj2 (proj2
               (@extraction_outcome unit always_ok (only_aaa bars31)
                  (only_aaa [tt]) ["BBB"%string; "AAA"%string] []
                  ltac:(intro w; discriminate))))).
    + reflexivity.
    + intro H. specialize (H "AAA"%string (or_intror (or_introl eq_refl))).
      discriminate H.
    + intro H. specialize (H "AAA"%string (or_intror (or_introl eq_refl))).
      discriminate H.
  - rewrite (proj1 (@extraction_outcome unit always_ok (only_aaa bars31)
                      (only_aaa [tt]) ["BBB"%string] []
                      ltac:(intro w; discriminate))).
    + reflexivity.
    + intros t [<-|[]]. reflexivity.
    + intros t [<-|[]]. reflexivity.
Defined.

End ExtraWitnesses.

(* ================================================================== *)
(** ** The detector on the rows the indicator engine produces *)

Module EndToEnd.
Import Signals SignalSpec SignalFacts.
Import IndicatorsFull IndicatorsFullSpec IndicatorsFullFacts AllIndicatorsFacts.
Import Pipelines.

Lemma bands_ordered_or_missing (sqrtQ : Q -> Q) (cs : list Q) (i : nat) :
  (forall q, 0 <= sqrtQ q) ->
  nth i (IndicatorsFull.bb_lower sqrtQ (map Fin cs)) NaN = NaN
  \/ fleb (nth i (IndicatorsFull.bb_lower sqrtQ (map Fin cs)) NaN)
          (nth i (IndicatorsFull.bb_upper sqrtQ (map Fin cs)) NaN) = true.
Proof.
  intro Hs. rewrite nth_bb_lower, nth_bb_upper.
  destruct (Nat.lt_ge_cases i (length cs)) as [Hi|Hi].
  - destruct (Nat.lt_ge_cases (S i) 20) as [Hlt|Hge].
    + left. unfold rolling_mean. rewrite nth_rolling_early by exact Hlt.
      reflexivity.
    + right.
      assert (Hi' : (i < length (map Fin cs))%nat) by (rewrite length_map; exact Hi).
      assert (Hf : Forall is_finite (map Fin cs)).
      { apply Forall_map, Forall_forall. intros x _. exact I. }
      destruct (@rolling_std_finite sqrtQ Hs 20 (map Fin cs) i ltac:(lia)
                  Hf Hi' Hge) as (s & Es & Hs0).
      destruct (@IndicatorFacts.sma_finite_iff 20 cs i ltac:(lia) Hi)
        as [[_ Hm] _].
      specialize (Hm Hge). unfold Indicators.sma in Hm.
      destruct (nth i (rolling_mean 20 (map Fin cs)) NaN) as [| | |mid];
        try contradiction.
      unfold std_20. rewrite Es. cbn [fmul fadd fsub fleb].
      apply Qle_bool_iff. rewrite !Qred_correct. lra.
  - left. unfold rolling_mean.
    rewrite (nth_overflow (rolling 20 fmean (map Fin cs)))
      by (rewrite IndicatorFacts.rolling_length, length_map; exact Hi).
    reflexivity.
Qed.

Lemma finite_closes (l : list price_row) :
  Forall (fun r => is_finite (p_close r)) l ->
  exists cs, map p_close l = map Fin cs.
Proof.
  induction 1 as [|r l Hr _ (cs & E)].
  - exists []. reflexivity.
  - destruct (p_close r) as [| | |c] eqn:Ec; try contradiction.
    exists (c :: cs). cbn [map]. rewrite Ec, E. reflexivity.
Qed.

(** Every row of the indicator frame has its lower band missing or at most
    its upper band. *)
Lemma output_bands (sqrtQ : Q -> Q) (df : list price_row) (r : indicator_row) :
  (forall q, 0 <= sqrtQ q) ->
  Forall (fun x => is_finite (p_close x)) df ->
  In r (all_rows sqrtQ df) ->
  i_bb_lower r = NaN \/ fleb (i_bb_lower r) (i_bb_upper r) = true.
Proof.
  intros Hs Hf Hin. rewrite calculate_all_flat_map in Hin.
  apply in_flat_map in Hin. destruct Hin as (u & _ & Hin).
  set (block := filter (fun x => String.eqb (p_ticker x) u)
                       (isort ticker_date_leb df)) in *.
  assert (Hb : Forall (fun x => is_finite (p_close x)) block).
  { apply Forall_forall. intros x Hx. unfold block in Hx.
    apply filter_In in Hx. destruct Hx as [Hx _]. apply isort_in in Hx.
    rewrite Forall_forall in Hf. apply Hf, Hx. }
  destruct (finite_closes Hb) as (cs & E).
  unfold _add_indicators in Hin. apply in_map_iff in Hin.
  destruct Hin as ([i x] & <- & _).
  cbn [i_bb_lower i_bb_upper]. rewrite E.
  apply bands_ordered_or_missing, Hs.
Qed.

Lemma bb_pair_never_both (l : row) :
  Signals.bb_lower l = NaN \/ fleb (Signals.bb_lower l) (Signals.bb_upper l) = true ->
  cond_bb_oversold l && cond_bb_overbought l = false.
Proof.
  intros [E|E].
  - unfold cond_bb_oversold. rewrite E. reflexivity.
  - apply bb_oversold_excludes_overbought, E.
Qed.

Lemma at_most_four (l p : row) :
  cond_bb_oversold l && cond_bb_overbought l = false ->
  (length (rule_types l p) <= 4)%nat.
Proof.
  intro H4.
  pose proof (golden_excludes_death l p) as H1.
  pose proof (oversold_excludes_overbought l) as H2.
  pose proof (bullish_excludes_bearish l p) as H3.
  unfold rule_types.
  destruct (cond_golden_cross l p), (cond_death_cross l p); try discriminate;
    destruct (cond_rsi_oversold l), (cond_rsi_overbought l); try discriminate;
    destruct (cond_macd_bullish l p), (cond_macd_bearish l p); try discriminate;
    destruct (cond_bb_oversold l), (cond_bb_overbought l); try discriminate;
    simpl; lia.
Qed.

Lemma latest_in_frame (t : string) (df : list row) (l p : row) :
  last_two (stock_rows t df) = Some (l, p) -> In l df.
Proof.
  unfold last_two. intro E.
  destruct (rev (stock_rows t df)) as [|a [|b rest]] eqn:Er; try discriminate.
  injection E as -> ->.
  assert (Hl : In l (stock_rows t df)).
  { apply in_rev. rewrite Er. left. reflexivity. }
  unfold stock_rows in Hl. apply isort_in in Hl. apply filter_In in Hl.
  apply Hl.
Qed.

(** Take the frame the indicator engine computes from a price frame with
    finite closes, and any frame of signal rows whose two band columns are
    those of some row of it, whatever close the join gives the row.  On
    such a frame the detector never emits both Bollinger signals for a
    ticker, and it emits at most four signals other than NEUTRAL per
    ticker. *)
Theorem signals_on_engine_output
  (sqrtQ : Q -> Q) (df : list price_row) (out : list indicator_row)
  (indicators_df : list row) (t : string) :
  (forall q, 0 <= sqrtQ q) ->
  Forall (fun x => is_finite (p_close x)) df ->
  calculate_all_indicators sqrtQ df = Some out ->
  (forall x, In x indicators_df ->
     exists r, In r out
               /\ Signals.bb_lower x = i_bb_lower r
               /\ Signals.bb_upper x = i_bb_upper r) ->
  ~ (In BB_OVERSOLD (fired t indicators_df)
     /\ In BB_OVERBOUGHT (fired t indicators_df))
  /\ (non_neutral_count (fired t indicators_df) <= 4)%nat.
Proof.
  intros Hs Hf Hout Hjoin.
  apply calculate_all_inv in Hout. destruct Hout as [_ ->].
  destruct (generate_cases t indicators_df) as [[_ E]|(l & p & E & Hd)].
  { unfold fired, non_neutral_count. rewrite E.
    split; [intros [[] _] | simpl; lia]. }
  assert (Hl : In l indicators_df) by (eapply latest_in_frame; exact E).
  destruct (Hjoin l Hl) as (r & Hr & El & Eu).
  pose proof (@output_bands sqrtQ df r Hs Hf Hr) as Hb.
  assert (Hb' : Signals.bb_lower l = NaN \/ fleb (Signals.bb_lower l) (Signals.bb_upper l) = true).
  { rewrite El, Eu. exact Hb. }
  pose proof (@bb_pair_never_both l Hb') as H4.
  split.
  - intros [Ha Hb2].
    apply (fired_iff _ _ E) in Ha; [|discriminate].
    apply (fired_iff _ _ E) in Hb2; [|discriminate].
    simpl in Ha, Hb2. rewrite Ha, Hb2 in H4. discriminate H4.
  - unfold non_neutral_count, fired. rewrite Hd, detect_types.
    pose proof (@at_most_four l p H4) as Hc.
    destruct (rule_types l p) as [|x rest]; [simpl; lia|].
    etransitivity; [apply filter_length_le | exact Hc].
Qed.

Lemma signals_on_engine_output_witness :
  (non_neutral_count
     (fired "AAA"
        (map joined_row
           (all_rows Risk.Qsqrt_up bars31))) <= 4)%nat.
Proof.
  apply (@signals_on_engine_output Risk.Qsqrt_up bars31
           (all_rows Risk.Qsqrt_up bars31)
           (map joined_row (all_rows Risk.Qsqrt_up bars31)) "AAA"%string).
  - intro q. unfold Risk.Qsqrt_up, Qle. simpl.
    pose proof (Z.sqrt_up_nonneg
                  (Qnum q * Zpos (Qden q) * Zpos Risk.sqrt_scale
                   * Zpos Risk.sqrt_scale)).
    lia.
  - apply Forall_forall. intros r Hr. unfold bars31 in Hr.
    apply in_map_iff in Hr. destruct Hr as (n & <- & _). exact I.
  - apply calculate_all_some. discriminate.
  - intros x Hx. apply in_map_iff in Hx. destruct Hx as (r & <- & Hr).
    exists r. split; [exact Hr|]. split; reflexivity.
Defined.

End EndToEnd.
